(** * Accounts-receivable collection manager

    A shallow embedding of the three engines of the repository:

    - [Engine]   : [ar_workflow_engine.py]  (class [CollectionWorkflowEngine]),
    - [Promises] : [ar_promise_tracker.py]  (class [PaymentPromiseTracker]),
    - [Scoring]  : [ar_prioritization.py]   (class [CollectionPrioritizer]).

    Conventions of the embedding.

    - A SQLite table is the list of its rows, in rowid order.  A [SELECT] is
      a [filter]/[flat_map] over that list, [fetchone] is the head of the
      result, [UPDATE ... WHERE p] maps over the rows satisfying [p], and an
      [INSERT] appends a row.  Primary-key constraints are either checked by
      the insertion (where the program supplies the key) or stated as a
      well-formedness hypothesis on the tables.
    - A Python [float] is the rational that it denotes ([Q]); integers are
      [Z].  The promise tracker decides by products and differences of
      floats, so its arithmetic is rounded to binary64 ([b64]: to nearest,
      ties to even); amounts that are only stored and compared are taken as
      they are, and the arithmetic of the scoring engine is exact.
    - A [datetime] is a number of microseconds, a [date] a number of days.
      [datetime.now()] reads an external clock: the n-th reading made by the
      program returns [clk n], for an arbitrary function [clk].
    - Python exceptions are an outcome of the computation next to normal
      return; the state reached when the exception is raised is kept. *)

From Stdlib Require Import ZArith QArith Qround Qabs Qminmax Qpower String List Bool Lia Lqa
  Permutation Sorted.

Import ListNotations.

Open Scope Z_scope.

(** * Part I: the embedding of the program *)

(** ** Helpers shared by the three modules *)

(** Python truthiness of an optional string ([if customer_filter:]). *)
Definition truthy_string (o : option string) : bool :=
  match o with
  | Some s => negb (String.eqb s EmptyString)
  | None => false
  end.

(** Python truthiness of an optional integer ([if invoice_id:], [if delay_days]). *)
Definition truthy_int (o : option Z) : bool :=
  match o with
  | Some z => negb (z =? 0)
  | None => false
  end.

Definition option_Z_eqb (a b : option Z) : bool :=
  match a, b with
  | Some x, Some y => x =? y
  | None, None => true
  | _, _ => false
  end.

(** [UPDATE t SET ... WHERE p]. *)
Definition update_where {A : Type} (p : A -> bool) (f : A -> A) (l : list A) : list A :=
  map (fun x => if p x then f x else x) l.

(** [ORDER BY key] (ascending); rows with equal keys keep their table order. *)
Fixpoint insert_by {A : Type} (key : A -> Z) (x : A) (l : list A) : list A :=
  match l with
  | [] => [x]
  | y :: l' => if key x <=? key y then x :: y :: l' else y :: insert_by key x l'
  end.

Fixpoint order_by {A : Type} (key : A -> Z) (l : list A) : list A :=
  match l with
  | [] => []
  | x :: l' => insert_by key x (order_by key l')
  end.

(** [SUM(col)]: NULL on the empty set of rows. *)
Definition sql_sum (l : list Q) : option Q :=
  match l with
  | [] => None
  | _ => Some (fold_left Qplus l 0%Q)
  end.

(** *** Binary64 arithmetic

    Python's [float] is an IEEE 754 binary64 number.  A finite float is kept
    as the rational number it denotes, and [b64] is the rounding of a rational
    to binary64: to the nearest float, a tie to the one with an even
    significand, with 53 bits of significand and gradual underflow below
    [2 ^ -1022].  (A result beyond the largest float, which Python gives as
    [inf], is kept as the rounded rational; it compares with the floats as
    [inf] does.) *)

(** The integer [e] with [2 ^ e <= x < 2 ^ (e + 1)], for a positive [x]. *)
Definition ilog2 (x : Q) : Z :=
  let e := Z.log2 (Qnum x) - Z.log2 (Z.pos (Qden x)) in
  if Qle_bool (2 ^ e) x then e else e - 1.

(** The nearest integer, a tie to the even one. *)
Definition rne (x : Q) : Z :=
  let n := Qfloor x in
  let frac := (x - inject_Z n)%Q in
  if Qle_bool frac (1 # 2)
  then if Qle_bool (1 # 2) frac then (if Z.even n then n else n + 1) else n
  else n + 1.

(** The exponent of the last bit of the float next to a positive [a]:
    53 bits of significand, and [2 ^ -1074] for the subnormal numbers. *)
Definition quantum (a : Q) : Z := Z.max (ilog2 a - 52) (-1074).

Definition round_pos (a : Q) : Q :=
  (inject_Z (rne (a / 2 ^ quantum a)) * 2 ^ quantum a)%Q.

Definition b64 (x : Q) : Q :=
  let a := Qabs x in
  if Qle_bool a 0 then 0%Q
  else if Qle_bool 0 x then round_pos a else (- round_pos a)%Q.

(** [a * b] and [a - b] on floats. *)
Definition fmul (a b : Q) : Q := b64 (a * b).

Definition fsub (a b : Q) : Q := b64 (a - b).

Definition microseconds_per_second : Z := 1000000.

Definition microseconds_per_day : Z := 86400 * microseconds_per_second.

(** [datetime.date()] and [timedelta(days=n)]. *)
Definition date_of (t : Z) : Z := t / microseconds_per_day.

Definition days (n : Z) : Z := n * microseconds_per_day.

(** ** The workflow engine ([ar_workflow_engine.py]) *)

Module Engine.

Inductive WorkflowStatus := PENDING | ACTIVE | COMPLETED | FAILED | CANCELLED.

Definition status_eqb (a b : WorkflowStatus) : bool :=
  match a, b with
  | PENDING, PENDING | ACTIVE, ACTIVE | COMPLETED, COMPLETED
  | FAILED, FAILED | CANCELLED, CANCELLED => true
  | _, _ => false
  end.

(** The instance id [f"WF_{workflow_id}_{customer_id}_{now:%Y%m%d%H%M%S}"].
    The three fields are separated by underscores and the stamp has one value
    per second, so two ids are the same string exactly when the three
    components agree; the id is kept as the triple. *)
Record InstanceId := mkId { id_workflow : Z; id_customer : Z; id_stamp : Z }.

Definition id_eqb (a b : InstanceId) : bool :=
  (id_workflow a =? id_workflow b) && (id_customer a =? id_customer b)
  && (id_stamp a =? id_stamp b).

(** Row of [collection_workflows] (columns read by the engine). *)
Record Workflow := mkWorkflow {
  workflow_id : Z;
  workflow_name : string;
  days_past_due_trigger : Z;
  amount_threshold : Q;
  customer_type_filter : option string;
  is_active : bool;
  execution_order : Z
}.

(** Row of [workflow_steps]. *)
Record Step := mkStep {
  step_id : Z;
  ws_workflow_id : Z;
  step_order : Z;
  action_type : string;
  template_id : option string;
  assigned_to : option string;
  delay_days : option Z;
  escalation_days : option Z;
  ws_is_active : bool
}.

(** Python exceptions raised inside the engine; [failure_reason] stores
    [str(e)], kept here as the exception itself. *)
Inductive Exn :=
| ValueError_instance_not_found (id : InstanceId)
| TypeError_unpack_None
| IntegrityError_instance_id (id : InstanceId).

(** Row of [workflow_instances]. *)
Record Instance := mkInstance {
  instance_id : InstanceId;
  wi_workflow_id : Z;
  wi_customer_id : Z;
  wi_invoice_id : option Z;
  status : WorkflowStatus;
  current_step : Z;
  scheduled_date : Z;
  created_date : Z;
  completed_date : option Z;
  last_action_date : option Z;
  failure_reason : option Exn;
  retry_count : Z
}.

(** Row of [invoices] (columns read by the engine). *)
Record Invoice := mkInvoice {
  invoice_id : Z;
  inv_customer_id : Z;
  outstanding_amount : Q;
  days_past_due : Z;
  inv_status : string
}.

(** Row of [customers] (columns read or written by the engine). *)
Record Customer := mkCustomer {
  customer_id : Z;
  customer_name : string;
  email : string;
  phone : string;
  customer_type : string;
  is_credit_hold : bool;
  updated_date : option Z
}.

(** The dictionaries returned by the actions. *)
Inductive ActionResult :=
| email_sent (recipient template : string) (outstanding : option Q)
| call_scheduled (to_phone assigned : string) (on_date : Z)
| dunning_letter_sent (customer : string) (outstanding : option Q)
| credit_hold_applied (customer : Z) (effective_date : Z)
| legal_referral_created (customer : string) (outstanding : option Q) (referral_date : Z)
| case_escalated (customer : Z) (assigned : string) (escalation_date : Z)
| not_implemented (action : string).

(** Row of [workflow_execution_log]. *)
Record LogEntry := mkLog {
  log_instance_id : InstanceId;
  log_step_id : Z;
  log_status : string;
  result_data : ActionResult;
  execution_time_ms : Z
}.

(** Row of [collection_activities] (columns written by the engine). *)
Record Activity := mkActivity {
  act_customer_id : option Z;
  act_invoice_id : option Z;
  activity_date : Z;
  activity_type : string;
  activity_result : string;
  communication_method : string;
  act_assigned_to : option string
}.

(** Row of [credit_history]. *)
Record CreditEvent := mkCredit {
  ce_customer_id : Z;
  event_date : Z;
  event_type : string
}.

Record DB := mkDB {
  collection_workflows : list Workflow;
  workflow_steps : list Step;
  workflow_instances : list Instance;
  invoices : list Invoice;
  customers : list Customer;
  workflow_execution_log : list LogEntry;
  collection_activities : list Activity;
  credit_history : list CreditEvent
}.

Definition with_instances (f : list Instance -> list Instance) (d : DB) : DB :=
  mkDB (collection_workflows d) (workflow_steps d) (f (workflow_instances d))
       (invoices d) (customers d) (workflow_execution_log d)
       (collection_activities d) (credit_history d).

Definition with_customers (f : list Customer -> list Customer) (d : DB) : DB :=
  mkDB (collection_workflows d) (workflow_steps d) (workflow_instances d)
       (invoices d) (f (customers d)) (workflow_execution_log d)
       (collection_activities d) (credit_history d).

Definition insert_log (e : LogEntry) (d : DB) : DB :=
  mkDB (collection_workflows d) (workflow_steps d) (workflow_instances d)
       (invoices d) (customers d) (workflow_execution_log d ++ [e])
       (collection_activities d) (credit_history d).

Definition insert_activity (a : Activity) (d : DB) : DB :=
  mkDB (collection_workflows d) (workflow_steps d) (workflow_instances d)
       (invoices d) (customers d) (workflow_execution_log d)
       (collection_activities d ++ [a]) (credit_history d).

Definition insert_credit_event (e : CreditEvent) (d : DB) : DB :=
  mkDB (collection_workflows d) (workflow_steps d) (workflow_instances d)
       (invoices d) (customers d) (workflow_execution_log d)
       (collection_activities d) (credit_history d ++ [e]).

(** The database together with the number of clock readings made so far. *)
Record World := mkWorld { db : DB; reads : nat }.

Inductive Outcome (A : Type) :=
| Ret (a : A)
| Raise (e : Exn).

Arguments Ret {A} a.

Arguments Raise {A} e.

Definition M (A : Type) : Type := World -> Outcome A * World.

Definition ret {A} (a : A) : M A := fun w => (Ret a, w).

Definition bind {A B} (m : M A) (k : A -> M B) : M B :=
  fun w => match m w with
           | (Ret a, w') => k a w'
           | (Raise e, w') => (Raise e, w')
           end.

Definition raise {A} (e : Exn) : M A := fun w => (Raise e, w).

(** [try: ... except Exception as e: ...]: the outcome of the body, with the
    state it reached. *)
Definition try {A} (m : M A) : M (A + Exn) :=
  fun w => match m w with
           | (Ret a, w') => (Ret (inl a), w')
           | (Raise e, w') => (Ret (inr e), w')
           end.

Definition get_db : M DB := fun w => (Ret (db w), w).

Definition modify_db (f : DB -> DB) : M unit :=
  fun w => (Ret tt, mkWorld (f (db w)) (reads w)).

Notation "x <- m ;; k" := (bind m (fun x => k))
  (at level 61, m at next level, right associativity).

Notation "m ;;; k" := (bind m (fun _ => k))
  (at level 61, right associativity).

Notation "' pat <- m ;; k" := (bind m (fun x => match x with pat => k end))
  (at level 61, pat pattern, m at next level, right associativity).

(** [for x in l: ...] collecting the values of the body. *)
Fixpoint map_m {A B} (f : A -> M B) (l : list A) : M (list B) :=
  match l with
  | [] => ret []
  | x :: l' => y <- f x ;; ys <- map_m f l' ;; ret (y :: ys)
  end.

(** [for x in l: ...] threading an accumulator. *)
Fixpoint fold_m {A S} (f : S -> A -> M S) (l : list A) (s : S) : M S :=
  match l with
  | [] => ret s
  | x :: l' => s' <- f s x ;; fold_m f l' s'
  end.

Section WithClock.

(** The external clock: [clk n] is the value of the n-th reading. *)
Variable clk : nat -> Z.

(** [datetime.now()] (also SQLite's [CURRENT_TIMESTAMP]). *)
Definition now : M Z :=
  fun w => (Ret (clk (reads w)), mkWorld (db w) (S (reads w))).

(** *** [trigger_workflows] *)

(** [SELECT ... FROM collection_workflows WHERE is_active = TRUE
     ORDER BY execution_order]. *)
Definition active_workflows (d : DB) : list Workflow :=
  order_by execution_order (filter is_active (collection_workflows d)).

Definition in_active_workflow (i : Instance) : bool :=
  status_eqb (status i) PENDING || status_eqb (status i) ACTIVE.

(** [invoice_id IN (SELECT invoice_id FROM workflow_instances
     WHERE status IN ('PENDING','ACTIVE') AND invoice_id IS NOT NULL)]. *)
Definition already_in_workflow (d : DB) (inv : Z) : bool :=
  existsb (fun i => in_active_workflow i && option_Z_eqb (wi_invoice_id i) (Some inv))
          (workflow_instances d).

(** The trigger part of the [WHERE] clause, on a row of [invoices JOIN customers]. *)
Definition trigger_matches (w : Workflow) (i : Invoice) (c : Customer) : bool :=
  String.eqb (inv_status i) "OPEN"%string
  && (days_past_due_trigger w <=? days_past_due i)
  && Qle_bool (amount_threshold w) (outstanding_amount i)
  && (if truthy_string (customer_type_filter w)
      then match customer_type_filter w with
           | Some f => String.eqb (customer_type c) f
           | None => false
           end
      else true).

(** The whole matching query of one workflow: rows [(invoice_id, customer_id)]. *)
Definition matching_invoices (w : Workflow) (d : DB) : list (Z * Z) :=
  flat_map (fun i =>
    flat_map (fun c =>
      if (inv_customer_id i =? customer_id c)
         && trigger_matches w i c
         && negb (already_in_workflow d (invoice_id i))
      then [(invoice_id i, inv_customer_id i)] else [])
      (customers d))
    (invoices d).

Definition stamp_of (t : Z) : Z := t / microseconds_per_second.

Definition new_instance (id : InstanceId) (wid cid : Z) (inv : option Z)
                        (scheduled created : Z) : Instance :=
  mkInstance id wid cid inv PENDING 0 scheduled created None None None 0.

(** [_create_workflow_instance]: [instance_id] is the primary key of
    [workflow_instances], so inserting an id that is present raises
    [sqlite3.IntegrityError]. *)
Definition _create_workflow_instance (wid cid : Z) (inv : option Z) : M InstanceId :=
  t_id <- now ;;
  let id := mkId wid cid (stamp_of t_id) in
  t_sched <- now ;;
  d <- get_db ;;
  if existsb (fun i => id_eqb (instance_id i) id) (workflow_instances d)
  then raise (IntegrityError_instance_id id)
  else
    t_created <- now ;;
    modify_db (with_instances (fun l => l ++ [new_instance id wid cid inv t_sched t_created])) ;;;
    ret id.

Definition trigger_workflow (w : Workflow) : M (list InstanceId) :=
  d <- get_db ;;
  map_m (fun row => _create_workflow_instance (workflow_id w) (snd row) (Some (fst row)))
        (matching_invoices w d).

Definition trigger_workflows : M (list InstanceId) :=
  d <- get_db ;;
  idss <- map_m trigger_workflow (active_workflows d) ;;
  ret (concat idss).

(** *** The actions *)

(** [SUM(outstanding_amount)] of the customer's OPEN invoices; NULL when the
    customer has none (the [LEFT JOIN] of [_execute_action]). *)
Definition open_outstanding (d : DB) (cid : Z) : option Q :=
  sql_sum (map outstanding_amount
    (filter (fun i => String.eqb (inv_status i) "OPEN"%string && (inv_customer_id i =? cid))
            (invoices d))).

(** [customer_data]: [(customer_name, email, phone, outstanding_amount)]. *)
Definition customer_data (d : DB) (cid : Z) : option (string * string * string * option Q) :=
  match find (fun c => customer_id c =? cid) (customers d) with
  | Some c => Some (customer_name c, email c, phone c, open_outstanding d cid)
  | None => None
  end.

(** [(SELECT customer_id FROM customers WHERE customer_name = ?)]. *)
Definition customer_by_name (d : DB) (name : string) : option Z :=
  option_map customer_id (find (fun c => String.eqb (customer_name c) name) (customers d)).

(** [x or default] on an optional string. *)
Definition or_default (o : option string) (default : string) : string :=
  match o with
  | Some s => if String.eqb s EmptyString then default else s
  | None => default
  end.

(** [customer_name, email, phone, outstanding = customer_data]: unpacking
    [None] raises [TypeError]. *)
Definition unpack (cd : option (string * string * string * option Q))
  : M (string * string * string * option Q) :=
  match cd with
  | Some t => ret t
  | None => raise TypeError_unpack_None
  end.

Definition _send_email_reminder (cd : option (string * string * string * option Q))
    (inv : option Z) (template : option string) : M ActionResult :=
  '(name, mail, _, outstanding) <- unpack cd ;;
  t <- now ;;
  d <- get_db ;;
  modify_db (insert_activity
    (mkActivity (customer_by_name d name) inv (date_of t) "EMAIL" "SENT" "EMAIL" None)) ;;;
  ret (email_sent mail (or_default template "default") outstanding).

Definition _schedule_phone_call (cd : option (string * string * string * option Q))
    (assigned : option string) : M ActionResult :=
  '(name, _, ph, _) <- unpack cd ;;
  t <- now ;;
  _ <- now ;;
  d <- get_db ;;
  modify_db (insert_activity
    (mkActivity (customer_by_name d name) None (date_of t) "PHONE_CALL" "SCHEDULED" "PHONE"
                (Some (or_default assigned "Collection Team")))) ;;;
  t' <- now ;;
  ret (call_scheduled ph (or_default assigned "Collection Team") (date_of (t' + days 1))).

Definition _generate_dunning_letter (cd : option (string * string * string * option Q))
    (inv : option Z) : M ActionResult :=
  '(name, _, _, outstanding) <- unpack cd ;;
  t <- now ;;
  d <- get_db ;;
  modify_db (insert_activity
    (mkActivity (customer_by_name d name) inv (date_of t) "LETTER" "SENT" "MAIL" None)) ;;;
  ret (dunning_letter_sent name outstanding).

(** [SET is_credit_hold = TRUE, updated_date = CURRENT_TIMESTAMP]. *)
Definition hold (stamp : Z) (c : Customer) : Customer :=
  mkCustomer (customer_id c) (customer_name c) (email c) (phone c) (customer_type c)
             true (Some stamp).

Definition _apply_credit_hold (cid : Z) : M ActionResult :=
  stamp <- now ;;
  modify_db (with_customers (update_where (fun c => customer_id c =? cid) (hold stamp))) ;;;
  t <- now ;;
  modify_db (insert_credit_event (mkCredit cid (date_of t) "CREDIT_HOLD")) ;;;
  t' <- now ;;
  ret (credit_hold_applied cid (date_of t')).

Definition _create_legal_referral (cd : option (string * string * string * option Q))
    (inv : option Z) : M ActionResult :=
  '(name, _, _, outstanding) <- unpack cd ;;
  t <- now ;;
  d <- get_db ;;
  modify_db (insert_activity
    (mkActivity (customer_by_name d name) inv (date_of t) "LEGAL_REFERRAL" "REFERRED" "LEGAL"
                (Some "Legal Department"%string))) ;;;
  t' <- now ;;
  ret (legal_referral_created name outstanding (date_of t')).

Definition _escalate_case (cid : Z) (assigned : option string) : M ActionResult :=
  t <- now ;;
  modify_db (insert_activity
    (mkActivity (Some cid) None (date_of t) "ESCALATION" "ESCALATED" "INTERNAL"
                (Some (or_default assigned "Collection Supervisor")))) ;;;
  t' <- now ;;
  ret (case_escalated cid (or_default assigned "Collection Supervisor") (date_of t')).

Definition _execute_action (action : string) (cid : Z) (inv : option Z)
    (template assigned : option string) : M ActionResult :=
  d <- get_db ;;
  let cd := customer_data d cid in
  if String.eqb action "EMAIL_REMINDER" then _send_email_reminder cd inv template
  else if String.eqb action "PHONE_CALL" then _schedule_phone_call cd assigned
  else if String.eqb action "DUNNING_LETTER" then _generate_dunning_letter cd inv
  else if String.eqb action "CREDIT_HOLD" then _apply_credit_hold cid
  else if String.eqb action "LEGAL_REFERRAL" then _create_legal_referral cd inv
  else if String.eqb action "ESCALATION" then _escalate_case cid assigned
  else ret (not_implemented action).

(** *** [_execute_workflow_instance] *)

Definition set_completed (t : Z) (i : Instance) : Instance :=
  mkInstance (instance_id i) (wi_workflow_id i) (wi_customer_id i) (wi_invoice_id i)
             COMPLETED (current_step i) (scheduled_date i) (created_date i)
             (Some t) (last_action_date i) (failure_reason i) (retry_count i).

Definition set_failed (e : Exn) (i : Instance) : Instance :=
  mkInstance (instance_id i) (wi_workflow_id i) (wi_customer_id i) (wi_invoice_id i)
             FAILED (current_step i) (scheduled_date i) (created_date i)
             (completed_date i) (last_action_date i) (Some e) (retry_count i).

(** The [UPDATE workflow_instances SET current_step = ?, scheduled_date = ?,
    last_action_date = ?, status = CASE WHEN ? = (SELECT MAX(step_order) ...)
    THEN 'COMPLETED' ELSE 'ACTIVE' END] of [_execute_workflow_instance]. *)
Definition set_advanced (next_step next_scheduled last_action : Z) (max_order : option Z)
                        (i : Instance) : Instance :=
  mkInstance (instance_id i) (wi_workflow_id i) (wi_customer_id i) (wi_invoice_id i)
             (if option_Z_eqb (Some next_step) max_order then COMPLETED else ACTIVE)
             next_step next_scheduled (created_date i)
             (completed_date i) (Some last_action) (failure_reason i) (retry_count i).

Definition has_id (id : InstanceId) (i : Instance) : bool := id_eqb (instance_id i) id.

Definition _mark_instance_completed (id : InstanceId) : M unit :=
  t <- now ;;
  modify_db (with_instances (update_where (has_id id) (set_completed t))).

Definition _mark_instance_failed (id : InstanceId) (e : Exn) : M unit :=
  modify_db (with_instances (update_where (has_id id) (set_failed e))).

(** [SELECT wi.workflow_id, wi.customer_id, wi.invoice_id, wi.current_step
     FROM workflow_instances wi JOIN collection_workflows cw
     ON wi.workflow_id = cw.workflow_id WHERE wi.instance_id = ?], [fetchone]. *)
Definition instance_data (d : DB) (id : InstanceId) : option (Z * Z * option Z * Z) :=
  hd_error (flat_map (fun wi =>
    flat_map (fun cw =>
      if has_id id wi && (wi_workflow_id wi =? workflow_id cw)
      then [(wi_workflow_id wi, wi_customer_id wi, wi_invoice_id wi, current_step wi)]
      else [])
      (collection_workflows d))
    (workflow_instances d)).

(** [SELECT ... FROM workflow_steps WHERE workflow_id = ? AND step_order = ?
     AND is_active = TRUE], [fetchone]. *)
Definition step_data (d : DB) (wid order : Z) : option Step :=
  find (fun s => (ws_workflow_id s =? wid) && (step_order s =? order) && ws_is_active s)
       (workflow_steps d).

(** [SELECT MAX(step_order) FROM workflow_steps WHERE workflow_id = ?]. *)
Definition max_step_order (d : DB) (wid : Z) : option Z :=
  fold_left (fun acc s =>
               if ws_workflow_id s =? wid
               then match acc with
                    | Some m => Some (Z.max m (step_order s))
                    | None => Some (step_order s)
                    end
               else acc)
            (workflow_steps d) None.

Inductive ExecResult :=
| completed_all_steps
| success (action_executed : string) (next_scheduled : Z) (execution_ms : Z).

Definition _execute_workflow_instance (id : InstanceId) : M ExecResult :=
  d <- get_db ;;
  match instance_data d id with
  | None => raise (ValueError_instance_not_found id)
  | Some (wid, cid, inv, cur) =>
    match step_data d wid (cur + 1) with
    | None => _mark_instance_completed id ;;; ret completed_all_steps
    | Some s =>
      start_time <- now ;;
      result <- _execute_action (action_type s) cid inv (template_id s) (assigned_to s) ;;
      end_time <- now ;;
      let ms := Z.quot (end_time - start_time) 1000 in
      modify_db (insert_log (mkLog id (step_id s) "SUCCESS" result ms)) ;;;
      let next_step := cur + 1 in
      t <- now ;;
      let next_scheduled :=
        if truthy_int (delay_days s)
        then match delay_days s with Some n => t + days n | None => t end
        else t in
      t_last <- now ;;
      d' <- get_db ;;
      modify_db (with_instances (update_where (has_id id)
        (set_advanced next_step next_scheduled t_last (max_step_order d' wid)))) ;;;
      ret (success (action_type s) next_scheduled ms)
    end
  end.

(** *** [execute_pending_workflows] *)

Record ExecutionResults := mkResults {
  executed : Z;
  failed : Z;
  skipped : Z;
  res_instances : list (InstanceId * (ExecResult + Exn))
}.

Definition is_due (t : Z) (i : Instance) : bool :=
  status_eqb (status i) PENDING && (scheduled_date i <=? t).

(** [SELECT ... FROM workflow_instances WHERE status = 'PENDING'
     AND scheduled_date <= ? ORDER BY scheduled_date]. *)
Definition pending_instances (d : DB) (t : Z) : list Instance :=
  order_by scheduled_date (filter (is_due t) (workflow_instances d)).

(** The body of the loop: the [try] ... [except Exception] around
    [_execute_workflow_instance]. *)
Definition execute_instance (res : ExecutionResults) (id : InstanceId) : M ExecutionResults :=
  r <- try (_execute_workflow_instance id) ;;
  match r with
  | inl result =>
      ret (mkResults (executed res + 1) (failed res) (skipped res)
                     (res_instances res ++ [(id, inl result)]))
  | inr e =>
      _mark_instance_failed id e ;;;
      ret (mkResults (executed res) (failed res + 1) (skipped res)
                     (res_instances res ++ [(id, inr e)]))
  end.

Definition execute_pending_workflows : M ExecutionResults :=
  t <- now ;;
  d <- get_db ;;
  fold_m execute_instance (map instance_id (pending_instances d t)) (mkResults 0 0 0 []).

(** *** Sequences of engine operations *)

Inductive Operation := ScanTriggers | ExecuteDue.

(** One batch operation as the orchestrator calls it; an exception that
    escapes a scan ends that scan only. *)
Definition run_operation (op : Operation) : M unit :=
  match op with
  | ScanTriggers => _ <- try trigger_workflows ;; ret tt
  | ExecuteDue => _ <- execute_pending_workflows ;; ret tt
  end.

Fixpoint run_operations (ops : list Operation) : M unit :=
  match ops with
  | [] => ret tt
  | op :: ops' => run_operation op ;;; run_operations ops'
  end.

End WithClock.

(** *** Notions used in the statements *)

(** **** Frame of a trigger scan: only [workflow_instances] grows *)

(** Everything but the instance table. *)
Definition without_instances (d : DB) : DB := with_instances (fun _ => []) d.

Definition appended (w w' : World) (news : list Instance) : Prop :=
  without_instances (db w') = without_instances (db w)
  /\ workflow_instances (db w') = workflow_instances (db w) ++ news.

(** The row inserted by [_create_workflow_instance] for a row of the
    matching query. *)
Definition created_for (wid : Z) (row : Z * Z) (i : Instance) : Prop :=
  exists id scheduled created,
    i = new_instance id wid (snd row) (Some (fst row)) scheduled created.

(** *** Coverage of an invoice by an outstanding instance *)

Definition for_invoice (inv : Z) (i : Instance) : bool :=
  option_Z_eqb (wi_invoice_id i) (Some inv).

Definition covers (l : list Instance) (inv : Z) : bool :=
  existsb (fun i => in_active_workflow i && for_invoice inv i) l.

(** Every invoice that satisfies the trigger of [wf] is in an outstanding
    workflow. *)
Definition no_match (wf : Workflow) (d : DB) : Prop :=
  forall i c,
    In i (invoices d) -> In c (customers d) ->
    inv_customer_id i = customer_id c ->
    trigger_matches wf i c = true ->
    already_in_workflow d (invoice_id i) = true.

(** *** The rows of one invoice in the matching query *)

Definition row_of (inv : Z) (row : Z * Z) : bool := fst row =? inv.

(** *** Frame of an execution run *)

(** Two instance tables with the same ids, row by row, that differ at most
    on the rows whose id is in [ids]. *)
Definition same_except (ids : list InstanceId) (l l' : list Instance) : Prop :=
  Forall2 (fun a b => instance_id a = instance_id b
                      /\ (~ In (instance_id a) ids -> a = b)) l l'.

(** What an execution run may do to the database: definitions, steps and
    invoices stay, customers keep their ids, and the instance table changes
    at most on the rows whose id is in [ids]. *)
Definition evolves (ids : list InstanceId) (d d' : DB) : Prop :=
  collection_workflows d' = collection_workflows d
  /\ workflow_steps d' = workflow_steps d
  /\ invoices d' = invoices d
  /\ map customer_id (customers d') = map customer_id (customers d)
  /\ same_except ids (workflow_instances d) (workflow_instances d').

Definition preserves {A} (ids : list InstanceId) (m : M A) : Prop :=
  forall w o w', m w = (o, w') ->
    evolves ids (db w) (db w') /\ (reads w <= reads w')%nat.

(** *** Instances that a run does not select *)

Definition unique_instance_ids (d : DB) : Prop :=
  NoDup (map instance_id (workflow_instances d)).

(** *** The outcome of executing one instance *)

(** The actions that unpack [customer_data]. *)
Definition needs_customer_data (action : string) : bool :=
  String.eqb action "EMAIL_REMINDER" || String.eqb action "PHONE_CALL"
  || String.eqb action "DUNNING_LETTER" || String.eqb action "LEGAL_REFERRAL".

(** The exception, if any, that [_execute_workflow_instance] raises for the
    instance [id] in database [d]: the instance joins no definition, or its
    next step unpacks the data of a customer that does not exist. *)
Definition step_exception (d : DB) (id : InstanceId) : option Exn :=
  match instance_data d id with
  | None => Some (ValueError_instance_not_found id)
  | Some (wid, cid, _, cur) =>
    match step_data d wid (cur + 1) with
    | None => None
    | Some s =>
      if needs_customer_data (action_type s)
      then match customer_data d cid with
           | None => Some TypeError_unpack_None
           | Some _ => None
           end
      else None
    end
  end.

Definition row_data (i : Instance) : Z * Z * option Z * Z :=
  (wi_workflow_id i, wi_customer_id i, wi_invoice_id i, current_step i).

Definition delay_of (s : Step) : Z :=
  match delay_days s with Some n => n | None => 0 end.

(** *** Concrete scenario: one 45-day, $5,000 invoice and the trigger (31, 500) *)

Definition example_clock (n : nat) : Z := 1700000000000000 + Z.of_nat n * 1000.

Definition standard_collection : Workflow :=
  mkWorkflow 1 "Standard Collection Workflow" 31 500%Q None true 1.

Definition early_reminder : Workflow :=
  mkWorkflow 2 "Early Reminder Workflow" 1 100%Q None true 2.

Definition standard_steps : list Step :=
  [ mkStep 10 1 1 "PHONE_CALL" None (Some "Senior Collector"%string) (Some 0) None true;
    mkStep 11 1 2 "DUNNING_LETTER" None None (Some 7) None true ].

Definition acme : Customer :=
  mkCustomer 7 "Acme" "ap@acme.example" "555-0100" "REGULAR" false None.

Definition invoice_100 : Invoice := mkInvoice 100 7 5000%Q 45 "OPEN".

Definition scenario2 : World :=
  mkWorld (mkDB [standard_collection] standard_steps [] [invoice_100] [acme] [] [] []) 0.

Definition scenario2_scanned : World :=
  Eval vm_compute in snd (trigger_workflows example_clock scenario2).

(** *** Further inputs for the claims about [trigger_workflows] *)

Definition for_pair (wid inv : Z) (i : Instance) : bool :=
  (wi_workflow_id i =? wid) && for_invoice inv i.

(** Two active definitions whose triggers both accept invoice 100. *)
Definition two_definitions : World :=
  mkWorld (mkDB [standard_collection; early_reminder] standard_steps []
                [invoice_100] [acme] [] [] []) 0.

Definition two_definitions_scanned : World :=
  Eval vm_compute in snd (trigger_workflows example_clock two_definitions).

(** Two invoices of one customer that both satisfy the trigger. *)
Definition invoice_101 : Invoice := mkInvoice 101 7 800%Q 40 "OPEN".

Definition two_invoices : World :=
  mkWorld (mkDB [standard_collection] standard_steps [] [invoice_100; invoice_101]
                [acme] [] [] []) 0.

(** The state in which the scan of [two_invoices] ends. *)
Definition two_invoices_scanned : World :=
  Eval vm_compute in snd (trigger_workflows example_clock two_invoices).

(** A clock that starts one minute after [example_clock]. *)
Definition later_clock (n : nat) : Z := example_clock n + 60 * microseconds_per_second.

(** *** Inputs for the claims about [execute_pending_workflows] *)

Definition scenario2_executed : World :=
  Eval vm_compute in snd (execute_pending_workflows example_clock scenario2_scanned).

(** A definition with a single step, which is therefore its final step. *)
Definition final_notice : Workflow :=
  mkWorkflow 3 "Final Notice Workflow" 61 1000%Q None true 3.

Definition final_notice_steps : list Step :=
  [ mkStep 30 3 1 "DUNNING_LETTER" (Some "final_notice"%string) None (Some 14) None true ].

Definition invoice_200 : Invoice := mkInvoice 200 7 12000%Q 75 "OPEN".

Definition final_step : World :=
  mkWorld (mkDB [final_notice] final_notice_steps [] [invoice_200] [acme] [] [] []) 0.

Definition final_step_scanned : World :=
  Eval vm_compute in snd (trigger_workflows example_clock final_step).

Definition final_step_executed : World :=
  Eval vm_compute in snd (execute_pending_workflows example_clock final_step_scanned).

(** An instance whose customer is no longer in [customers]. *)
Definition orphan_instance : Instance :=
  new_instance (mkId 1 9 1699999000) 1 9 (Some 300) 1699999000000000 1699999000000000.

Definition orphan : World :=
  mkWorld (mkDB [standard_collection] standard_steps [orphan_instance] [] [acme] [] [] []) 0.

Definition orphan_executed : World :=
  Eval vm_compute in snd (execute_pending_workflows example_clock orphan).

End Engine.

(** ** The payment-promise tracker ([ar_promise_tracker.py]) *)

Module Promises.

Inductive PromiseStatus := ACTIVE | KEPT | BROKEN | PARTIALLY_KEPT | CANCELLED.

Definition status_eqb (a b : PromiseStatus) : bool :=
  match a, b with
  | ACTIVE, ACTIVE | KEPT, KEPT | BROKEN, BROKEN
  | PARTIALLY_KEPT, PARTIALLY_KEPT | CANCELLED, CANCELLED => true
  | _, _ => false
  end.

(** A date argument passed as a string: absent or empty, not of the form
    [%Y-%m-%d], or a date. *)
Inductive DateInput :=
| NoDate
| Malformed
| Parsed (d : Z).

Definition Qlt_bool (a b : Q) : bool := negb (Qle_bool b a).

(** Row of [customers] (columns read by the tracker). *)
Record Customer := mkCustomer {
  customer_id : Z;
  customer_name : string
}.

(** Row of [invoices] (columns read or written by the tracker). *)
Record Invoice := mkInvoice {
  invoice_id : Z;
  inv_customer_id : Z;
  outstanding_amount : Q;
  collection_status : option string;
  next_collection_action_date : option Z
}.

(** Row of [payments] and of [payment_applications]. *)
Record Payment := mkPayment { payment_id : Z; payment_date : Z }.

Record PaymentApplication := mkApplication {
  pa_payment_id : Z;
  pa_invoice_id : Z;
  applied_amount : Q
}.

(** Row of [payment_promises]. *)
Record Promise := mkPromise {
  promise_id : Z;
  pp_customer_id : Z;
  pp_invoice_id : option Z;
  promise_date : Z;
  promised_amount : Q;
  promised_payment_date : Z;
  pp_status : PromiseStatus;
  actual_payment_date : option Z;
  actual_payment_amount : option Q;
  follow_up_date : Z;
  follow_up_completed : bool;
  escalation_required : bool;
  contact_person : string;
  contact_method : string;
  notes : string;
  created_by : string
}.

(** The texts of the activity notes, with the values they are formatted from. *)
Inductive Note :=
| follow_up_scheduled (promise : Z)
| promise_honored (received : Q)
| promise_not_honored
| partial_payment_made (received : Q)
| promise_cancelled.

(** Row of [collection_activities] (columns written by the tracker). *)
Record Activity := mkActivity {
  act_customer_id : Z;
  act_invoice_id : option Z;
  activity_date : Z;
  activity_type : string;
  activity_result : string;
  next_action : string;
  next_action_date : option Z;
  activity_notes : Note;
  requires_follow_up : bool;
  follow_up_priority : string
}.

Record DB := mkDB {
  customers : list Customer;
  invoices : list Invoice;
  payment_promises : list Promise;
  payments : list Payment;
  payment_applications : list PaymentApplication;
  collection_activities : list Activity
}.

Definition with_promises (f : list Promise -> list Promise) (d : DB) : DB :=
  mkDB (customers d) (invoices d) (f (payment_promises d)) (payments d)
       (payment_applications d) (collection_activities d).

Definition with_invoices (f : list Invoice -> list Invoice) (d : DB) : DB :=
  mkDB (customers d) (f (invoices d)) (payment_promises d) (payments d)
       (payment_applications d) (collection_activities d).

Definition insert_activity (a : Activity) (d : DB) : DB :=
  mkDB (customers d) (invoices d) (payment_promises d) (payments d)
       (payment_applications d) (collection_activities d ++ [a]).

(** The [error] strings of the result dictionaries. *)
Inductive Error :=
| amount_must_be_positive
| invalid_date_format
| date_must_be_in_future
| customer_not_found
| invoice_not_found_or_paid
| exceeds_outstanding_balance (outstanding : Q)
| promise_not_found
| invalid_payment_date_format
| cannot_update_status (current : PromiseStatus)
| actual_amount_required.

(** [self.tolerance_settings]. *)
Definition grace_period_days : Z := 2.

Definition escalation_threshold : Z := 3.

Definition follow_up_lead_time : Z := 1.

Section Tracker.

(** The schema of [payment_promises] is not part of the sources; the id that
    SQLite gives to an inserted promise ([cursor.lastrowid]) is a parameter. *)
Variable lastrowid : list Promise -> Z.

(** The calendar date ([datetime.now().date()], [date('now')]); it is the
    same for all the readings of one call. *)
Variable today : Z.

(** *** [create_payment_promise] *)

Record Created := mkCreated {
  new_promise_id : Z;
  new_customer_name : string;
  new_promised_amount : Q;
  new_promised_date : Z;
  new_follow_up_date : Z
}.

(** [SELECT outstanding_amount FROM invoices WHERE invoice_id = ?
     AND customer_id = ? AND outstanding_amount > 0], [fetchone]. *)
Definition open_invoice (d : DB) (inv cid : Z) : option Q :=
  option_map outstanding_amount
    (find (fun i => (invoice_id i =? inv) && (inv_customer_id i =? cid)
                    && Qlt_bool 0 (outstanding_amount i))
          (invoices d)).

Definition set_collection (st : string) (next_date : option Z) (i : Invoice) : Invoice :=
  mkInvoice (invoice_id i) (inv_customer_id i) (outstanding_amount i) (Some st) next_date.

Definition _create_follow_up_activity (pid cid : Z) (inv : option Z) (follow_up : Z)
    (d : DB) : DB :=
  insert_activity
    (mkActivity cid inv today "PROMISE_FOLLOW_UP" "SCHEDULED" "VERIFY_PROMISE"
                (Some follow_up) (follow_up_scheduled pid) true "NORMAL") d.

Definition create_payment_promise (cid : Z) (amount : Q) (date : DateInput)
    (inv : option Z) (contact method note creator : string) (d : DB)
  : (Error + Created) * DB :=
  if Qle_bool amount 0 then (inl amount_must_be_positive, d) else
  match date with
  | NoDate | Malformed => (inl invalid_date_format, d)
  | Parsed promise_day =>
    if promise_day <=? today then (inl date_must_be_in_future, d) else
    match find (fun c => customer_id c =? cid) (customers d) with
    | None => (inl customer_not_found, d)
    | Some customer =>
      let invoice_check :=
        if truthy_int inv
        then match inv with
             | Some i =>
               match open_invoice d i cid with
               | None => Some invoice_not_found_or_paid
               | Some outstanding =>
                 if Qlt_bool outstanding amount
                 then Some (exceeds_outstanding_balance outstanding)
                 else None
               end
             | None => None
             end
        else None in
      match invoice_check with
      | Some e => (inl e, d)
      | None =>
        let follow_up := promise_day - follow_up_lead_time in
        let pid := lastrowid (payment_promises d) in
        let row := mkPromise pid cid inv today amount promise_day ACTIVE None None
                             follow_up false false contact method note creator in
        let d1 := with_promises (fun l => l ++ [row]) d in
        let d2 := _create_follow_up_activity pid cid inv follow_up d1 in
        let d3 :=
          if truthy_int inv
          then match inv with
               | Some i => with_invoices
                   (update_where (fun x => invoice_id x =? i)
                                 (set_collection "PROMISE_RECEIVED" (Some follow_up))) d2
               | None => d2
               end
          else d2 in
        (inr (mkCreated pid (customer_name customer) amount promise_day follow_up), d3)
      end
    end
  end.

(** *** [update_promise_status] *)

Record Updated := mkUpdated {
  upd_promise_id : Z;
  old_status : PromiseStatus;
  new_status : PromiseStatus;
  upd_escalation_required : bool
}.

Definition is_terminal (s : PromiseStatus) : bool :=
  status_eqb s KEPT || status_eqb s BROKEN || status_eqb s CANCELLED.

(** [SELECT COUNT( * ) FROM payment_promises WHERE customer_id = ?
     AND status = 'BROKEN' AND promise_date >= date('now', '-90 days')]. *)
Definition broken_count (d : DB) (cid : Z) : Z :=
  Z.of_nat (List.length
    (filter (fun p => (pp_customer_id p =? cid) && status_eqb (pp_status p) BROKEN
                      && (today - 90 <=? promise_date p))
            (payment_promises d))).

Definition append_note (old new : string) : string :=
  if String.eqb old EmptyString then new
  else String.append old (String.append "; " new).

Definition set_status (st : PromiseStatus) (paid_on : option Z) (paid : Q)
    (escalate : bool) (note : string) (p : Promise) : Promise :=
  mkPromise (promise_id p) (pp_customer_id p) (pp_invoice_id p) (promise_date p)
            (promised_amount p) (promised_payment_date p) st paid_on (Some paid)
            (follow_up_date p) true escalate (contact_person p) (contact_method p)
            (append_note (notes p) note) (created_by p).

Definition _create_promise_activity (cid : Z) (inv : option Z)
    (st : PromiseStatus) (paid : Q) (escalate : bool) (d : DB) : DB :=
  let '(result, note) :=
    match st with
    | KEPT => ("PROMISE_KEPT"%string, promise_honored paid)
    | BROKEN => ("PROMISE_BROKEN"%string, promise_not_honored)
    | PARTIALLY_KEPT => ("PARTIAL_PAYMENT"%string, partial_payment_made paid)
    | _ => ("PROMISE_CANCELLED"%string, promise_cancelled)
    end in
  insert_activity
    (mkActivity cid inv today "PROMISE_UPDATE" result
                (if escalate then "ESCALATE" else "FOLLOW_UP") None note escalate
                (if escalate then "URGENT" else "NORMAL")) d.

(** [float(promised_amount)]: the promised amount of the row as a float. *)
Definition promised_float (p : Promise) : Q := b64 (promised_amount p).

(** [new_status == KEPT and abs(actual - promised) > promised * 0.01 and
    actual < promised * 0.9], on floats: the status that is written. *)
Definition downgraded (promised paid : Q) : bool :=
  Qlt_bool (fmul promised (b64 0.01)) (Qabs (fsub paid promised))
  && Qlt_bool paid (fmul promised (b64 0.9)).

(** [actual_payment_amount] is a Python float: the number written in the
    call is taken as the float nearest to it. *)
Definition update_promise_status (pid : Z) (requested : PromiseStatus)
    (actual_payment_amount : Q) (paid_on : DateInput) (note : string) (d : DB)
  : (Error + Updated) * DB :=
  let paid := b64 actual_payment_amount in
  match find (fun p => promise_id p =? pid) (payment_promises d) with
  | None => (inl promise_not_found, d)
  | Some p =>
    let promised := promised_float p in
    match paid_on with
    | Malformed => (inl invalid_payment_date_format, d)
    | _ =>
      let payment_day := match paid_on with Parsed x => Some x | _ => None end in
      if is_terminal (pp_status p) then (inl (cannot_update_status (pp_status p)), d) else
      if (status_eqb requested KEPT || status_eqb requested PARTIALLY_KEPT)
         && Qle_bool paid 0
      then (inl actual_amount_required, d) else
      let st :=
        if status_eqb requested KEPT && downgraded promised paid
        then PARTIALLY_KEPT else requested in
      let escalate :=
        status_eqb st BROKEN
        && (escalation_threshold - 1 <=? broken_count d (pp_customer_id p)) in
      let d1 := with_promises
                  (update_where (fun x => promise_id x =? pid)
                                (set_status st payment_day paid escalate note)) d in
      let d2 :=
        if truthy_int (pp_invoice_id p)
        then match pp_invoice_id p with
             | Some i =>
               match st with
               | KEPT => with_invoices (update_where (fun x => invoice_id x =? i)
                           (set_collection "PAYMENT_RECEIVED" (Some (today + 30)))) d1
               | BROKEN => with_invoices (update_where (fun x => invoice_id x =? i)
                           (set_collection "BROKEN_PROMISE" (Some (today + 1)))) d1
               | PARTIALLY_KEPT => with_invoices (update_where (fun x => invoice_id x =? i)
                           (set_collection "PARTIAL_PAYMENT" (Some (today + 7)))) d1
               | _ => d1
               end
             | None => d1
             end
        else d1 in
      let d3 := _create_promise_activity (pp_customer_id p) (pp_invoice_id p)
                                         st paid escalate d2 in
      (inr (mkUpdated pid (pp_status p) st escalate), d3)
    end
  end.

(** *** [process_overdue_promises] *)

(** The rows of
    [SELECT ... FROM payment_applications pa
     JOIN payments p ON pa.payment_id = p.payment_id
     WHERE pa.invoice_id = ? AND p.payment_date >= ?
       AND p.payment_date <= date(?, '+5 days')]. *)
Definition applications_in_window (d : DB) (inv promised_day : Z) : list Q :=
  flat_map (fun pa =>
    flat_map (fun p =>
      if (pa_payment_id pa =? payment_id p) && (pa_invoice_id pa =? inv)
         && (promised_day <=? payment_date p) && (payment_date p <=? promised_day + 5)
      then [applied_amount pa] else [])
      (payments d))
    (payment_applications d).

(** [SUM] of a column of floats: NULL on the empty set of rows, otherwise
    the amounts added one after the other as floats. *)
Definition float_sum (l : list Q) : option Q :=
  match l with
  | [] => None
  | _ => Some (fold_left (fun acc x => b64 (acc + b64 x)) l 0%Q)
  end.

(** [SELECT SUM(pa.applied_amount) ...] over these rows. *)
Definition applied_in_window (d : DB) (inv promised_day : Z) : option Q :=
  float_sum (applications_in_window d inv promised_day).

(** [SELECT ... FROM payment_promises WHERE status = 'ACTIVE'
     AND promised_payment_date < ?] with [grace_date]. *)
Definition is_overdue (p : Promise) : bool :=
  status_eqb (pp_status p) ACTIVE
  && (promised_payment_date p <? today - grace_period_days).

Definition overdue_promises (d : DB) : list Promise :=
  filter is_overdue (payment_promises d).

Record Summary := mkSummary {
  total_overdue : Z;
  processed_count : Z;
  escalated_count : Z;
  results : list (Z * Z * PromiseStatus * bool)
}.

(** The amount found for the promise and whether it counts as a payment
    received ([actual_amount], [payment_received]). *)
Definition payment_found (d : DB) (p : Promise) : Q * bool :=
  if truthy_int (pp_invoice_id p)
  then match pp_invoice_id p with
       | Some inv =>
         match applied_in_window d inv (promised_payment_date p) with
         | Some total =>
           if negb (Qeq_bool total 0)
           then (total, Qle_bool (fmul (promised_float p) (b64 0.9)) total)
           else (0%Q, false)
         | None => (0%Q, false)
         end
       | None => (0%Q, false)
       end
  else (0%Q, false).

(** The body of the loop, on one row of the query. *)
Definition process_promise (acc : Summary) (p : Promise) (d : DB) : Summary * DB :=
  let '(actual, received) := payment_found d p in
  let '(result, d', escalated) :=
    if received
    then
      let st := if Qle_bool (fmul (promised_float p) (b64 0.99)) actual
                then KEPT else PARTIALLY_KEPT in
      let '(r, d') := update_promise_status (promise_id p) st actual
                        (Parsed (promised_payment_date p)) "" d in
      (r, d', escalated_count acc)
    else
      let '(r, d') := update_promise_status (promise_id p) BROKEN 0 NoDate "" d in
      (r, d',
       match r with
       | inr u => if upd_escalation_required u
                  then escalated_count acc + 1 else escalated_count acc
       | inl _ => escalated_count acc
       end) in
  match result with
  | inr u =>
    (mkSummary (total_overdue acc) (processed_count acc + 1) escalated
       (results acc ++ [(promise_id p, pp_customer_id p, new_status u,
                         upd_escalation_required u)]), d')
  | inl _ => (mkSummary (total_overdue acc) (processed_count acc) escalated (results acc), d')
  end.

Fixpoint process_promises (rows : list Promise) (acc : Summary) (d : DB) : Summary * DB :=
  match rows with
  | [] => (acc, d)
  | p :: rows' => let '(acc', d') := process_promise acc p d in
                  process_promises rows' acc' d'
  end.

Definition process_overdue_promises (d : DB) : Summary * DB :=
  let rows := overdue_promises d in
  process_promises rows (mkSummary (Z.of_nat (List.length rows)) 0 0 []) d.

End Tracker.

(** *** Sequences of tracker operations *)

Inductive Operation :=
| Create (cid : Z) (amount : Q) (date : DateInput) (inv : option Z)
         (contact method note creator : string)
| UpdateStatus (pid : Z) (requested : PromiseStatus) (paid : Q)
               (paid_on : DateInput) (note : string)
| Reconcile.

(** One call, made on the calendar date [today]. *)
Definition run_operation (lastrowid : list Promise -> Z) (today : Z)
    (op : Operation) (d : DB) : DB :=
  match op with
  | Create cid amount date inv contact method note creator =>
      snd (create_payment_promise lastrowid today cid amount date inv
                                  contact method note creator d)
  | UpdateStatus pid requested paid paid_on note =>
      snd (update_promise_status today pid requested paid paid_on note d)
  | Reconcile => snd (process_overdue_promises today d)
  end.

Fixpoint run_operations (lastrowid : list Promise -> Z)
    (ops : list (Z * Operation)) (d : DB) : DB :=
  match ops with
  | [] => d
  | (today, op) :: ops' =>
      run_operations lastrowid ops' (run_operation lastrowid today op d)
  end.

(** SQLite's allocation of a row id in a table from which no row was
    deleted: one more than the greatest id. *)
Definition next_rowid (l : list Promise) : Z :=
  1 + fold_right Z.max 0 (map promise_id l).

(** *** What one status update does *)

Definition unique_promise_ids (d : DB) : Prop :=
  NoDup (map promise_id (payment_promises d)).

(** The status written by [update_promise_status] for a requested status
    and a paid amount that is a float. *)
Definition resolved_status (p : Promise) (requested : PromiseStatus) (paid : Q)
  : PromiseStatus :=
  if status_eqb requested KEPT && downgraded (promised_float p) paid
  then PARTIALLY_KEPT else requested.

Definition payment_day (paid_on : DateInput) : option Z :=
  match paid_on with Parsed x => Some x | _ => None end.

(** The tables that [update_promise_status] and [process_overdue_promises]
    only read. *)
Definition same_ledger (d d' : DB) : Prop :=
  customers d' = customers d
  /\ payments d' = payments d
  /\ payment_applications d' = payment_applications d.

(** *** The reconciliation loop *)

(** The request that the loop body sends to [update_promise_status]. *)
Definition request_of (d : DB) (p : Promise) : PromiseStatus * Q * DateInput :=
  let '(actual, received) := payment_found d p in
  if received
  then (if Qle_bool (fmul (promised_float p) (b64 0.99)) actual
        then KEPT else PARTIALLY_KEPT,
        actual, Parsed (promised_payment_date p))
  else (BROKEN, 0%Q, NoDate).

Definition reported_ids (acc : Summary) : list Z :=
  map (fun r => fst (fst (fst r))) (results acc).

(** The total applied to the linked invoice in the window; 0 when there is
    no linked invoice or no payment. *)
Definition applied_total (d : DB) (p : Promise) : Q :=
  match pp_invoice_id p with
  | Some inv =>
    if inv =? 0 then 0%Q
    else match applied_in_window d inv (promised_payment_date p) with
         | Some total => total
         | None => 0%Q
         end
  | None => 0%Q
  end.

(** A payment application with its payment counts for a promise when it is
    applied to the invoice of the promise and the payment is dated from the
    promised day to five days after it. *)
Definition in_window (p : Promise) (x : PaymentApplication * Payment) : bool :=
  (pa_payment_id (fst x) =? payment_id (snd x))
  && option_Z_eqb (pp_invoice_id p) (Some (pa_invoice_id (fst x)))
  && (promised_payment_date p <=? payment_date (snd x))
  && (payment_date (snd x) <=? promised_payment_date p + 5).

(** The amounts that count for a promise, in the order of the tables. *)
Definition window_amounts (d : DB) (p : Promise) : list Q :=
  map (fun x => applied_amount (fst x))
      (filter (in_window p) (list_prod (payment_applications d) (payments d))).

(** Floats added one after the other, from 0. *)
Definition float_total (l : list Q) : Q :=
  fold_left (fun acc x => b64 (acc + b64 x)) l 0%Q.

(** The bands of the reconciliation rule, on floats: a total that is not
    zero and at least [promised * 0.9] counts as a payment received, and
    then as KEPT when it is at least [promised * 0.99]. *)
Definition reconciled_status (promised applied : Q) : PromiseStatus :=
  if negb (Qeq_bool applied 0) && Qle_bool (fmul promised (b64 0.9)) applied
  then if Qle_bool (fmul promised (b64 0.99)) applied then KEPT else PARTIALLY_KEPT
  else BROKEN.

(** *** What a creation does *)

Definition invoice_accepts (d : DB) (cid : Z) (amount : Q) (inv : option Z) : Prop :=
  truthy_int inv = false
  \/ exists i outstanding,
       inv = Some i /\ i <> 0 /\ open_invoice d i cid = Some outstanding
       /\ (amount <= outstanding)%Q.

Definition rejection_reason (today : Z) (d : DB) (cid : Z) (amount : Q)
    (date : DateInput) (inv : option Z) (e : Error) : Prop :=
  match e with
  | amount_must_be_positive => (amount <= 0)%Q
  | invalid_date_format => date = NoDate \/ date = Malformed
  | date_must_be_in_future => exists day, date = Parsed day /\ day <= today
  | customer_not_found => find (fun c => customer_id c =? cid) (customers d) = None
  | invoice_not_found_or_paid =>
      exists i, inv = Some i /\ i <> 0 /\ open_invoice d i cid = None
  | exceeds_outstanding_balance outstanding =>
      exists i, inv = Some i /\ i <> 0 /\ open_invoice d i cid = Some outstanding
                /\ (outstanding < amount)%Q
  | _ => False
  end.

(** *** Concrete scenario: a promise of $1,000 and $950 applied in the window *)

Definition acme : Customer := mkCustomer 7 "Acme".

Definition invoice_100 : Invoice := mkInvoice 100 7 5000%Q None None.

(** Day numbers: the promise was made on day 19000 for day 19010; a payment
    of day 19012 is applied to invoice 100 for 950. *)
Definition promise_1 : Promise :=
  mkPromise 1 7 (Some 100) 19000 1000%Q 19010 ACTIVE None None 19009 false false
            "J. Doe" "PHONE" "" "Collection Agent".

Definition scenario3 : DB :=
  mkDB [acme] [invoice_100] [promise_1] [mkPayment 50 19012]
       [mkApplication 50 100 950%Q] [].

Definition scenario3_reconciled : DB :=
  Eval vm_compute in snd (process_overdue_promises 19013 scenario3).

(** *** Concrete input: a promise of $501.00 and $450.90 applied in the window *)

Definition promise_501 : Promise :=
  mkPromise 1 7 (Some 100) 19000 501%Q 19010 ACTIVE None None 19009 false false
            "J. Doe" "PHONE" "" "Collection Agent".

Definition ninety_percent_paid : DB :=
  mkDB [acme] [invoice_100] [promise_501] [mkPayment 50 19012]
       [mkApplication 50 100 450.9%Q] [].

(** *** Further inputs for the claims about the promise tracker *)

Definition kept_promise : Promise :=
  mkPromise 1 7 (Some 100) 19000 1000%Q 19010 KEPT (Some 19010) (Some 1000%Q) 19009
            true false "J. Doe" "PHONE" "" "Collection Agent".

Definition kept_world : DB := mkDB [acme] [invoice_100] [kept_promise] [] [] [].

Definition empty_ledger : DB := mkDB [acme] [invoice_100] [] [] [] [].

End Promises.

(** ** The priority scorer ([ar_prioritization.py]) *)

Module Scoring.

(** Row of [customers] (columns read by the scorer). *)
Record Customer := mkCustomer {
  customer_id : Z;
  customer_name : string;
  customer_type : string;
  credit_limit : Q;
  payment_terms_days : Z;
  avg_days_to_pay : Q;
  payment_reliability_score : Q;
  total_sales_lifetime : Q;
  customer_since : option Z;
  is_credit_hold : bool
}.

(** Row of [invoices] (columns read by the scorer). *)
Record Invoice := mkInvoice {
  invoice_id : Z;
  inv_customer_id : Z;
  outstanding_amount : Q;
  days_past_due : Z
}.

(** Row of [payment_promises] and of [collection_activities] (columns read
    by the scorer). *)
Record Promise := mkPromise {
  pp_customer_id : Z;
  pp_status : string;
  promise_date : Z
}.

Record Activity := mkActivity {
  act_customer_id : Z;
  activity_result : string;
  activity_date : Z
}.

Record DB := mkDB {
  customers : list Customer;
  invoices : list Invoice;
  payment_promises : list Promise;
  collection_activities : list Activity
}.

(** [self.scoring_weights]. *)
Definition amount_weight : Q := 0.25.

Definition aging_weight : Q := 0.30.

Definition customer_history_weight : Q := 0.20.

Definition relationship_weight : Q := 0.15.

Definition collection_effort_weight : Q := 0.10.

(** [self.risk_thresholds] and [self.value_tiers]. *)
Definition high_risk_score : Q := 75.

Definition medium_risk_score : Q := 50.

Definition tier_1_min : Q := 100000.

Definition tier_2_min : Q := 25000.

Definition tier_3_min : Q := 5000.

Definition Qlt_bool (a b : Q) : bool := negb (Qle_bool b a).

Definition sum_Q (l : list Q) : Q := fold_left Qplus l 0%Q.

(** [round(x, 2)]: to the nearest hundredth, ties to the even one. *)
Definition round2 (x : Q) : Q :=
  let scaled := (x * 100)%Q in
  let n := Qfloor scaled in
  let frac := (scaled - inject_Z n)%Q in
  let m := if Qlt_bool frac 0.5 then n
           else if Qlt_bool 0.5 frac then n + 1
           else if Z.even n then n else n + 1 in
  (inject_Z m / 100)%Q.

Section Scorer.

(** The calendar date of the call ([datetime.now().date()], [date('now')]). *)
Variable today : Z.

Definition _get_customer_info (d : DB) (cid : Z) : option Customer :=
  find (fun c => customer_id c =? cid) (customers d).

(** [SELECT ... FROM invoices WHERE customer_id = ? AND outstanding_amount > 0];
    of the result only sums, the maximum and the length are used, so the
    [ORDER BY] is left out. *)
Definition _get_outstanding_invoices (d : DB) (cid : Z) : list Invoice :=
  filter (fun i => (inv_customer_id i =? cid) && Qlt_bool 0 (outstanding_amount i))
         (invoices d).

Definition _calculate_amount_score (l : list Invoice) : Q :=
  match l with
  | [] => 0
  | _ =>
    let total := sum_Q (map outstanding_amount l) in
    if Qle_bool total 1000 then 10
    else if Qle_bool total 5000 then 25
    else if Qle_bool total 25000 then 50
    else if Qle_bool total 100000 then 75
    else 90
  end%Q.

Definition days_score (i : Invoice) : Q :=
  Qmin 100 (inject_Z (days_past_due i) * 0.8).

Definition _calculate_aging_score (l : list Invoice) : Q :=
  match l with
  | [] => 0%Q
  | _ =>
    let '(weighted_aging, total_weight) :=
      fold_left (fun acc i =>
                   (fst acc + days_score i * outstanding_amount i,
                    snd acc + outstanding_amount i)%Q)
                l (0%Q, 0%Q) in
    if Qlt_bool 0 total_weight then (weighted_aging / total_weight)%Q else 0%Q
  end.

Definition _calculate_payment_history_score (d : DB) (cid : Z) : Q :=
  match find (fun c => customer_id c =? cid) (customers d) with
  | None => 50%Q
  | Some c =>
    let terms := inject_Z (payment_terms_days c) in
    let avg := avg_days_to_pay c in
    let h0 := payment_reliability_score c in
    let h1 :=
      if Qle_bool avg terms then Qmin 100 (h0 + 10)
      else if Qle_bool avg (terms + 10) then Qmax 0 (h0 - 5)
      else Qmax 0 (h0 - Qmin 50 ((avg - terms) * 2)) in
    let recent := filter (fun p => (pp_customer_id p =? cid)
                                    && (today - 90 <=? promise_date p))
                         (payment_promises d) in
    let total := Z.of_nat (List.length recent) in
    let kept := Z.of_nat (List.length
                  (filter (fun p => String.eqb (pp_status p) "KEPT") recent)) in
    if 0 <? total
    then
      let rate := (inject_Z kept / inject_Z total)%Q in
      if Qlt_bool rate 0.5 then Qmax 0 (h1 - 20)
      else if Qlt_bool 0.8 rate then Qmin 100 (h1 + 5)
      else h1
    else h1
  end%Q.

Definition _calculate_relationship_score (d : DB) (cid : Z) (c : Customer) : Q :=
  let s0 := 50%Q in
  let s1 :=
    if String.eqb (customer_type c) "VIP" then (s0 - 20)%Q
    else if String.eqb (customer_type c) "HIGH_RISK" then (s0 + 30)%Q
    else if String.eqb (customer_type c) "NEW" then (s0 + 10)%Q
    else s0 in
  let s2 :=
    if Qle_bool tier_1_min (total_sales_lifetime c) then (s1 - 15)%Q
    else if Qle_bool tier_2_min (total_sales_lifetime c) then (s1 - 5)%Q
    else if Qlt_bool (total_sales_lifetime c) tier_3_min then (s1 + 10)%Q
    else s1 in
  let s3 :=
    if Qlt_bool 0 (credit_limit c)
    then
      match sql_sum (map outstanding_amount (_get_outstanding_invoices d cid)) with
      | Some total =>
        if negb (Qeq_bool total 0)
        then
          let utilization := (total / credit_limit c)%Q in
          if Qlt_bool 1 utilization then (s2 + 25)%Q
          else if Qlt_bool 0.8 utilization then (s2 + 15)%Q
          else if Qlt_bool 0.5 utilization then (s2 + 5)%Q
          else s2
        else s2
      | None => s2
      end
    else s2 in
  let s4 :=
    match customer_since c with
    | Some since =>
      let years := (inject_Z (today - since) / 365.25)%Q in
      if Qlt_bool 5 years then (s3 - 10)%Q
      else if Qlt_bool years 1 then (s3 + 5)%Q
      else s3
    | None => s3
    end in
  Qmax 0 (Qmin 100 s4).

Definition count_result (result : string) (l : list Activity) : Z :=
  Z.of_nat (List.length (filter (fun a => String.eqb (activity_result a) result) l)).

Definition _calculate_collection_effort_score (d : DB) (cid : Z) : Q :=
  let recent := filter (fun a => (act_customer_id a =? cid)
                                  && (today - 60 <=? activity_date a))
                       (collection_activities d) in
  match recent with
  | [] => 50%Q
  | first :: rest =>
    let total := Z.of_nat (List.length recent) in
    let no_answer_rate := (inject_Z (count_result "NO_ANSWER" recent) / inject_Z total)%Q in
    let e0 := 50%Q in
    let e1 := if Qlt_bool 0.7 no_answer_rate then (e0 + 20)%Q
              else if Qlt_bool no_answer_rate 0.3 then (e0 - 5)%Q
              else e0 in
    let e2 := if 0 <? count_result "PROMISE_MADE" recent then (e1 + 10)%Q else e1 in
    let e3 := if 0 <? count_result "DISPUTE_RAISED" recent then (e2 + 15)%Q else e2 in
    let last_activity := fold_left Z.max (map activity_date rest) (activity_date first) in
    let days_since_contact := today - last_activity in
    let e4 := if 14 <? days_since_contact then (e3 + 10)%Q
              else if days_since_contact <? 3 then (e3 - 5)%Q
              else e3 in
    Qmax 0 (Qmin 100 e4)
  end.

Inductive RiskLevel := LOW | MEDIUM | HIGH.

Definition _determine_risk_level (score : Q) : RiskLevel :=
  if Qle_bool high_risk_score score then HIGH
  else if Qle_bool medium_risk_score score then MEDIUM
  else LOW.

Definition _determine_next_action (score : Q) (oldest_days : Z) : string :=
  if Qlt_bool 80 score || (120 <? oldest_days) then "ESCALATE_TO_LEGAL"
  else if Qlt_bool 70 score || (90 <? oldest_days) then "MANAGER_INTERVENTION"
  else if Qlt_bool 60 score || (60 <? oldest_days) then "IMMEDIATE_PHONE_CALL"
  else if Qlt_bool 40 score || (30 <? oldest_days) then "SEND_FORMAL_NOTICE"
  else "STANDARD_FOLLOW_UP".

Record ComponentScores := mkComponents {
  amount_score : Q;
  aging_score : Q;
  history_score : Q;
  relationship_score : Q;
  effort_score : Q
}.

(** The weighted sum of [calculate_customer_priority_score]. *)
Definition weighted_sum (c : ComponentScores) : Q :=
  (amount_score c * amount_weight
   + aging_score c * aging_weight
   + history_score c * customer_history_weight
   + relationship_score c * relationship_weight
   + effort_score c * collection_effort_weight)%Q.

(** The dictionary returned for a customer with outstanding invoices (the
    texts of the recommendations are left out). *)
Record Score := mkScore {
  priority_score : Q;
  risk_level : RiskLevel;
  total_outstanding : Q;
  invoice_count : Z;
  oldest_invoice_days : Z;
  component_scores : ComponentScores;
  next_action : string
}.

Inductive ScoreResult :=
| customer_not_found
| no_outstanding_balance
| scored (s : Score).

Definition component_scores_of (d : DB) (cid : Z) (c : Customer) (l : list Invoice)
  : ComponentScores :=
  mkComponents (_calculate_amount_score l) (_calculate_aging_score l)
               (_calculate_payment_history_score d cid)
               (_calculate_relationship_score d cid c)
               (_calculate_collection_effort_score d cid).

Definition calculate_customer_priority_score (d : DB) (cid : Z) : ScoreResult :=
  match _get_customer_info d cid with
  | None => customer_not_found
  | Some c =>
    match _get_outstanding_invoices d cid with
    | [] => no_outstanding_balance
    | first :: rest =>
      let l := first :: rest in
      let comps := component_scores_of d cid c l in
      let final_score := weighted_sum comps in
      let oldest := fold_left Z.max (map days_past_due rest) (days_past_due first) in
      scored (mkScore (round2 final_score)
                      (_determine_risk_level final_score)
                      (sum_Q (map outstanding_amount l))
                      (Z.of_nat (List.length l))
                      oldest
                      (mkComponents (round2 (amount_score comps))
                                    (round2 (aging_score comps))
                                    (round2 (history_score comps))
                                    (round2 (relationship_score comps))
                                    (round2 (effort_score comps)))
                      (_determine_next_action final_score oldest))
    end
  end.

End Scorer.

(** *** Concrete input: one invoice that falls due in 120 days *)

(** [AgingAnalyzer.calculate_invoice_aging] stores
    [days_past_due = as_of_date - due_date] for every OPEN or PARTIAL invoice,
    which is negative before the due date. *)
Definition not_yet_due : Invoice := mkInvoice 1 7 500%Q (-120).

Definition late_payer : Customer :=
  mkCustomer 7 "Acme" "REGULAR" 10000%Q 30 45%Q 50%Q 200000%Q None false.

Definition early_invoice : DB := mkDB [late_payer] [not_yet_due] [] [].

End Scoring.

(** ** Further code of the three modules *)

(** [ORDER BY] with a comparison ([le a b]: [a] is not after [b]); rows that
    compare equal keep their table order. *)
Fixpoint insert_sorted {A : Type} (le : A -> A -> bool) (x : A) (l : list A) : list A :=
  match l with
  | [] => [x]
  | y :: l' => if le x y then x :: y :: l' else y :: insert_sorted le x l'
  end.

Fixpoint sort_by {A : Type} (le : A -> A -> bool) (l : list A) : list A :=
  match l with
  | [] => []
  | x :: l' => insert_sorted le x (sort_by le l')
  end.

(** ** Definitions and reports of the workflow engine ([ar_workflow_engine.py]) *)

(** ** Workflow definitions and the status report ([ar_workflow_engine.py]) *)

Module Workflows.

Import Engine.

(** [class ActionType(Enum)] and the [.value] of its members. *)
Inductive ActionType :=
| EMAIL_REMINDER
| PHONE_CALL
| DUNNING_LETTER
| LEGAL_REFERRAL
| CREDIT_HOLD
| ESCALATION
| PAYMENT_PLAN.

Definition value (a : ActionType) : string :=
  match a with
  | EMAIL_REMINDER => "EMAIL_REMINDER"
  | PHONE_CALL => "PHONE_CALL"
  | DUNNING_LETTER => "DUNNING_LETTER"
  | LEGAL_REFERRAL => "LEGAL_REFERRAL"
  | CREDIT_HOLD => "CREDIT_HOLD"
  | ESCALATION => "ESCALATION"
  | PAYMENT_PLAN => "PAYMENT_PLAN"
  end.

(** [@dataclass WorkflowTrigger] and [@dataclass WorkflowAction]. *)
Record WorkflowTrigger := mkTrigger {
  trg_days_past_due : Z;
  trg_amount_threshold : Q;
  trg_customer_type : option string;
  trg_aging_bucket : option string;
  trg_priority_score_min : option Z
}.

Record WorkflowAction := mkAction {
  wa_action_type : ActionType;
  wa_template_id : option string;
  wa_assigned_to : option string;
  wa_delay_days : Z;
  wa_escalation_days : option Z
}.

(** [actions[0]] on an empty list. *)
Inductive IndexError := list_index_out_of_range.

Section Schema.

(** [collection_workflows] is created by a schema script that is not part of
    the sources.  The id that SQLite gives to an inserted definition
    ([cursor.lastrowid]) and the value that the schema gives to the column
    [execution_order], which the [INSERT] leaves out, are parameters; so is
    the id given to an inserted step ([step_id INTEGER PRIMARY KEY
    AUTOINCREMENT] depends on the ids used so far, also by deleted rows). *)
Variable workflow_rowid : list Workflow -> Z.

Variable default_execution_order : Z.

Variable step_rowid : list Step -> Z.

(** The row of [workflow_steps] for [enumerate(actions)] at index [idx]:
    [step_order] is [idx + 1] and [is_active] takes its default, TRUE. *)
Definition step_of (wid : Z) (sid : Z) (idx : nat) (a : WorkflowAction) : Step :=
  mkStep sid wid (Z.of_nat idx + 1) (value (wa_action_type a)) (wa_template_id a)
         (wa_assigned_to a) (Some (wa_delay_days a)) (wa_escalation_days a) true.

(** [for idx, action in enumerate(actions): INSERT INTO workflow_steps ...]. *)
Fixpoint insert_steps (wid : Z) (idx : nat) (actions : list WorkflowAction)
    (steps : list Step) : list Step :=
  match actions with
  | [] => steps
  | a :: rest =>
      insert_steps wid (S idx) rest (steps ++ [step_of wid (step_rowid steps) idx a])
  end.

Definition with_definition (row : Workflow) (steps : list Step) (d : DB) : DB :=
  mkDB (collection_workflows d ++ [row]) steps (workflow_instances d)
       (invoices d) (customers d) (workflow_execution_log d)
       (collection_activities d) (credit_history d).

(** [create_workflow_definition]: the parameters of the first [INSERT] hold
    [actions[0]], which raises before anything is written when [actions] is
    empty. *)
Definition create_workflow_definition (name : string) (trigger : WorkflowTrigger)
    (actions : list WorkflowAction) (d : DB) : (IndexError + Z) * DB :=
  match actions with
  | [] => (inl list_index_out_of_range, d)
  | _ :: _ =>
    let wid := workflow_rowid (collection_workflows d) in
    let row := mkWorkflow wid name (trg_days_past_due trigger)
                          (trg_amount_threshold trigger) (trg_customer_type trigger)
                          true default_execution_order in
    (inr wid, with_definition row (insert_steps wid 0 actions (workflow_steps d)) d)
  end.

(** [setup_default_workflows]: four calls whose results are dropped. *)
Definition early_actions : list WorkflowAction :=
  [ mkAction EMAIL_REMINDER (Some "friendly_reminder"%string) None 0 None;
    mkAction PHONE_CALL None (Some "Collection Team"%string) 7 None;
    mkAction EMAIL_REMINDER (Some "second_notice"%string) None 14 None ].

Definition standard_actions : list WorkflowAction :=
  [ mkAction PHONE_CALL None (Some "Senior Collector"%string) 0 None;
    mkAction DUNNING_LETTER None None 7 None;
    mkAction PHONE_CALL None (Some "Collection Supervisor"%string) 14 None ].

Definition intensive_actions : list WorkflowAction :=
  [ mkAction PHONE_CALL None (Some "Collection Supervisor"%string) 0 None;
    mkAction CREDIT_HOLD None None 3 None;
    mkAction ESCALATION None (Some "Collection Manager"%string) 7 None;
    mkAction DUNNING_LETTER (Some "final_notice"%string) None 14 None ].

Definition legal_actions : list WorkflowAction :=
  [ mkAction ESCALATION None (Some "Collection Manager"%string) 0 None;
    mkAction LEGAL_REFERRAL None None 7 None ].

Definition setup_default_workflows (d : DB) : DB :=
  let d1 := snd (create_workflow_definition "Early Reminder Workflow"
                   (mkTrigger 1 100 None None None) early_actions d) in
  let d2 := snd (create_workflow_definition "Standard Collection Workflow"
                   (mkTrigger 31 500 None None None) standard_actions d1) in
  let d3 := snd (create_workflow_definition "Intensive Collection Workflow"
                   (mkTrigger 61 1000 None None None) intensive_actions d2) in
  snd (create_workflow_definition "Legal Referral Workflow"
         (mkTrigger 90 2000 None None None) legal_actions d3).

End Schema.

(** *** [get_workflow_status()], the call without an instance id *)

Definition all_statuses : list WorkflowStatus :=
  [ACTIVE; CANCELLED; COMPLETED; FAILED; PENDING].

Definition count_status (s : WorkflowStatus) (l : list Instance) : Z :=
  Z.of_nat (List.length (filter (fun i => status_eqb (status i) s) l)).

(** [dict(SELECT status, COUNT( * ) FROM workflow_instances GROUP BY status)]:
    one entry for each status that some row has. *)
Definition status_summary (d : DB) : list (WorkflowStatus * Z) :=
  flat_map (fun s => let n := count_status s (workflow_instances d) in
                     if 0 <? n then [(s, n)] else [])
           all_statuses.

(** A row of [upcoming_executions]: [instance_id, workflow_id, customer_id,
    status, scheduled_date]. *)
Definition upcoming_row (i : Instance) : InstanceId * Z * Z * WorkflowStatus * Z :=
  (instance_id i, wi_workflow_id i, wi_customer_id i, status i, scheduled_date i).

(** [SELECT ... FROM workflow_instances WHERE status IN ('PENDING', 'ACTIVE')
     ORDER BY scheduled_date LIMIT 10]. *)
Definition upcoming (d : DB) : list Instance :=
  firstn 10 (order_by scheduled_date (filter in_active_workflow (workflow_instances d))).

Record StatusReport := mkReport {
  report_status_summary : list (WorkflowStatus * Z);
  active_workflow_definitions : Z;
  upcoming_executions : list (InstanceId * Z * Z * WorkflowStatus * Z)
}.

Definition get_workflow_status (d : DB) : StatusReport :=
  mkReport (status_summary d)
           (Z.of_nat (List.length (filter is_active (collection_workflows d))))
           (map upcoming_row (upcoming d)).

(** Lookup in a dictionary keyed by status. *)
Definition summary_get (s : WorkflowStatus) (l : list (WorkflowStatus * Z)) : option Z :=
  option_map snd (find (fun e => status_eqb (fst e) s) l).

(** *** Notions used in the statements *)

(** The trigger of [a] accepts every invoice that the trigger of [b] accepts. *)
Definition weaker_trigger (a b : Workflow) : Prop :=
  days_past_due_trigger a <= days_past_due_trigger b
  /\ (amount_threshold a <= amount_threshold b)%Q
  /\ truthy_string (customer_type_filter a) = false.

(** What a computation leaves related: [R] holds between the database
    before and after, whatever the outcome. *)
Definition keeps {A} (R : DB -> DB -> Prop) (m : M A) : Prop :=
  forall w o w', m w = (o, w') -> R (db w) (db w').

(** A customer row and what a credit hold may have made of it. *)
Definition held_or_same (c c' : Customer) : Prop :=
  c' = c \/ exists stamp, c' = hold stamp c.

Definition customers_held (d d' : DB) : Prop :=
  Forall2 held_or_same (customers d) (customers d').

(** An instance row and what the execution of at most one step, or one
    failure, may have made of it. *)
Definition executed_at_most_once (i i' : Instance) : Prop :=
  i' = i
  \/ (status i = PENDING /\ status i' <> PENDING
      /\ instance_id i' = instance_id i
      /\ (current_step i' = current_step i \/ current_step i' = current_step i + 1)).

(** The entries of a run's report that stand for an executed step. *)
Definition step_executed (r : InstanceId * (ExecResult + Exn)) : bool :=
  match snd r with
  | inl (success _ _ _) => true
  | _ => false
  end.

Definition is_success (r : InstanceId * (ExecResult + Exn)) : bool :=
  match snd r with
  | inl _ => true
  | inr _ => false
  end.

(** The actions that record a collection activity. *)
Definition records_activity (a : ActionType) : bool :=
  match a with
  | EMAIL_REMINDER | PHONE_CALL | DUNNING_LETTER | LEGAL_REFERRAL | ESCALATION => true
  | CREDIT_HOLD | PAYMENT_PLAN => false
  end.

(** *** Concrete inputs *)

(** SQLite's allocation of a row id in a table from which no row was
    deleted: one more than the greatest id. *)
Definition next_workflow_id (l : list Workflow) : Z :=
  1 + fold_right Z.max 0 (map workflow_id l).

Definition next_step_id (l : list Step) : Z :=
  1 + fold_right Z.max 0 (map step_id l).

(** A 95-day, $5,000 invoice, which satisfies the trigger of each of the four
    default definitions. *)
Definition old_invoice : Invoice := mkInvoice 300 7 5000%Q 95 "OPEN".

Definition no_definitions : DB := mkDB [] [] [] [old_invoice] [acme] [] [] [].

Definition defaults_world : World :=
  mkWorld (setup_default_workflows next_workflow_id 1 next_step_id no_definitions) 0.

Definition defaults_scanned : World :=
  Eval vm_compute in snd (trigger_workflows example_clock defaults_world).

(** A PENDING instance that has executed both steps of its definition. *)
Definition exhausted_instance : Instance :=
  mkInstance (mkId 1 7 1699999000) 1 7 (Some 100) PENDING 2 1699999000000000
             1699999000000000 None None None 0.

Definition exhausted : World :=
  mkWorld (mkDB [standard_collection] standard_steps [exhausted_instance]
                [invoice_100] [acme] [] [] []) 0.

(** A definition whose first step puts the customer on credit hold. *)
Definition credit_hold_steps : list Step :=
  [ mkStep 50 1 1 "CREDIT_HOLD" None None (Some 0) None true ].

Definition credit_hold_world : World :=
  mkWorld (mkDB [standard_collection] credit_hold_steps [] [invoice_100] [acme]
                [] [] []) 0.

(** A customer who is on hold already, stamped earlier. *)
Definition acme_on_hold : Customer := hold 1690000000000000 acme.

Definition held_already_world : World :=
  mkWorld (mkDB [standard_collection] credit_hold_steps [] [invoice_100] [acme_on_hold]
                [] [] []) 0.

(** A definition whose only step is a payment plan. *)
Definition payment_plan_steps : list Step :=
  [ mkStep 40 1 1 "PAYMENT_PLAN" None None (Some 0) None true ].

Definition payment_plan_world : World :=
  mkWorld (mkDB [standard_collection] payment_plan_steps [orphan_instance]
                [] [acme] [] [] []) 0.

End Workflows.

(** ** The queries of the promise tracker ([ar_promise_tracker.py]) *)

Module PromiseReports.

Import Promises.

(** [class FollowUpPriority(Enum)]. *)
Inductive FollowUpPriority := LOW | NORMAL | HIGH | URGENT.

(** The order of urgency of the priorities. *)
Definition priority_rank (p : FollowUpPriority) : Z :=
  match p with
  | LOW => 0
  | NORMAL => 1
  | HIGH => 2
  | URGENT => 3
  end.

Definition sum_Q (l : list Q) : Q := fold_left Qplus l 0%Q.

Section Reports.

(** The calendar date of the call ([datetime.now().date()], [date('now')]). *)
Variable today : Z.

(** *** [_calculate_follow_up_priority] *)

(** The priority given by the promised amount alone. *)
Definition amount_priority (amount : Q) : FollowUpPriority :=
  if Qle_bool 50000 amount then URGENT
  else if Qle_bool 10000 amount then HIGH
  else NORMAL.

(** [SELECT COUNT( * ), COUNT(CASE WHEN status = 'BROKEN' THEN 1 END)
     FROM payment_promises
     WHERE customer_id = ? AND promise_date >= date('now', '-180 days')]. *)
Definition recent_promises (d : DB) (cid : Z) : list Promise :=
  filter (fun p => (pp_customer_id p =? cid) && (today - 180 <=? promise_date p))
         (payment_promises d).

Definition count_broken (l : list Promise) : Z :=
  Z.of_nat (List.length (filter (fun p => status_eqb (pp_status p) BROKEN) l)).

Definition _calculate_follow_up_priority (d : DB) (pid cid : Z) (amount : Q)
  : FollowUpPriority :=
  let priority := amount_priority amount in
  let total := Z.of_nat (List.length (recent_promises d cid)) in
  let broken := count_broken (recent_promises d cid) in
  if 0 <? total
  then
    let broken_rate := (inject_Z broken / inject_Z total)%Q in
    if Qlt_bool 0.5 broken_rate then URGENT
    else if Qlt_bool 0.25 broken_rate
         then match priority with NORMAL => HIGH | _ => priority end
         else priority
  else priority.

(** *** [check_promise_due_dates] *)

(** An entry of the result (the columns of customers and invoices that the
    tables of the model do not hold, passed through untouched, are left out). *)
Record DuePromise := mkDue {
  due_promise_id : Z;
  due_customer_id : Z;
  due_invoice_id : option Z;
  due_promised_amount : Q;
  due_promised_payment_date : Z;
  due_contact_person : string;
  due_contact_method : string;
  due_promise_notes : string;
  due_customer_name : string;
  due_outstanding_amount : Q;
  days_until_due : Z;
  due_is_overdue : bool;
  due_follow_up_priority : FollowUpPriority
}.

(** [LEFT JOIN invoices i ON pp.invoice_id = i.invoice_id]. *)
Definition left_join_invoice (d : DB) (p : Promise) : list (option Invoice) :=
  match pp_invoice_id p with
  | Some inv =>
    match filter (fun i => invoice_id i =? inv) (invoices d) with
    | [] => [None]
    | l => map Some l
    end
  | None => [None]
  end.

(** [WHERE pp.status = 'ACTIVE' AND pp.promised_payment_date <= ?
     AND pp.follow_up_completed = FALSE]. *)
Definition awaits_follow_up (check_date : Z) (p : Promise) : bool :=
  status_eqb (pp_status p) ACTIVE
  && (promised_payment_date p <=? check_date)
  && negb (follow_up_completed p).

Definition due_rows (d : DB) (check_date : Z) : list (Promise * Customer * option Invoice) :=
  flat_map (fun p =>
    flat_map (fun c =>
      if (pp_customer_id p =? customer_id c) && awaits_follow_up check_date p
      then map (fun i => (p, c, i)) (left_join_invoice d p)
      else [])
      (customers d))
    (payment_promises d).

(** [ORDER BY pp.promised_payment_date, pp.promised_amount DESC]. *)
Definition due_order (a b : Promise * Customer * option Invoice) : bool :=
  let pa := fst (fst a) in
  let pb := fst (fst b) in
  (promised_payment_date pa <? promised_payment_date pb)
  || ((promised_payment_date pa =? promised_payment_date pb)
      && Qle_bool (promised_amount pb) (promised_amount pa)).

Definition due_entry (d : DB) (row : Promise * Customer * option Invoice) : DuePromise :=
  let '(p, c, i) := row in
  mkDue (promise_id p) (pp_customer_id p) (pp_invoice_id p) (promised_amount p)
        (promised_payment_date p) (contact_person p) (contact_method p) (notes p)
        (customer_name c)
        (match i with Some x => outstanding_amount x | None => 0%Q end)
        (promised_payment_date p - today)
        (promised_payment_date p <? today)
        (_calculate_follow_up_priority d (promise_id p) (pp_customer_id p)
                                       (promised_amount p)).

Definition check_promise_due_dates (days_ahead : Z) (d : DB) : list DuePromise :=
  map (due_entry d) (sort_by due_order (due_rows d (today + days_ahead))).

(** *** [get_promise_history] *)

Record HistoryRow := mkHistoryRow {
  h_promise_id : Z;
  h_invoice_id : option Z;
  h_promise_date : Z;
  h_promised_amount : Q;
  h_promised_payment_date : Z;
  h_status : PromiseStatus;
  h_actual_payment_date : option Z;
  h_actual_payment_amount : Q;
  h_escalation_required : bool;
  h_contact_person : string;
  h_contact_method : string;
  h_notes : string
}.

Record HistorySummary := mkHistorySummary {
  total_promises : Z;
  kept_promises : Z;
  broken_promises : Z;
  partial_promises : Z;
  promise_keep_rate : Q;
  total_promised_amount : Q;
  total_received_amount : Q;
  fulfillment_rate : Q
}.

Record History := mkHistory {
  hist_customer_id : Z;
  period_days : Z;
  summary : HistorySummary;
  promises : list HistoryRow
}.

(** [float(row[7]) if row[7] else 0]. *)
Definition amount_or_zero (o : option Q) : Q :=
  match o with
  | Some q => q
  | None => 0%Q
  end.

Definition history_row (p : Promise) : HistoryRow :=
  mkHistoryRow (promise_id p) (pp_invoice_id p) (promise_date p) (promised_amount p)
               (promised_payment_date p) (pp_status p) (actual_payment_date p)
               (amount_or_zero (actual_payment_amount p)) (escalation_required p)
               (contact_person p) (contact_method p) (notes p).

Definition count_with (s : PromiseStatus) (l : list HistoryRow) : Z :=
  Z.of_nat (List.length (filter (fun r => status_eqb (h_status r) s) l)).

(** [SELECT ... FROM payment_promises WHERE customer_id = ?
     AND promise_date >= ? ORDER BY promise_date DESC]. *)
Definition history_rows (d : DB) (cid days_back : Z) : list HistoryRow :=
  map history_row
    (sort_by (fun a b => promise_date b <=? promise_date a)
       (filter (fun p => (pp_customer_id p =? cid)
                         && (today - days_back <=? promise_date p))
               (payment_promises d))).

Definition get_promise_history (cid days_back : Z) (d : DB) : History :=
  let rows := history_rows d cid days_back in
  let total := Z.of_nat (List.length rows) in
  let kept := count_with KEPT rows in
  let total_promised := sum_Q (map h_promised_amount rows) in
  let total_received :=
    sum_Q (map h_actual_payment_amount
             (filter (fun r => Qlt_bool 0 (h_actual_payment_amount r)) rows)) in
  mkHistory cid days_back
    (mkHistorySummary total kept (count_with BROKEN rows) (count_with PARTIALLY_KEPT rows)
       (if 0 <? total then (inject_Z kept / inject_Z total)%Q else 0%Q)
       total_promised total_received
       (if Qlt_bool 0 total_promised then (total_received / total_promised)%Q else 0%Q))
    rows.

End Reports.

(** *** Notions used in the statements *)

(** The entries of a reconciliation report that are flagged for escalation. *)
Definition flagged (r : Z * Z * PromiseStatus * bool) : bool := snd r.

(** What an entry of the report can be: one of the three outcomes of a
    reconciliation, flagged only when it is BROKEN. *)
Definition reportable (r : Z * Z * PromiseStatus * bool) : Prop :=
  (snd (fst r) = KEPT \/ snd (fst r) = PARTIALLY_KEPT \/ snd (fst r) = BROKEN)
  /\ (flagged r = true -> snd (fst r) = BROKEN).

(** *** Concrete inputs *)





(** The result of recording a promise of 1000 for day 19010 on invoice 100. *)
Definition promise_recorded : DB :=
  Eval vm_compute in
    snd (create_payment_promise next_rowid 19000 7 1000%Q (Parsed 19010) (Some 100)
                                "J. Doe" "PHONE" "" "Collection Agent" empty_ledger).

End PromiseReports.

(** ** The collection queue ([ar_prioritization.py]) *)

Module PriorityQueue.

Import Scoring.

(** [SELECT DISTINCT]: every value once (here in the order of the first
    occurrences; SQLite promises no order). *)
Fixpoint distinct (l : list Z) : list Z :=
  match l with
  | [] => []
  | x :: l' => x :: filter (fun y => negb (y =? x)) (distinct l')
  end.

(** [l[:limit]]: a negative limit counts from the end of the list. *)
Definition slice_to {A : Type} (limit : Z) (l : list A) : list A :=
  if 0 <=? limit then firstn (Z.to_nat limit) l
  else firstn (List.length l - Z.to_nat (- limit)) l.

(** ['error' in score_data] and [score_data['priority_score']] for the
    three dictionaries that [calculate_customer_priority_score] returns. *)
Definition has_error (r : ScoreResult) : bool :=
  match r with
  | customer_not_found => true
  | _ => false
  end.

Definition reported_score (r : ScoreResult) : Q :=
  match r with
  | scored s => priority_score s
  | _ => 0%Q
  end.

Section Queue.

Variable today : Z.

(** [SELECT DISTINCT customer_id FROM invoices WHERE outstanding_amount > 0]. *)
Definition customers_with_balance (d : DB) : list Z :=
  distinct (map inv_customer_id
              (filter (fun i => Qlt_bool 0 (outstanding_amount i)) (invoices d))).

(** [prioritized_customers.sort(key=lambda x: x['priority_score'], reverse=True)]. *)
Definition by_score_descending (a b : Z * ScoreResult) : bool :=
  Qle_bool (reported_score (snd b)) (reported_score (snd a)).

(** An entry is the dictionary of a customer, with its [customer_id]. *)
Definition get_prioritized_collection_queue (limit : Z) (min_score : Q) (d : DB)
  : list (Z * ScoreResult) :=
  let score_data :=
    map (fun cid => (cid, calculate_customer_priority_score today d cid))
        (customers_with_balance d) in
  let prioritized_customers :=
    filter (fun e => negb (has_error (snd e))
                     && Qle_bool min_score (reported_score (snd e)))
           score_data in
  slice_to limit (sort_by by_score_descending prioritized_customers).

End Queue.

(** *** Notions used in the statements *)

(** The customer's invoices with an outstanding amount (the rows that
    [_get_outstanding_invoices] selects). *)
Definition is_outstanding (cid : Z) (i : Invoice) : Prop :=
  inv_customer_id i = cid /\ (0 < outstanding_amount i)%Q.

(** The two sums of [_calculate_aging_score]. *)
Definition aging_sums (l : list Invoice) (acc : Q * Q) : Q * Q :=
  fold_left (fun acc i => (fst acc + days_score i * outstanding_amount i,
                           snd acc + outstanding_amount i)%Q) l acc.

(** *** Concrete inputs *)

Definition overdue_invoice : Invoice := mkInvoice 2 7 30000%Q 130.

Definition small_invoice : Invoice := mkInvoice 3 8 400%Q 10.

Definition settled_invoice : Invoice := mkInvoice 4 9 0%Q 200.

Definition prompt_payer : Customer :=
  mkCustomer 8 "Bolt" "VIP" 50000%Q 30 20%Q 90%Q 300000%Q None false.

Definition ledger : DB :=
  mkDB [late_payer; prompt_payer] [overdue_invoice; small_invoice; settled_invoice] [] [].

End PriorityQueue.

(** * Part II: properties of the program *)

(** ** Binary64 rounding *)

Lemma pow2_pos e : (0 < 2 ^ e)%Q.
Proof. apply Qpower_0_lt. reflexivity. Qed.

Lemma pow2_add a b : (2 ^ (a + b) == 2 ^ a * 2 ^ b)%Q.
Proof. apply Qpower_plus. discriminate. Qed.

Lemma pow2_le a b : a <= b -> (2 ^ a <= 2 ^ b)%Q.
Proof. intros H. apply Qpower_le_compat_l; [assumption|discriminate]. Qed.

Lemma pow2_lt a b : a < b -> (2 ^ a < 2 ^ b)%Q.
Proof. intros H. apply Qpower_lt_compat_l; [assumption|reflexivity]. Qed.

Lemma pow2_lt_inv a b : (2 ^ a < 2 ^ b)%Q -> a < b.
Proof. intros H. apply (Qpower_lt_compat_l_inv 2); [assumption|reflexivity]. Qed.

Lemma pow2_Z n : 0 <= n -> (2 ^ n == inject_Z (2 ^ n))%Q.
Proof. intros H. symmetry. apply (Zpower_Qpower 2 n H). Qed.

(** [ilog2] is the binary logarithm, rounded down. *)

Lemma ilog2_unique x a b :
  (2 ^ a <= x)%Q -> (x < 2 ^ (a + 1))%Q -> (2 ^ b <= x)%Q -> (x < 2 ^ (b + 1))%Q -> a = b.
Proof.
  intros H1 H2 H3 H4.
  assert (a < b + 1) by (apply pow2_lt_inv; eapply Qle_lt_trans; eassumption).
  assert (b < a + 1) by (apply pow2_lt_inv; eapply Qle_lt_trans; eassumption).
  lia.
Qed.

Lemma ilog2_spec x :
  (0 < x)%Q -> (2 ^ ilog2 x <= x)%Q /\ (x < 2 ^ (ilog2 x + 1))%Q.
Proof.
  intros Hx. unfold ilog2. cbv zeta.
  destruct x as [n d]. cbn [Qnum Qden].
  assert (Hn : 0 < n) by (unfold Qlt in Hx; cbn in Hx; lia).
  set (a := Z.log2 n). set (b := Z.log2 (Z.pos d)).
  destruct (Z.log2_spec n Hn) as [Ha1 Ha2]. fold a in Ha1, Ha2.
  destruct (Z.log2_spec (Z.pos d) ltac:(lia)) as [Hb1 Hb2]. fold b in Hb1, Hb2.
  assert (Ha0 : 0 <= a) by apply Z.log2_nonneg.
  assert (Hb0 : 0 <= b) by apply Z.log2_nonneg.
  assert (Hx' : (n # d == inject_Z n / inject_Z (Z.pos d))%Q).
  { rewrite (Qmake_Qdiv n d). reflexivity. }
  assert (Hd : (0 < inject_Z (Z.pos d))%Q) by (unfold Qlt; cbn; lia).
  (* upper bound: n / d < 2 ^ (a - b + 1) *)
  assert (Hup : (n # d < 2 ^ (a - b + 1))%Q).
  { rewrite Hx'. apply Qlt_shift_div_r; [assumption|].
    apply Qlt_le_trans with (inject_Z (2 ^ (a + 1))).
    - rewrite <- Zlt_Qlt. replace (a + 1) with (Z.succ a) by lia. assumption.
    - rewrite <- (pow2_Z (a + 1)) by lia.
      replace (a + 1) with ((a - b + 1) + b) by lia. rewrite pow2_add.
      apply Qmult_le_l; [apply pow2_pos|].
      rewrite (pow2_Z b) by assumption. rewrite <- Zle_Qle. assumption. }
  (* lower bound: 2 ^ (a - b - 1) <= n / d *)
  assert (Hlo : (2 ^ (a - b - 1) <= n # d)%Q).
  { rewrite Hx'. apply Qle_shift_div_l; [assumption|].
    apply Qle_trans with (inject_Z (2 ^ a)).
    - rewrite <- (pow2_Z a) by lia.
      replace a with ((a - b - 1) + (b + 1)) at 2 by lia. rewrite pow2_add.
      apply Qmult_le_l; [apply pow2_pos|].
      rewrite (pow2_Z (b + 1)) by lia. rewrite <- Zle_Qle.
      replace (b + 1) with (Z.succ b) by lia. lia.
    - rewrite <- Zle_Qle. assumption. }
  destruct (Qle_bool (2 ^ (a - b)) (n # d)) eqn:E.
  - apply Qle_bool_iff in E. split; assumption.
  - split; [assumption|]. replace (a - b - 1 + 1) with (a - b) by lia.
    apply Qnot_le_lt. intros H. apply Qle_bool_iff in H. congruence.
Qed.

Lemma ilog2_eq x e : (2 ^ e <= x)%Q -> (x < 2 ^ (e + 1))%Q -> ilog2 x = e.
Proof.
  intros H1 H2.
  assert (Hx : (0 < x)%Q) by (eapply Qlt_le_trans; [apply (pow2_pos e)|assumption]).
  destruct (ilog2_spec x Hx). now apply (ilog2_unique x).
Qed.

Lemma ilog2_comp x y : (0 < x)%Q -> (x == y)%Q -> ilog2 x = ilog2 y.
Proof.
  intros Hx E. destruct (ilog2_spec x Hx) as [H1 H2].
  symmetry. apply ilog2_eq; rewrite <- E; assumption.
Qed.


(** [rne] rounds to a nearest integer and is monotone. *)

Lemma rne_cases x :
  (rne x = Qfloor x /\ (x - inject_Z (Qfloor x) <= 1 # 2)%Q)
  \/ (rne x = Qfloor x + 1 /\ (1 # 2 <= x - inject_Z (Qfloor x))%Q).
Proof.
  unfold rne. cbv zeta.
  destruct (Qle_bool (x - inject_Z (Qfloor x)) (1 # 2)) eqn:E1.
  - apply Qle_bool_iff in E1.
    destruct (Qle_bool (1 # 2) (x - inject_Z (Qfloor x))) eqn:E2.
    + apply Qle_bool_iff in E2. destruct (Z.even (Qfloor x)); auto.
    + auto.
  - right. split; [reflexivity|].
    apply Qlt_le_weak, Qnot_le_lt. intros H. apply Qle_bool_iff in H. congruence.
Qed.

Lemma rne_comp x y : (x == y)%Q -> rne x = rne y.
Proof.
  intros E. unfold rne. cbv zeta. rewrite (Qfloor_comp _ _ E).
  assert (Hf : (x - inject_Z (Qfloor y) == y - inject_Z (Qfloor y))%Q) by now rewrite E.
  assert (H1 : Qle_bool (x - inject_Z (Qfloor y)) (1 # 2)
               = Qle_bool (y - inject_Z (Qfloor y)) (1 # 2)).
  { apply eq_true_iff_eq. rewrite !Qle_bool_iff. now rewrite Hf. }
  assert (H2 : Qle_bool (1 # 2) (x - inject_Z (Qfloor y))
               = Qle_bool (1 # 2) (y - inject_Z (Qfloor y))).
  { apply eq_true_iff_eq. rewrite !Qle_bool_iff. now rewrite Hf. }
  now rewrite H1, H2.
Qed.

Lemma rne_Z k : rne (inject_Z k) = k.
Proof.
  unfold rne. cbv zeta. rewrite Qfloor_Z.
  assert (E : (inject_Z k - inject_Z k == 0)%Q) by ring.
  replace (Qle_bool (inject_Z k - inject_Z k) (1 # 2)) with true
    by (symmetry; apply Qle_bool_iff; rewrite E; discriminate).
  replace (Qle_bool (1 # 2) (inject_Z k - inject_Z k)) with false; [reflexivity|].
  symmetry. destruct (Qle_bool (1 # 2) _) eqn:F; [|reflexivity].
  apply Qle_bool_iff in F. rewrite E in F. exfalso. apply (Qle_not_lt _ _ F). reflexivity.
Qed.

Lemma rne_mono x y : (x <= y)%Q -> rne x <= rne y.
Proof.
  intros H.
  pose proof (Qfloor_resp_le _ _ H) as Hfl.
  destruct (Z.eq_dec (Qfloor x) (Qfloor y)) as [E|E].
  - (* same integer part: compare the fractions *)
    unfold rne. cbv zeta. rewrite E.
    set (n := Qfloor y).
    assert (Hf : (x - inject_Z n <= y - inject_Z n)%Q) by lra.
    destruct (Qle_bool (x - inject_Z n) (1 # 2)) eqn:X1;
      destruct (Qle_bool (y - inject_Z n) (1 # 2)) eqn:Y1;
      destruct (Qle_bool (1 # 2) (x - inject_Z n)) eqn:X2;
      destruct (Qle_bool (1 # 2) (y - inject_Z n)) eqn:Y2;
      try (destruct (Z.even n)); try lia;
      repeat match goal with
             | H : Qle_bool _ _ = true |- _ => apply Qle_bool_iff in H
             | H : Qle_bool ?a ?b = false |- _ =>
                 assert (b < a)%Q
                   by (apply Qnot_le_lt; intros G; apply Qle_bool_iff in G; congruence);
                 clear H
             end; exfalso; lra.
  - destruct (rne_cases x) as [[-> _]|[-> _]], (rne_cases y) as [[-> _]|[-> _]]; lia.
Qed.

Lemma rne_nonneg x : (0 <= x)%Q -> 0 <= rne x.
Proof.
  intros H. rewrite <- (rne_Z 0). apply rne_mono. exact H.
Qed.

(** [round_pos]: the rounding of a positive number. *)

Lemma quantum_comp a a' : (0 < a)%Q -> (a == a')%Q -> quantum a = quantum a'.
Proof. intros H E. unfold quantum. now rewrite (ilog2_comp a a' H E). Qed.

Lemma round_pos_comp a a' : (0 < a)%Q -> (a == a')%Q -> (round_pos a == round_pos a')%Q.
Proof.
  intros H E. unfold round_pos. rewrite <- (quantum_comp a a' H E).
  rewrite (rne_comp (a / 2 ^ quantum a) (a' / 2 ^ quantum a)); [reflexivity|].
  unfold Qdiv. apply Qmult_comp; [exact E|reflexivity].
Qed.

Lemma scaled_bounds a :
  (0 < a)%Q ->
  (0 < a / 2 ^ quantum a)%Q /\ (a / 2 ^ quantum a < inject_Z (2 ^ 53))%Q.
Proof.
  intros Ha. destruct (ilog2_spec a Ha) as [_ Hup]. split.
  - apply Qlt_shift_div_l; [apply pow2_pos|]. now rewrite Qmult_0_l.
  - apply Qlt_shift_div_r; [apply pow2_pos|].
    rewrite <- (pow2_Z 53) by lia. rewrite <- pow2_add.
    eapply Qlt_le_trans; [exact Hup|]. apply pow2_le. unfold quantum. lia.
Qed.

Lemma mantissa_bounds a :
  (0 < a)%Q -> 0 <= rne (a / 2 ^ quantum a) <= 2 ^ 53.
Proof.
  intros Ha. destruct (scaled_bounds a Ha) as [H0 H1]. split.
  - apply rne_nonneg. now apply Qlt_le_weak.
  - rewrite <- (rne_Z (2 ^ 53)). apply rne_mono. now apply Qlt_le_weak.
Qed.

Lemma round_pos_nonneg a : (0 < a)%Q -> (0 <= round_pos a)%Q.
Proof.
  intros Ha. unfold round_pos. apply Qmult_le_0_compat.
  - change 0%Q with (inject_Z 0). rewrite <- Zle_Qle. now apply mantissa_bounds.
  - apply Qlt_le_weak, pow2_pos.
Qed.

(** A number with at most 53 bits of significand and an exponent of at least
    -1074 is a float: rounding leaves it as it is. *)
Lemma round_pos_fixed m q :
  0 < m <= 2 ^ 53 -> -1074 <= q ->
  (round_pos (inject_Z m * 2 ^ q) == inject_Z m * 2 ^ q)%Q.
Proof.
  intros [Hm0 Hm] Hq.
  set (y := (inject_Z m * 2 ^ q)%Q).
  destruct (Z.log2_spec m Hm0) as [Hl1 Hl2]. set (l := Z.log2 m) in *.
  assert (Hl0 : 0 <= l) by apply Z.log2_nonneg.
  assert (Hy : ilog2 y = l + q).
  { apply ilog2_eq; unfold y.
    - rewrite pow2_add. apply Qmult_le_compat_r; [|apply Qlt_le_weak, pow2_pos].
      rewrite (pow2_Z l) by assumption. now rewrite <- Zle_Qle.
    - replace (l + q + 1) with ((l + 1) + q) by lia. rewrite pow2_add.
      apply Qmult_lt_r; [apply pow2_pos|].
      rewrite (pow2_Z (l + 1)) by lia. rewrite <- Zlt_Qlt.
      replace (l + 1) with (Z.succ l) by lia. assumption. }
  assert (Hl53 : l <= 53).
  { destruct (Z.le_gt_cases l 53) as [H|H]; [assumption|exfalso].
    assert (2 ^ 54 <= 2 ^ l) by (apply Z.pow_le_mono_r; lia). lia. }
  unfold round_pos, quantum. rewrite Hy.
  set (q' := Z.max (l + q - 52) (-1074)).
  assert (Hint : exists k, (inject_Z k * 2 ^ q' == y)%Q).
  { destruct (Z.le_gt_cases q' q) as [Hle|Hgt].
    - exists (m * 2 ^ (q - q')).
      rewrite inject_Z_mult. rewrite <- (pow2_Z (q - q')) by lia.
      unfold y. rewrite <- Qmult_assoc, <- pow2_add.
      now replace (q - q' + q') with q by lia.
    - (* only when the significand is [2 ^ 53] *)
      assert (Hl : l = 53) by (unfold q' in Hgt; lia).
      assert (Hm53 : m = 2 ^ 53) by (rewrite Hl in Hl1; lia).
      assert (Hq' : q' = q + 1) by (unfold q'; lia).
      exists (2 ^ 52). unfold y. rewrite Hm53, Hq'.
      rewrite <- (pow2_Z 52), <- (pow2_Z 53) by lia. rewrite <- !pow2_add.
      now replace (52 + (q + 1)) with (53 + q) by lia. }
  destruct Hint as (k & Hk).
  assert (Hk1 : (y / 2 ^ q' == inject_Z k)%Q).
  { rewrite <- Hk. apply Qdiv_mult_l. apply Qpower_not_0. discriminate. }
  rewrite (rne_comp _ _ Hk1), rne_Z. exact Hk.
Qed.

Lemma round_pos_idem a :
  (0 < a)%Q -> (0 < round_pos a)%Q -> (round_pos (round_pos a) == round_pos a)%Q.
Proof.
  intros Ha Hr. unfold round_pos at 2 3. apply round_pos_fixed.
  - pose proof (mantissa_bounds a Ha) as [H0 H1]. split; [|assumption].
    destruct (Z.eq_dec (rne (a / 2 ^ quantum a)) 0) as [E|E]; [|lia].
    exfalso. unfold round_pos in Hr. rewrite E in Hr.
    change (inject_Z 0) with 0%Q in Hr. rewrite Qmult_0_l in Hr.
    now apply Qlt_irrefl in Hr.
  - unfold quantum. lia.
Qed.




(** [b64]: sign, floats as fixed points, monotonicity. *)

Lemma Qabs_pos_lt x : (0 < x)%Q -> (Qabs x == x)%Q.
Proof. intros H. apply Qabs_pos. now apply Qlt_le_weak. Qed.

Lemma b64_pos x : (0 < x)%Q -> (b64 x == round_pos x)%Q.
Proof.
  intros H. unfold b64. cbv zeta.
  assert (Ha : (Qabs x == x)%Q) by now apply Qabs_pos_lt.
  destruct (Qle_bool (Qabs x) 0) eqn:E.
  { apply Qle_bool_iff in E. rewrite Ha in E. exfalso. apply (Qle_not_lt _ _ E H). }
  destruct (Qle_bool 0 x) eqn:F.
  - apply round_pos_comp; [now rewrite Ha|assumption].
  - exfalso. apply Qlt_le_weak, Qle_bool_iff in H. congruence.
Qed.

Lemma b64_neg x : (x < 0)%Q -> (b64 x == - round_pos (- x))%Q.
Proof.
  intros H. unfold b64. cbv zeta.
  assert (Ha : (Qabs x == - x)%Q) by (apply Qabs_neg; now apply Qlt_le_weak).
  assert (Hp : (0 < - x)%Q) by lra.
  destruct (Qle_bool (Qabs x) 0) eqn:E.
  { apply Qle_bool_iff in E. rewrite Ha in E. exfalso. lra. }
  destruct (Qle_bool 0 x) eqn:F.
  - apply Qle_bool_iff in F. exfalso. lra.
  - apply Qopp_comp. apply round_pos_comp; [now rewrite Ha|assumption].
Qed.

Lemma b64_zero x : (x == 0)%Q -> b64 x = 0%Q.
Proof.
  intros H. unfold b64. cbv zeta.
  replace (Qle_bool (Qabs x) 0) with true; [reflexivity|].
  symmetry. apply Qle_bool_iff. rewrite H. discriminate.
Qed.

Lemma b64_comp x y : (x == y)%Q -> (b64 x == b64 y)%Q.
Proof.
  intros E. destruct (Q_dec x 0) as [[H|H]|H].
  - rewrite (b64_neg x H), (b64_neg y) by now rewrite <- E.
    apply Qopp_comp. apply round_pos_comp; [lra|now rewrite E].
  - rewrite (b64_pos x H), (b64_pos y) by now rewrite <- E.
    now apply round_pos_comp.
  - rewrite (b64_zero x H), (b64_zero y); [reflexivity|]. now rewrite <- E.
Qed.

Lemma b64_nonneg x : (0 <= x)%Q -> (0 <= b64 x)%Q.
Proof.
  intros H. destruct (Qle_lt_or_eq _ _ H) as [Hlt|Heq].
  - rewrite (b64_pos x Hlt). now apply round_pos_nonneg.
  - rewrite (b64_zero x); [apply Qle_refl|now symmetry].
Qed.


Lemma b64_idem x : (b64 (b64 x) == b64 x)%Q.
Proof.
  destruct (Q_dec x 0) as [[H|H]|H].
  - assert (Hp : (0 < - x)%Q) by lra.
    pose proof (round_pos_nonneg _ Hp) as Hr.
    destruct (Qle_lt_or_eq _ _ Hr) as [Hlt|Heq].
    + rewrite (b64_comp _ _ (b64_neg x H)).
      rewrite (b64_neg x H), b64_neg by lra.
      apply Qopp_comp.
      rewrite (round_pos_comp (- - round_pos (- x)) (round_pos (- x))); [| |ring].
      * now apply round_pos_idem.
      * lra.
    + rewrite (b64_zero (b64 x)); rewrite (b64_neg x H), <- Heq; reflexivity.
  - pose proof (round_pos_nonneg _ H) as Hr.
    destruct (Qle_lt_or_eq _ _ Hr) as [Hlt|Heq].
    + rewrite (b64_comp _ _ (b64_pos x H)).
      rewrite (b64_pos x H), b64_pos by assumption.
      now apply round_pos_idem.
    + rewrite (b64_zero (b64 x)); rewrite (b64_pos x H), <- Heq; reflexivity.
  - rewrite (b64_zero x H). reflexivity.
Qed.


Lemma update_where_length {A} (p : A -> bool) f (l : list A) :
  List.length (update_where p f l) = List.length l.
Proof. apply length_map. Qed.

Lemma insert_by_perm {A} (key : A -> Z) x l :
  Permutation (x :: l) (insert_by key x l).
Proof.
  induction l as [|y l IH]; simpl; [reflexivity|].
  destruct (key x <=? key y); [reflexivity|].
  rewrite perm_swap. now constructor.
Qed.

Lemma order_by_perm {A} (key : A -> Z) l :
  Permutation l (order_by key l).
Proof.
  induction l as [|x l IH]; simpl; [constructor|].
  rewrite <- insert_by_perm. now constructor.
Qed.

Lemma order_by_In {A} (key : A -> Z) l x :
  In x (order_by key l) <-> In x l.
Proof.
  split; apply Permutation_in; [symmetry|]; apply order_by_perm.
Qed.

Lemma NoDup_map_In_eq {A B} (f : A -> B) l x y :
  NoDup (map f l) -> In x l -> In y l -> f x = f y -> x = y.
Proof.
  induction l as [|a l IH]; intros Hnd Hx Hy E; [contradiction|].
  simpl in Hnd. inversion Hnd as [|? ? Hna Hnd']; subst.
  destruct Hx as [->|Hx], Hy as [->|Hy]; try reflexivity.
  - exfalso. apply Hna. rewrite E. now apply in_map.
  - exfalso. apply Hna. rewrite <- E. now apply in_map.
  - now apply IH.
Qed.

Lemma NoDup_map_filter {A B} (f : A -> B) (p : A -> bool) l :
  NoDup (map f l) -> NoDup (map f (filter p l)).
Proof.
  induction l as [|a l IH]; intros H; simpl in *; [constructor|].
  inversion H as [|? ? Hn Hnd]; subst.
  destruct (p a); simpl; [|now apply IH].
  constructor; [|now apply IH].
  intros Hin. apply Hn. apply in_map_iff in Hin as (y & E & Hy).
  apply filter_In in Hy as [Hy _]. rewrite <- E. now apply in_map.
Qed.

Lemma nth_error_update_where {A} (p : A -> bool) f l k x :
  nth_error l k = Some x ->
  nth_error (update_where p f l) k = Some (if p x then f x else x).
Proof. intros H. unfold update_where. now rewrite nth_error_map, H. Qed.

Lemma hd_error_In {A} (l : list A) x : hd_error l = Some x -> In x l.
Proof. destruct l; [discriminate|]. intros H; inversion H. now left. Qed.

Lemma find_unique {A} (key : A -> Z) l x :
  NoDup (map key l) -> In x l -> find (fun y => key y =? key x) l = Some x.
Proof.
  induction l as [|a l IH]; intros Hnd Hin; [contradiction|].
  simpl in Hnd. inversion Hnd as [|? ? Hna Hnd']; subst. simpl.
  destruct Hin as [->|Hin]; [now rewrite Z.eqb_refl|].
  destruct (Z.eqb_spec (key a) (key x)) as [E|_]; [|now apply IH].
  exfalso. apply Hna. rewrite E. now apply in_map.
Qed.

(** ** Properties of the workflow engine *)

Module EngineProofs.

Import Engine.

(** *** Reasoning about the monad *)

Lemma bind_inv {A B} (m : M A) (k : A -> M B) w o w' :
  bind m k w = (o, w') ->
  (exists a w1, m w = (Ret a, w1) /\ k a w1 = (o, w'))
  \/ (exists e, m w = (Raise e, w') /\ o = Raise e).
Proof.
  unfold bind. destruct (m w) as [[a|e] w1]; intros H.
  - left. eauto.
  - right. inversion H; subst. eauto.
Qed.

Lemma bind_ret_inv {A B} (m : M A) (k : A -> M B) w b w' :
  bind m k w = (Ret b, w') ->
  exists a w1, m w = (Ret a, w1) /\ k a w1 = (Ret b, w').
Proof.
  intros H. apply bind_inv in H as [H|(e & _ & H)]; [assumption|discriminate].
Qed.

(** A loop whose body returns without touching the state does not touch it. *)
Lemma map_m_idle {A B} (f : A -> M B) (b : B) (l : list A) w :
  (forall x, In x l -> f x w = (Ret b, w)) ->
  map_m f l w = (Ret (repeat b (List.length l)), w).
Proof.
  induction l as [|x l IH]; intros H; simpl; [reflexivity|].
  unfold bind. rewrite (H x (or_introl eq_refl)).
  rewrite IH by (intros; apply H; now right). reflexivity.
Qed.

Lemma concat_repeat_nil {A} n : concat (repeat (@nil A) n) = [].
Proof. induction n; simpl; auto. Qed.

(** *** Frame of a trigger scan: only [workflow_instances] grows *)

Lemma appended_refl w : appended w w [].
Proof. split; [reflexivity|now rewrite app_nil_r]. Qed.

Lemma appended_trans w1 w2 w3 n1 n2 :
  appended w1 w2 n1 -> appended w2 w3 n2 -> appended w1 w3 (n1 ++ n2).
Proof.
  intros [F1 I1] [F2 I2]. split; [congruence|].
  rewrite I2, I1. now rewrite app_assoc.
Qed.

Lemma appended_tables w w' news :
  appended w w' news ->
  collection_workflows (db w') = collection_workflows (db w)
  /\ invoices (db w') = invoices (db w)
  /\ customers (db w') = customers (db w).
Proof.
  intros [F _]. unfold without_instances, with_instances in F.
  inversion F. auto.
Qed.

Section ScanFacts.

Variable clk : nat -> Z.

Lemma create_spec wid cid inv w o w' :
  _create_workflow_instance clk wid cid inv w = (o, w') ->
  (exists e, o = Raise e /\ appended w w' [])
  \/ (exists id scheduled created,
        o = Ret id
        /\ appended w w' [new_instance id wid cid inv scheduled created]).
Proof.
  unfold _create_workflow_instance, bind, now, get_db, modify_db, ret, raise.
  cbn [db reads].
  destruct (existsb _ _); intros H; inversion H; subst; clear H.
  - left. eexists. split; [reflexivity|]. split; [reflexivity|].
    cbn. now rewrite app_nil_r.
  - right. do 3 eexists. split; [reflexivity|]. split; reflexivity.
Qed.

Lemma create_rows_spec wid rows : forall w o w',
  map_m (fun row => _create_workflow_instance clk wid (snd row) (Some (fst row))) rows w
    = (o, w') ->
  exists news,
    appended w w' news
    /\ Forall (fun i => exists row, In row rows /\ created_for wid row i) news
    /\ (forall ids, o = Ret ids ->
          Forall2 (created_for wid) rows news /\ ids = map instance_id news).
Proof.
  induction rows as [|row rows IH]; intros w o w' H; simpl in H.
  - inversion H; subst. exists []. split; [apply appended_refl|].
    split; [constructor|]. intros ids E. inversion E. split; constructor.
  - apply bind_inv in H as [(id & w1 & Hc & H)|(e & Hc & ->)].
    + apply create_spec in Hc as [(e & E & _)|(id' & ts & tc & E & Ha)]; [discriminate|].
      inversion E; subst id'; clear E.
      apply bind_inv in H as [(ids' & w2 & Hr & H)|(e & Hr & ->)].
      * destruct (IH _ _ _ Hr) as (news & Ha' & Hall & Hok).
        inversion H; subst; clear H.
        exists (new_instance id wid (snd row) (Some (fst row)) ts tc :: news).
        split; [apply (appended_trans _ _ _ [_] _ Ha Ha')|].
        split.
        -- constructor.
           ++ exists row. split; [now left|]. now exists id, ts, tc.
           ++ eapply Forall_impl; [|exact Hall].
              intros i (r & Hr' & Hi). exists r. split; [now right|assumption].
        -- intros ids E. inversion E; subst; clear E.
           destruct (Hok _ eq_refl) as [HF ->]. split.
           ++ constructor; [now exists id, ts, tc|assumption].
           ++ reflexivity.
      * destruct (IH _ _ _ Hr) as (news & Ha' & Hall & _).
        exists (new_instance id wid (snd row) (Some (fst row)) ts tc :: news).
        split; [apply (appended_trans _ _ _ [_] _ Ha Ha')|].
        split; [|discriminate].
        constructor.
        -- exists row. split; [now left|]. now exists id, ts, tc.
        -- eapply Forall_impl; [|exact Hall].
           intros i (r & Hr' & Hi). exists r. split; [now right|assumption].
    + apply create_spec in Hc as [(e' & _ & Ha)|(id' & ts & tc & E & _)]; [|discriminate].
      exists []. split; [assumption|]. split; [constructor|discriminate].
Qed.

End ScanFacts.

(** *** Coverage of an invoice by an outstanding instance *)

Lemma already_in_workflow_covers d inv :
  already_in_workflow d inv = covers (workflow_instances d) inv.
Proof. reflexivity. Qed.

Lemma covers_app l n inv : covers (l ++ n) inv = covers l inv || covers n inv.
Proof. apply existsb_app. Qed.

Lemma covers_In l inv i :
  In i l -> in_active_workflow i = true -> wi_invoice_id i = Some inv ->
  covers l inv = true.
Proof.
  intros Hin Ha Hi. apply existsb_exists. exists i. split; [assumption|].
  unfold for_invoice. rewrite Ha, Hi. simpl. apply Z.eqb_refl.
Qed.

Lemma created_for_covers wid row i :
  created_for wid row i ->
  in_active_workflow i = true /\ wi_invoice_id i = Some (fst row)
  /\ status i = PENDING /\ wi_workflow_id i = wid /\ wi_customer_id i = snd row
  /\ current_step i = 0.
Proof. intros (id & ts & tc & ->). repeat split. Qed.

Lemma Forall2_In_l {A B} (R : A -> B -> Prop) l1 l2 x :
  Forall2 R l1 l2 -> In x l1 -> exists y, In y l2 /\ R x y.
Proof.
  induction 1 as [|a b l1 l2 HR _ IH]; intros Hin; [contradiction|].
  destruct Hin as [->|Hin].
  - exists b. split; [now left|assumption].
  - destruct (IH Hin) as (y & Hy & HRy). exists y. split; [now right|assumption].
Qed.

Lemma matching_invoices_In wf d row :
  In row (matching_invoices wf d) <->
  exists i c,
    In i (invoices d) /\ In c (customers d)
    /\ inv_customer_id i = customer_id c
    /\ trigger_matches wf i c = true
    /\ already_in_workflow d (invoice_id i) = false
    /\ row = (invoice_id i, inv_customer_id i).
Proof.
  unfold matching_invoices. rewrite in_flat_map. split.
  - intros (i & Hi & H). apply in_flat_map in H as (c & Hc & H).
    destruct (_ && _ && _) eqn:E; [|contradiction].
    destruct H as [<-|[]].
    apply andb_prop in E as [E Hcov]. apply andb_prop in E as [Hj Ht].
    exists i, c. repeat split; try assumption.
    + now apply Z.eqb_eq.
    + now apply negb_true_iff.
  - intros (i & c & Hi & Hc & Hj & Ht & Hcov & ->).
    exists i. split; [assumption|]. apply in_flat_map. exists c. split; [assumption|].
    rewrite Hj, Z.eqb_refl, Ht, Hcov. now left.
Qed.

Lemma no_match_matching_nil wf d :
  no_match wf d -> matching_invoices wf d = [].
Proof.
  intros H. destruct (matching_invoices wf d) as [|row l] eqn:E; [reflexivity|].
  assert (Hin : In row (matching_invoices wf d)) by (rewrite E; now left).
  apply matching_invoices_In in Hin as (i & c & Hi & Hc & Hj & Ht & Hcov & _).
  rewrite (H i c Hi Hc Hj Ht) in Hcov. discriminate.
Qed.

Lemma no_match_mono wf w w' news :
  appended w w' news -> no_match wf (db w) -> no_match wf (db w').
Proof.
  intros Ha H i c Hi Hc Hj Ht.
  destruct (appended_tables _ _ _ Ha) as (_ & Ei & Ec).
  rewrite Ei in Hi. rewrite Ec in Hc.
  rewrite already_in_workflow_covers. destruct Ha as [_ ->].
  rewrite covers_app. rewrite <- already_in_workflow_covers.
  now rewrite (H i c Hi Hc Hj Ht).
Qed.

Section ScanLoop.

Variable clk : nat -> Z.

(** One workflow of the scan: an instance is inserted for each row of its
    matching query, and for nothing else. *)
Lemma trigger_workflow_spec wf w o w' :
  trigger_workflow clk wf w = (o, w') ->
  exists news,
    appended w w' news
    /\ Forall (fun i => exists row, In row (matching_invoices wf (db w))
                                    /\ created_for (workflow_id wf) row i) news
    /\ (forall ids, o = Ret ids ->
          Forall2 (created_for (workflow_id wf)) (matching_invoices wf (db w)) news
          /\ ids = map instance_id news).
Proof.
  unfold trigger_workflow, bind, get_db. apply create_rows_spec.
Qed.

Lemma trigger_workflow_no_match wf w ids w' :
  trigger_workflow clk wf w = (Ret ids, w') -> no_match wf (db w').
Proof.
  intros H. apply trigger_workflow_spec in H as (news & Ha & _ & Hok).
  destruct (Hok _ eq_refl) as [HF _].
  intros i c Hi Hc Hj Ht.
  destruct (appended_tables _ _ _ Ha) as (_ & Ei & Ec).
  rewrite Ei in Hi. rewrite Ec in Hc.
  rewrite already_in_workflow_covers. destruct Ha as [_ ->]. rewrite covers_app.
  destruct (covers (workflow_instances (db w)) (invoice_id i)) eqn:Hcov; [reflexivity|].
  simpl.
  assert (Hrow : In (invoice_id i, inv_customer_id i) (matching_invoices wf (db w))).
  { apply matching_invoices_In. exists i, c. repeat split; assumption. }
  destruct (Forall2_In_l _ _ _ _ HF Hrow) as (inst & Hin & Hmade).
  apply created_for_covers in Hmade as (Hact & Hinv & _).
  exact (covers_In _ _ _ Hin Hact Hinv).
Qed.

(** The whole scan: the instance table grows by instances for invoices that
    were in no outstanding workflow when the scan started; when the scan
    returns, no workflow it visited has a matching invoice left. *)
Lemma scan_spec ws : forall w o w',
  map_m (trigger_workflow clk) ws w = (o, w') ->
  exists news,
    appended w w' news
    /\ Forall (fun i => exists inv,
                 wi_invoice_id i = Some inv /\ status i = PENDING
                 /\ already_in_workflow (db w) inv = false) news
    /\ (forall idss, o = Ret idss ->
          (forall wf, In wf ws -> no_match wf (db w'))
          /\ concat idss = map instance_id news).
Proof.
  induction ws as [|wf ws IH]; intros w o w' H; simpl in H.
  - inversion H; subst. exists []. split; [apply appended_refl|].
    split; [constructor|]. intros idss E. inversion E. split; [contradiction|reflexivity].
  - assert (Hnew : forall n1,
               Forall (fun i => exists row, In row (matching_invoices wf (db w))
                                 /\ created_for (workflow_id wf) row i) n1 ->
               Forall (fun i => exists inv,
                         wi_invoice_id i = Some inv /\ status i = PENDING
                         /\ already_in_workflow (db w) inv = false) n1).
    { intros n1 Hall. eapply Forall_impl; [|exact Hall].
      intros i (row & Hrow & Hmade).
      apply matching_invoices_In in Hrow as (iv & c & _ & _ & _ & _ & Hcov & ->).
      apply created_for_covers in Hmade as (_ & Hinv & Hst & _).
      exists (invoice_id iv). auto. }
    apply bind_inv in H as [(ids & w1 & Hw & H)|(e & Hw & ->)].
    + pose proof (trigger_workflow_no_match _ _ _ _ Hw) as Hnm.
      pose proof Hw as Hw'.
      apply trigger_workflow_spec in Hw' as (n1 & Ha1 & Hall1 & Hok1).
      destruct (Hok1 _ eq_refl) as [_ ->].
      assert (Hrest : forall o2 w2,
                 map_m (trigger_workflow clk) ws w1 = (o2, w2) ->
                 exists n2, appended w w2 (n1 ++ n2)
                   /\ Forall (fun i => exists inv,
                         wi_invoice_id i = Some inv /\ status i = PENDING
                         /\ already_in_workflow (db w) inv = false) (n1 ++ n2)
                   /\ (forall idss, o2 = Ret idss ->
                         (forall wf', In wf' (wf :: ws) -> no_match wf' (db w2))
                         /\ concat idss = map instance_id n2)).
      { intros o2 w2 Hr. destruct (IH _ _ _ Hr) as (n2 & Ha2 & Hall2 & Hok2).
        exists n2. split; [exact (appended_trans _ _ _ _ _ Ha1 Ha2)|]. split.
        - apply Forall_app. split; [exact (Hnew _ Hall1)|].
          eapply Forall_impl; [|exact Hall2].
          intros i (inv & Hinv & Hst & Hcov). exists inv. repeat split; try assumption.
          rewrite already_in_workflow_covers in *. destruct Ha1 as [_ E1].
          rewrite E1, covers_app in Hcov. now apply orb_false_iff in Hcov.
        - intros idss E. destruct (Hok2 _ E) as [Hnm2 Hc]. split; [|assumption].
          intros wf' [<-|Hin]; [|now apply Hnm2].
          exact (no_match_mono _ _ _ _ Ha2 Hnm). }
      apply bind_inv in H as [(idss & w2 & Hr & H)|(e & Hr & ->)].
      * inversion H; subst; clear H.
        destruct (Hrest _ _ Hr) as (n2 & Ha & Hall & Hok).
        exists (n1 ++ n2). split; [assumption|]. split; [assumption|].
        intros idss' E. inversion E; subst; clear E.
        destruct (Hok _ eq_refl) as [Hnm' Hc]. split; [assumption|].
        simpl. now rewrite Hc, map_app.
      * destruct (Hrest _ _ Hr) as (n2 & Ha & Hall & _).
        exists (n1 ++ n2). split; [assumption|]. split; [assumption|discriminate].
    + apply trigger_workflow_spec in Hw as (n1 & Ha1 & Hall1 & _).
      exists n1. split; [assumption|].
      split; [exact (Hnew _ Hall1)|discriminate].
Qed.

End ScanLoop.

(** *** The rows of one invoice in the matching query *)

Lemma flat_map_all_nil {A B} (g : A -> list B) l :
  (forall y, In y l -> g y = []) -> flat_map g l = [].
Proof.
  induction l as [|a l IH]; intros H; simpl; [reflexivity|].
  rewrite (H a (or_introl eq_refl)), IH; [reflexivity|].
  intros y Hy. apply H. now right.
Qed.

(** In a table with a unique key, a query whose rows all come from the row
    of key [key x] is the query on that row. *)
Lemma flat_map_unique {A B} (key : A -> Z) (g : A -> list B) l x :
  NoDup (map key l) -> In x l ->
  (forall y, In y l -> key y <> key x -> g y = []) ->
  flat_map g l = g x.
Proof.
  induction l as [|a l IH]; intros Hnd Hin Hg; [contradiction|].
  simpl in Hnd. inversion Hnd as [|? ? Hna Hnd']; subst. simpl.
  destruct Hin as [->|Hin].
  - rewrite (flat_map_all_nil g l); [apply app_nil_r|].
    intros y Hy. apply Hg; [now right|].
    intros E. apply Hna. rewrite <- E. now apply in_map.
  - rewrite (Hg a (or_introl eq_refl)).
    + simpl. apply IH; try assumption. intros y Hy. apply Hg. now right.
    + intros E. apply Hna. rewrite E. now apply in_map.
Qed.

Lemma filter_flat_map {A B} (p : B -> bool) (g : A -> list B) l :
  filter p (flat_map g l) = flat_map (fun x => filter p (g x)) l.
Proof.
  induction l as [|a l IH]; simpl; [reflexivity|].
  now rewrite filter_app, IH.
Qed.

Lemma rows_of_invoice wf d i c :
  NoDup (map invoice_id (invoices d)) ->
  NoDup (map customer_id (customers d)) ->
  In i (invoices d) -> In c (customers d) ->
  inv_customer_id i = customer_id c ->
  filter (row_of (invoice_id i)) (matching_invoices wf d)
  = if trigger_matches wf i c && negb (already_in_workflow d (invoice_id i))
    then [(invoice_id i, inv_customer_id i)] else [].
Proof.
  intros Hni Hnc Hi Hc Hj. unfold matching_invoices.
  rewrite filter_flat_map.
  rewrite (flat_map_unique invoice_id _ _ i Hni Hi).
  - rewrite filter_flat_map.
    rewrite (flat_map_unique customer_id _ _ c Hnc Hc).
    + rewrite Hj, Z.eqb_refl. cbn [andb].
      destruct (trigger_matches wf i c && negb _); [|reflexivity].
      cbn. unfold row_of. cbn. now rewrite Z.eqb_refl.
    + intros c' _ Hne.
      destruct (inv_customer_id i =? customer_id c') eqn:E; [|reflexivity].
      apply Z.eqb_eq in E. congruence.
  - intros i' _ Hne. rewrite filter_flat_map. apply flat_map_all_nil.
    intros c' _. destruct (_ && _ && _); [|reflexivity].
    cbn. unfold row_of. cbn.
    destruct (invoice_id i' =? invoice_id i) eqn:E; [|reflexivity].
    apply Z.eqb_eq in E. contradiction.
Qed.

Lemma created_rows_of_invoice wid inv rows news :
  Forall2 (created_for wid) rows news ->
  Forall2 (created_for wid) (filter (row_of inv) rows) (filter (for_invoice inv) news).
Proof.
  induction 1 as [|row i rows news Hm _ IH]; [constructor|].
  simpl. destruct Hm as (id & ts & tc & ->).
  unfold for_invoice at 1, row_of at 1. cbn.
  destruct (fst row =? inv); [|assumption].
  constructor; [now exists id, ts, tc|assumption].
Qed.

Lemma no_instance_not_covered inv news :
  filter (for_invoice inv) news = [] -> covers news inv = false.
Proof.
  induction news as [|i news IH]; [reflexivity|]. simpl.
  destruct (for_invoice inv i); [discriminate|].
  intros H. rewrite andb_false_r. simpl. now apply IH.
Qed.

Lemma Forall2_nil_l {A B} (R : A -> B -> Prop) l : Forall2 R [] l -> l = [].
Proof. now inversion 1. Qed.

Lemma Forall2_single_l {A B} (R : A -> B -> Prop) x l :
  Forall2 R [x] l -> exists y, l = [y] /\ R x y.
Proof.
  inversion 1 as [|? y ? l' HR Hl]; subst. apply Forall2_nil_l in Hl. subst.
  now exists y.
Qed.

Section ScanOfOneInvoice.

Variable clk : nat -> Z.

Variables (i : Invoice) (c : Customer).

(** What a scan that returns does for one invoice [i] of customer [c]. *)
Lemma scan_invoice ws : forall w idss w',
  map_m (trigger_workflow clk) ws w = (Ret idss, w') ->
  NoDup (map invoice_id (invoices (db w))) ->
  NoDup (map customer_id (customers (db w))) ->
  In i (invoices (db w)) -> In c (customers (db w)) ->
  inv_customer_id i = customer_id c ->
  exists news,
    appended w w' news
    /\ (already_in_workflow (db w) (invoice_id i) = true ->
        filter (for_invoice (invoice_id i)) news = [])
    /\ (find (fun wf => trigger_matches wf i c) ws = None ->
        filter (for_invoice (invoice_id i)) news = [])
    /\ (already_in_workflow (db w) (invoice_id i) = false ->
        forall wf, find (fun wf => trigger_matches wf i c) ws = Some wf ->
        exists inst,
          filter (for_invoice (invoice_id i)) news = [inst]
          /\ created_for (workflow_id wf) (invoice_id i, inv_customer_id i) inst).
Proof.
  induction ws as [|w1 ws IH]; intros w idss w' H Hni Hnc Hi Hc Hj; simpl in H.
  - inversion H; subst. exists []. split; [apply appended_refl|].
    repeat split; try reflexivity. intros _ wf E. discriminate.
  - apply bind_ret_inv in H as (ids & wa & Hw & H).
    apply bind_ret_inv in H as (idss' & wb & Hr & H).
    inversion H; subst; clear H.
    apply trigger_workflow_spec in Hw as (n1 & Ha1 & _ & Hok1).
    destruct (Hok1 _ eq_refl) as [HF _].
    apply (created_rows_of_invoice _ (invoice_id i)) in HF.
    rewrite (rows_of_invoice w1 (db w) i c Hni Hnc Hi Hc Hj) in HF.
    destruct (appended_tables _ _ _ Ha1) as (_ & Ei & Ec).
    destruct (IH wa _ _ Hr) as (n2 & Ha2 & Hcov2 & Hnone2 & Hsome2);
      try (rewrite ?Ei, ?Ec; assumption).
    assert (Hcov_a : already_in_workflow (db wa) (invoice_id i)
                     = already_in_workflow (db w) (invoice_id i)
                       || covers n1 (invoice_id i)).
    { rewrite !already_in_workflow_covers. destruct Ha1 as [_ ->]. apply covers_app. }
    exists (n1 ++ n2). split; [exact (appended_trans _ _ _ _ _ Ha1 Ha2)|].
    rewrite filter_app. repeat split.
    + intros Hcov. rewrite Hcov, andb_false_r in HF.
      apply Forall2_nil_l in HF. rewrite HF.
      rewrite Hcov2; [reflexivity|]. rewrite Hcov_a, Hcov. reflexivity.
    + simpl. destruct (trigger_matches w1 i c) eqn:Ht; [discriminate|].
      intros Hf. cbn in HF. apply Forall2_nil_l in HF. rewrite HF.
      now rewrite Hnone2.
    + intros Hcov wf Hf. simpl in Hf. rewrite Hcov in HF.
      destruct (trigger_matches w1 i c) eqn:Ht.
      * inversion Hf; subst wf; clear Hf. cbn in HF.
        apply Forall2_single_l in HF as (inst & E & Hm).
        exists inst. split; [|assumption]. rewrite E.
        rewrite Hcov2; [reflexivity|]. rewrite Hcov_a, Hcov. simpl.
        destruct (created_for_covers _ _ _ Hm) as (Hact & Hinv & _).
        apply (covers_In _ _ inst); try assumption.
        assert (Hin : In inst (filter (for_invoice (invoice_id i)) n1))
          by (rewrite E; now left).
        now apply filter_In in Hin.
      * cbn in HF. apply Forall2_nil_l in HF.
        destruct (Hsome2) with (wf := wf) as (inst & Hfl & Hm); try assumption.
        -- rewrite Hcov_a, Hcov. simpl. now apply no_instance_not_covered.
        -- exists inst. now rewrite HF.
Qed.

End ScanOfOneInvoice.

(** *** Frame of an execution run *)

Lemma id_eqb_eq a b : id_eqb a b = true <-> a = b.
Proof.
  unfold id_eqb. rewrite !andb_true_iff, !Z.eqb_eq. destruct a, b; cbn.
  split; [intros [[-> ->] ->]; reflexivity|intros E; inversion E; auto].
Qed.

Lemma id_eqb_refl a : id_eqb a a = true.
Proof. now apply id_eqb_eq. Qed.

Lemma same_except_refl ids l : same_except ids l l.
Proof. induction l; constructor; auto. Qed.

Lemma same_except_trans ids l1 l2 l3 :
  same_except ids l1 l2 -> same_except ids l2 l3 -> same_except ids l1 l3.
Proof.
  intros H. revert l3. induction H as [|a b l1 l2 [Hid Hab] _ IH]; intros l3 H3.
  - inversion H3. constructor.
  - inversion H3 as [|? c ? l3' [Hid' Hbc] H3']; subst. constructor.
    + split; [congruence|]. intros Hn. rewrite (Hab Hn). apply Hbc.
      rewrite <- Hid. exact Hn.
    + now apply IH.
Qed.

Lemma same_except_weaken ids ids' l l' :
  incl ids ids' -> same_except ids l l' -> same_except ids' l l'.
Proof.
  intros Hi H. eapply Forall2_impl; [|exact H].
  intros a b [Hid Hab]. split; [assumption|]. intros Hn. apply Hab.
  intros Hin. apply Hn. now apply Hi.
Qed.

Lemma same_except_ids ids l l' :
  same_except ids l l' -> map instance_id l' = map instance_id l.
Proof. induction 1 as [|a b l l' [Hid _] _ IH]; simpl; congruence. Qed.

Lemma same_except_nth ids l l' k a :
  same_except ids l l' -> nth_error l k = Some a ->
  exists b, nth_error l' k = Some b /\ instance_id a = instance_id b
            /\ (~ In (instance_id a) ids -> a = b).
Proof.
  intros H. revert k. induction H as [|x y l l' Hxy _ IH]; intros k Hk.
  - destruct k; discriminate.
  - destruct k as [|k]; simpl in *.
    + inversion Hk; subst. exists y. split; [reflexivity|assumption].
    + now apply IH.
Qed.

Lemma same_except_nil l l' : same_except [] l l' -> l = l'.
Proof.
  induction 1 as [|a b l l' [_ Hab] _ IH]; [reflexivity|].
  rewrite (Hab (fun H => H)). now rewrite IH.
Qed.

Lemma same_except_update id f l :
  (forall i, instance_id (f i) = instance_id i) ->
  same_except [id] l (update_where (has_id id) f l).
Proof.
  intros Hf. induction l as [|a l IH]; simpl; constructor; [|assumption].
  unfold has_id. destruct (id_eqb (instance_id a) id) eqn:E.
  - split; [now rewrite Hf|]. intros Hn. exfalso. apply Hn. left.
    symmetry. now apply id_eqb_eq.
  - split; reflexivity.
Qed.

Lemma evolves_refl ids d : evolves ids d d.
Proof. repeat split. apply same_except_refl. Qed.

Lemma evolves_trans ids d1 d2 d3 :
  evolves ids d1 d2 -> evolves ids d2 d3 -> evolves ids d1 d3.
Proof.
  intros (A1 & B1 & C1 & D1 & E1) (A2 & B2 & C2 & D2 & E2).
  repeat split; try congruence. eapply same_except_trans; eassumption.
Qed.

Lemma evolves_weaken ids ids' d d' :
  incl ids ids' -> evolves ids d d' -> evolves ids' d d'.
Proof.
  intros Hi (A & B & C & D & E). repeat split; try assumption.
  eapply same_except_weaken; eassumption.
Qed.

Lemma preserves_ret {A} ids (a : A) : preserves ids (ret a).
Proof. intros w o w' H. inversion H. split; [apply evolves_refl|lia]. Qed.

Lemma preserves_raise {A} ids e : preserves ids (@raise A e).
Proof. intros w o w' H. inversion H. split; [apply evolves_refl|lia]. Qed.

Lemma preserves_get_db ids : preserves ids get_db.
Proof. intros w o w' H. inversion H. split; [apply evolves_refl|lia]. Qed.

Lemma preserves_now clk ids : preserves ids (now clk).
Proof. intros w o w' H. inversion H. split; [apply evolves_refl|cbn; lia]. Qed.

Lemma preserves_modify ids f :
  (forall d, evolves ids d (f d)) -> preserves ids (modify_db f).
Proof. intros Hf w o w' H. inversion H. split; [apply Hf|cbn; lia]. Qed.

Lemma preserves_bind {A B} ids (m : M A) (k : A -> M B) :
  preserves ids m -> (forall a, preserves ids (k a)) -> preserves ids (bind m k).
Proof.
  intros Hm Hk w o w' H.
  apply bind_inv in H as [(a & w1 & H1 & H2)|(e & H1 & _)].
  - destruct (Hm _ _ _ H1) as [E1 R1], (Hk _ _ _ _ H2) as [E2 R2].
    split; [eapply evolves_trans; eassumption|lia].
  - exact (Hm _ _ _ H1).
Qed.

Lemma preserves_try {A} ids (m : M A) : preserves ids m -> preserves ids (try m).
Proof.
  intros Hm w o w' H. unfold try in H.
  destruct (m w) as [[a|e] w1] eqn:E; inversion H; subst; exact (Hm _ _ _ E).
Qed.

Lemma preserves_weaken {A} ids ids' (m : M A) :
  incl ids ids' -> preserves ids m -> preserves ids' m.
Proof.
  intros Hi Hm w o w' H. destruct (Hm _ _ _ H) as [E R].
  split; [eapply evolves_weaken; eassumption|assumption].
Qed.

Lemma evolves_insert_activity ids a d : evolves ids d (insert_activity a d).
Proof. repeat split. apply same_except_refl. Qed.

Lemma evolves_insert_log ids e d : evolves ids d (insert_log e d).
Proof. repeat split. apply same_except_refl. Qed.

Lemma evolves_insert_credit_event ids e d : evolves ids d (insert_credit_event e d).
Proof. repeat split. apply same_except_refl. Qed.

Lemma evolves_hold ids stamp cid d :
  evolves ids d
    (with_customers (update_where (fun c => customer_id c =? cid) (hold stamp)) d).
Proof.
  repeat split; [|apply same_except_refl]. cbn. unfold update_where.
  rewrite map_map. apply map_ext. intros c. now destruct (customer_id c =? cid).
Qed.

Lemma evolves_update_instance id f d :
  (forall i, instance_id (f i) = instance_id i) ->
  evolves [id] d (with_instances (update_where (has_id id) f) d).
Proof. intros Hf. repeat split. now apply same_except_update. Qed.

Create HintDb frame.

#[local] Hint Resolve preserves_ret preserves_raise preserves_get_db preserves_now
  evolves_insert_activity evolves_insert_log evolves_insert_credit_event
  evolves_hold : frame.

Ltac frame :=
  repeat first
    [ apply preserves_ret | apply preserves_raise | apply preserves_get_db
    | apply preserves_now
    | apply preserves_modify; intros; auto with frame
    | apply preserves_bind; [|intros]
    | match goal with
      | |- preserves _ (match ?x with _ => _ end) => destruct x
      | |- preserves _ (if ?b then _ else _) => destruct b
      end ].

Section ExecutionFrame.

Variable clk : nat -> Z.

Lemma preserves_execute_action ids action cid inv template assigned :
  preserves ids (_execute_action clk action cid inv template assigned).
Proof.
  unfold _execute_action, _send_email_reminder, _schedule_phone_call,
    _generate_dunning_letter, _apply_credit_hold, _create_legal_referral,
    _escalate_case, unpack.
  frame.
Qed.

Lemma preserves_execute_workflow_instance id :
  preserves [id] (_execute_workflow_instance clk id).
Proof.
  unfold _execute_workflow_instance, _mark_instance_completed.
  apply preserves_bind; [frame|]. intros d.
  destruct (instance_data d id) as [[[[wid cid] inv] cur]|]; [|frame].
  destruct (step_data d wid (cur + 1)) as [s|].
  - apply preserves_bind; [frame|]. intros t0.
    apply preserves_bind; [apply preserves_execute_action|]. intros r.
    frame. now apply evolves_update_instance.
  - frame. now apply evolves_update_instance.
Qed.

Lemma preserves_execute_instance res id :
  preserves [id] (execute_instance clk res id).
Proof.
  unfold execute_instance, _mark_instance_failed.
  apply preserves_bind; [apply preserves_try, preserves_execute_workflow_instance|].
  intros [r|e]; frame. now apply evolves_update_instance.
Qed.

Lemma preserves_execute_loop ids : forall res,
  preserves ids (fold_m (execute_instance clk) ids res).
Proof.
  induction ids as [|id ids IH]; intros res; simpl; [frame|].
  apply preserves_bind.
  - eapply preserves_weaken; [|apply preserves_execute_instance].
    intros x [<-|[]]. now left.
  - intros res'. eapply preserves_weaken; [|apply IH].
    intros x Hx. now right.
Qed.

(** The loop body catches every exception, so a run always returns. *)
Lemma execute_instance_returns res id w :
  exists res' w', execute_instance clk res id w = (Ret res', w').
Proof.
  unfold execute_instance, bind, try, _mark_instance_failed, modify_db, ret.
  destruct (_execute_workflow_instance clk id w) as [[r|e] w1]; eauto.
Qed.

Lemma execute_loop_returns ids : forall res w,
  exists res' w', fold_m (execute_instance clk) ids res w = (Ret res', w').
Proof.
  induction ids as [|id ids IH]; intros res w; simpl.
  - unfold ret. eauto.
  - unfold bind. destruct (execute_instance_returns res id w) as (r1 & w1 & ->).
    apply IH.
Qed.

End ExecutionFrame.

(** *** Instances that a run does not select *)

Lemma not_due_not_selected d t inst :
  unique_instance_ids d ->
  In inst (workflow_instances d) -> is_due t inst = false ->
  ~ In (instance_id inst) (map instance_id (pending_instances d t)).
Proof.
  intros Hnd Hin Hdue H. apply in_map_iff in H as (y & Hid & Hy).
  unfold pending_instances in Hy. apply order_by_In in Hy.
  apply filter_In in Hy as [Hy Hdy].
  rewrite (NoDup_map_In_eq _ _ _ _ Hnd Hy Hin Hid) in Hdy. congruence.
Qed.

Section Persistence.

Variable clk : nat -> Z.

(** A run returns, keeps the ids of the instance table, and leaves every
    row that is not PENDING and due exactly as it is. *)
Lemma execute_pending_frame w :
  unique_instance_ids (db w) ->
  exists res w',
    execute_pending_workflows clk w = (Ret res, w')
    /\ unique_instance_ids (db w')
    /\ evolves (map instance_id (pending_instances (db w) (clk (reads w))))
               (db w) (db w')
    /\ forall k inst,
         nth_error (workflow_instances (db w)) k = Some inst ->
         is_due (clk (reads w)) inst = false ->
         nth_error (workflow_instances (db w')) k = Some inst.
Proof.
  intros Hnd. unfold execute_pending_workflows, bind, now, get_db. cbn [db reads].
  set (ids := map instance_id (pending_instances (db w) (clk (reads w)))).
  destruct (execute_loop_returns clk ids (mkResults 0 0 0 [])
              (mkWorld (db w) (S (reads w)))) as (res & w' & E).
  exists res, w'. split; [exact E|].
  destruct (preserves_execute_loop clk ids _ _ _ _ E) as [Hev _]. cbn [db] in Hev.
  assert (Hse := Hev). destruct Hse as (_ & _ & _ & _ & Hse).
  split; [|split; [exact Hev|]].
  - unfold unique_instance_ids. now rewrite (same_except_ids _ _ _ Hse).
  - intros k inst Hk Hdue.
    destruct (same_except_nth _ _ _ _ _ Hse Hk) as (b & Hb & _ & Hab).
    rewrite Hb, <- Hab; [reflexivity|].
    apply not_due_not_selected; try assumption.
    eapply nth_error_In; eassumption.
Qed.

Lemma create_keeps_unique wid cid inv w o w' :
  _create_workflow_instance clk wid cid inv w = (o, w') ->
  unique_instance_ids (db w) -> unique_instance_ids (db w').
Proof.
  unfold _create_workflow_instance, bind, now, get_db, modify_db, ret, raise.
  cbn [db reads].
  destruct (existsb _ _) eqn:E; intros H Hnd; inversion H; subst; clear H;
    [assumption|].
  unfold unique_instance_ids. cbn. rewrite map_app. cbn.
  apply NoDup_app; [assumption|repeat constructor; intros []|].
  intros id Hin [<-|[]].
  apply in_map_iff in Hin as (y & Hid & Hy).
  assert (existsb (fun i => id_eqb (instance_id i)
            (mkId wid cid (stamp_of (clk (reads w))))) (workflow_instances (db w)) = true).
  { apply existsb_exists. exists y. split; [assumption|]. now apply id_eqb_eq. }
  congruence.
Qed.

Lemma map_m_keeps {A B} (P : DB -> Prop) (f : A -> M B) l :
  (forall x w o w', f x w = (o, w') -> P (db w) -> P (db w')) ->
  forall w o w', map_m f l w = (o, w') -> P (db w) -> P (db w').
Proof.
  intros Hf. induction l as [|x l IH]; intros w o w' H HP; simpl in H.
  - now inversion H; subst.
  - apply bind_inv in H as [(y & w1 & H1 & H)|(e & H1 & _)];
      [|exact (Hf _ _ _ _ H1 HP)].
    apply bind_inv in H as [(ys & w2 & H2 & H)|(e & H2 & _)].
    + inversion H; subst. exact (IH _ _ _ H2 (Hf _ _ _ _ H1 HP)).
    + exact (IH _ _ _ H2 (Hf _ _ _ _ H1 HP)).
Qed.

Lemma scan_keeps_unique w o w' :
  trigger_workflows clk w = (o, w') ->
  unique_instance_ids (db w) -> unique_instance_ids (db w').
Proof.
  unfold trigger_workflows. intros H Hnd.
  apply bind_inv in H as [(d & w1 & Hg & H)|(e & Hg & _)]; [|now inversion Hg; subst].
  inversion Hg; subst; clear Hg.
  assert (Hm : forall o1 w2, map_m (trigger_workflow clk) (active_workflows (db w1)) w1
                          = (o1, w2) -> unique_instance_ids (db w2)).
  { intros o1 w2 Hs. revert Hs Hnd. apply map_m_keeps.
    intros wf wa oa wb Hw. unfold trigger_workflow in Hw.
    apply bind_inv in Hw as [(d & wc & Hg & Hw)|(e & Hg & _)]; [|now inversion Hg; subst].
    inversion Hg; subst; clear Hg. revert Hw. apply map_m_keeps.
    intros row. apply create_keeps_unique. }
  apply bind_inv in H as [(idss & w2 & Hs & H)|(e & Hs & _)].
  - inversion H; subst. exact (Hm _ _ Hs).
  - exact (Hm _ _ Hs).
Qed.

Lemma scan_keeps_rows w o w' k inst :
  trigger_workflows clk w = (o, w') ->
  nth_error (workflow_instances (db w)) k = Some inst ->
  nth_error (workflow_instances (db w')) k = Some inst.
Proof.
  unfold trigger_workflows. intros H Hk.
  assert (Hm : forall o1 w2, map_m (trigger_workflow clk) (active_workflows (db w)) w
                          = (o1, w2) ->
               nth_error (workflow_instances (db w2)) k = Some inst).
  { intros o1 w2 Hs. apply scan_spec in Hs as (news & [_ ->] & _).
    rewrite nth_error_app1; [assumption|].
    apply nth_error_Some. congruence. }
  apply bind_inv in H as [(d & w1 & Hg & H)|(e & Hg & _)]; [|now inversion Hg; subst].
  inversion Hg; subst; clear Hg.
  apply bind_inv in H as [(idss & w2 & Hs & H)|(e & Hs & _)].
  - inversion H; subst. exact (Hm _ _ Hs).
  - exact (Hm _ _ Hs).
Qed.

(** A row whose status is not PENDING is left as it is by every sequence of
    scans and execution runs. *)
Lemma not_pending_persists ops : forall w o w' k inst,
  run_operations clk ops w = (o, w') ->
  unique_instance_ids (db w) ->
  nth_error (workflow_instances (db w)) k = Some inst ->
  status inst <> PENDING ->
  nth_error (workflow_instances (db w')) k = Some inst.
Proof.
  induction ops as [|op ops IH]; intros w o w' k inst H Hnd Hk Hst; simpl in H.
  - now inversion H; subst.
  - assert (Hop : forall o1 w1, run_operation clk op w = (o1, w1) ->
              unique_instance_ids (db w1)
              /\ nth_error (workflow_instances (db w1)) k = Some inst).
    { intros o1 w1 H1. destruct op; simpl in H1.
      - unfold bind, try, ret in H1.
        destruct (trigger_workflows clk w) as [[ids|e] w2] eqn:E;
          inversion H1; subst; split;
          solve [eapply scan_keeps_unique; eassumption
                |eapply scan_keeps_rows; eassumption].
      - destruct (execute_pending_frame w Hnd) as (res & w2 & E & Hnd2 & _ & Hfr).
        unfold bind, ret in H1. rewrite E in H1. inversion H1; subst.
        split; [assumption|]. apply Hfr; [assumption|].
        unfold is_due. destruct (status inst); try reflexivity. contradiction. }
    apply bind_inv in H as [(u & w1 & H1 & H)|(e & H1 & _)].
    + destruct (Hop _ _ H1) as [Hnd1 Hk1]. exact (IH _ _ _ _ _ H Hnd1 Hk1 Hst).
    + exact (proj2 (Hop _ _ H1)).
Qed.

End Persistence.

(** *** The outcome of executing one instance *)

Lemma action_outcome clk a cid inv t asg w o w' :
  _execute_action clk a cid inv t asg w = (o, w') ->
  if needs_customer_data a
  then match customer_data (db w) cid with
       | None => o = Raise TypeError_unpack_None /\ w' = w
       | Some _ => exists r, o = Ret r
       end
  else exists r, o = Ret r.
Proof.
  unfold _execute_action, needs_customer_data.
  unfold _send_email_reminder, _schedule_phone_call, _generate_dunning_letter,
    _apply_credit_hold, _create_legal_referral, _escalate_case, unpack,
    bind, now, get_db, modify_db, ret, raise.
  cbn [db reads].
  destruct (String.eqb a "EMAIL_REMINDER") eqn:E1.
  { cbn [orb]. destruct (customer_data (db w) cid) as [[[[n m] ph] os]|];
      intros H; inversion H; eauto. }
  destruct (String.eqb a "PHONE_CALL") eqn:E2.
  { cbn [orb]. destruct (customer_data (db w) cid) as [[[[n m] ph] os]|];
      intros H; inversion H; eauto. }
  destruct (String.eqb a "DUNNING_LETTER") eqn:E3.
  { cbn [orb]. destruct (customer_data (db w) cid) as [[[[n m] ph] os]|];
      intros H; inversion H; eauto. }
  destruct (String.eqb a "CREDIT_HOLD") eqn:E4.
  { apply String.eqb_eq in E4. subst a. cbn. intros H; inversion H; eauto. }
  destruct (String.eqb a "LEGAL_REFERRAL") eqn:E5.
  { cbn [orb]. destruct (customer_data (db w) cid) as [[[[n m] ph] os]|];
      intros H; inversion H; eauto. }
  cbn [orb]. destruct (String.eqb a "ESCALATION"); intros H; inversion H; eauto.
Qed.

Lemma instance_data_row d inst x :
  unique_instance_ids d -> In inst (workflow_instances d) ->
  instance_data d (instance_id inst) = Some x -> x = row_data inst.
Proof.
  intros Hnd Hin H. apply hd_error_In in H.
  apply in_flat_map in H as (wi & Hwi & H).
  apply in_flat_map in H as (cw & _ & H).
  destruct (has_id (instance_id inst) wi && _) eqn:E; [|contradiction].
  destruct H as [<-|[]].
  apply andb_prop in E as [E _]. apply id_eqb_eq in E.
  now rewrite (NoDup_map_In_eq _ _ _ _ Hnd Hwi Hin E).
Qed.

Lemma instance_data_stable ids d d' id :
  collection_workflows d' = collection_workflows d ->
  same_except ids (workflow_instances d) (workflow_instances d') ->
  ~ In id ids ->
  instance_data d' id = instance_data d id.
Proof.
  intros Hw Hs Hn. unfold instance_data. rewrite Hw. f_equal.
  induction Hs as [|a b l l' [Hid Hab] _ IH]; [reflexivity|].
  simpl. rewrite IH. f_equal.
  destruct (has_id id a) eqn:E.
  - assert (a = b) as <-.
    { apply Hab. apply id_eqb_eq in E. congruence. }
    now rewrite E.
  - assert (E' : has_id id b = false) by (unfold has_id in *; congruence).
    rewrite !flat_map_all_nil; try reflexivity; intros cw _;
      rewrite ?E'; reflexivity.
Qed.

Lemma customer_data_none d cid :
  customer_data d cid = None <-> ~ In cid (map customer_id (customers d)).
Proof.
  unfold customer_data.
  destruct (find _ (customers d)) as [c|] eqn:E.
  - split; [discriminate|]. intros Hn. exfalso. apply Hn.
    apply find_some in E as [Hin Hc]. apply Z.eqb_eq in Hc. subst cid.
    now apply in_map.
  - split; [|reflexivity]. intros _ Hin.
    apply in_map_iff in Hin as (c & Hc & Hin).
    pose proof (find_none _ _ E c Hin) as F. cbn in F.
    apply Z.eqb_neq in F. congruence.
Qed.

Lemma step_exception_stable ids d d' id :
  evolves ids d d' -> ~ In id ids ->
  step_exception d' id = step_exception d id.
Proof.
  intros (Hw & Hs & _ & Hc & Hi) Hn. unfold step_exception.
  rewrite (instance_data_stable ids d d' id Hw Hi Hn).
  destruct (instance_data d id) as [[[[wid cid] inv] cur]|]; [|reflexivity].
  unfold step_data. rewrite Hs.
  destruct (find _ (workflow_steps d)) as [s|]; [|reflexivity].
  destruct (needs_customer_data (action_type s)); [|reflexivity].
  destruct (customer_data d cid) eqn:E, (customer_data d' cid) eqn:E';
    try reflexivity; exfalso.
  - apply customer_data_none in E'. rewrite Hc in E'.
    apply customer_data_none in E'. congruence.
  - apply customer_data_none in E. rewrite <- Hc in E.
    apply customer_data_none in E. congruence.
Qed.

Section StepOutcome.

Variable clk : nat -> Z.

(** [step_exception] tells whether the call raises; a call that raises has
    written nothing. *)
Lemma execute_outcome id w o w' :
  _execute_workflow_instance clk id w = (o, w') ->
  match step_exception (db w) id with
  | Some e => o = Raise e /\ db w' = db w
  | None => exists r, o = Ret r
  end.
Proof.
  unfold _execute_workflow_instance, step_exception.
  unfold bind at 1, get_db.
  destruct (instance_data (db w) id) as [[[[wid cid] inv] cur]|];
    [|intros H; inversion H; auto].
  destruct (step_data (db w) wid (cur + 1)) as [s|].
  - unfold bind at 1, now. unfold bind at 1.
    destruct (_execute_action clk _ _ _ _ _ _) as [[r|e] w2] eqn:Ea;
      apply action_outcome in Ea; cbn [db] in Ea.
    + unfold bind, now, modify_db, get_db, ret. intros H. inversion H.
      destruct (needs_customer_data (action_type s)); [|eauto].
      destruct (customer_data (db w) cid); [eauto|]. destruct Ea. discriminate.
    + intros H. inversion H; subst.
      destruct (needs_customer_data (action_type s));
        [|destruct Ea; discriminate].
      destruct (customer_data (db w) cid); [destruct Ea; discriminate|].
      destruct Ea as [Ee ->]. inversion Ee. auto.
  - unfold _mark_instance_completed, bind, now, modify_db, ret.
    intros H. inversion H. eauto.
Qed.

Lemma next_scheduled_delay s t :
  (if truthy_int (delay_days s)
   then match delay_days s with Some n => t + days n | None => t end
   else t) = t + days (delay_of s).
Proof.
  unfold delay_of, truthy_int, days. destruct (delay_days s) as [n|]; [|lia].
  destruct (Z.eqb_spec n 0) as [->|_]; cbn; lia.
Qed.

(** A call that finds a step and whose action returns: the row of the
    instance is advanced by [set_advanced], with the delay of the step that
    was executed. *)
Lemma execute_step_spec w o w' k inst s :
  unique_instance_ids (db w) ->
  nth_error (workflow_instances (db w)) k = Some inst ->
  step_exception (db w) (instance_id inst) = None ->
  step_data (db w) (wi_workflow_id inst) (current_step inst + 1) = Some s ->
  _execute_workflow_instance clk (instance_id inst) w = (o, w') ->
  exists r1 r2 ms,
    (reads w <= r1 < r2)%nat /\ (r2 < reads w')%nat
    /\ o = Ret (success (action_type s) (clk r1 + days (delay_of s)) ms)
    /\ nth_error (workflow_instances (db w')) k
       = Some (set_advanced (current_step inst + 1) (clk r1 + days (delay_of s)) (clk r2)
                 (max_step_order (db w) (wi_workflow_id inst)) inst).
Proof.
  intros Hnd Hk Hexc Hstep. unfold step_exception in Hexc.
  unfold _execute_workflow_instance. unfold bind at 1, get_db.
  destruct (instance_data (db w) (instance_id inst)) as [x|] eqn:Ed; [|discriminate].
  rewrite (instance_data_row _ _ _ Hnd (nth_error_In _ _ Hk) Ed) in *.
  unfold row_data in *. rewrite Hstep in *.
  unfold bind at 1, now. unfold bind at 1. cbn [db reads].
  destruct (_execute_action clk _ _ _ _ _ _) as [[r|e] w2] eqn:Ea.
  - destruct (preserves_execute_action clk [] _ _ _ _ _ _ _ _ Ea)
      as [(_ & Hs & _ & _ & Hi) Hr]. cbn [db reads] in *.
    apply same_except_nil in Hi.
    unfold bind, now, modify_db, get_db, ret. cbn [db reads].
    intros H. inversion H; subst; clear H. cbn [db reads workflow_instances with_instances insert_log].
    exists (S (reads w2)), (S (S (reads w2))). eexists.
    split; [lia|]. split; [lia|]. rewrite next_scheduled_delay. split; [reflexivity|].
    rewrite <- Hi. rewrite (nth_error_update_where _ _ _ _ _ Hk).
    unfold has_id. rewrite id_eqb_refl.
    unfold max_step_order. cbn [workflow_steps insert_log]. now rewrite Hs.
  - apply action_outcome in Ea. cbn [db] in Ea.
    destruct (needs_customer_data (action_type s)).
    + destruct (customer_data (db w) (wi_customer_id inst)); [|discriminate].
      destruct Ea; discriminate.
    + destruct Ea; discriminate.
Qed.

End StepOutcome.

(** *** The turn of one instance within a run *)

Lemma pending_ids_NoDup d t :
  unique_instance_ids d -> NoDup (map instance_id (pending_instances d t)).
Proof.
  intros H. unfold pending_instances.
  eapply Permutation_NoDup.
  - apply Permutation_map. apply order_by_perm.
  - now apply NoDup_map_filter.
Qed.

Lemma fold_m_app {A S} (f : S -> A -> M S) l1 l2 s w :
  fold_m f (l1 ++ l2) s w = bind (fold_m f l1 s) (fold_m f l2) w.
Proof.
  revert s w. induction l1 as [|x l1 IH]; intros s w; simpl; [reflexivity|].
  unfold bind. destruct (f s x w) as [[s'|e] w1]; [|reflexivity].
  now rewrite IH.
Qed.

Section Turn.

Variable clk : nat -> Z.

(** When the run reaches a due instance, the rows and tables that decide
    its step are those of the start of the run; what the loop body leaves in
    the row is what the run leaves in it. *)
Lemma run_turn w res w' k inst :
  unique_instance_ids (db w) ->
  nth_error (workflow_instances (db w)) k = Some inst ->
  is_due (clk (reads w)) inst = true ->
  execute_pending_workflows clk w = (Ret res, w') ->
  exists res1 w1 res2 w2 ids,
    execute_instance clk res1 (instance_id inst) w1 = (Ret res2, w2)
    /\ evolves ids (db w) (db w1) /\ ~ In (instance_id inst) ids
    /\ (reads w < reads w1)%nat /\ (reads w2 <= reads w')%nat
    /\ nth_error (workflow_instances (db w1)) k = Some inst
    /\ nth_error (workflow_instances (db w')) k
       = nth_error (workflow_instances (db w2)) k.
Proof.
  intros Hnd Hk Hdue H.
  unfold execute_pending_workflows, bind, now, get_db in H. cbn [db reads] in H.
  pose proof (pending_ids_NoDup (db w) (clk (reads w)) Hnd) as Hids.
  assert (Hin : In (instance_id inst)
                   (map instance_id (pending_instances (db w) (clk (reads w))))).
  { apply in_map. unfold pending_instances. apply order_by_In.
    apply filter_In. split; [eapply nth_error_In; eassumption|assumption]. }
  apply in_split in Hin as (pre & post & E). rewrite E in H, Hids.
  apply NoDup_remove_2 in Hids.
  assert (Hpre : ~ In (instance_id inst) pre)
    by (intros F; apply Hids; apply in_or_app; now left).
  assert (Hpost : ~ In (instance_id inst) post)
    by (intros F; apply Hids; apply in_or_app; now right).
  rewrite fold_m_app in H.
  apply bind_ret_inv in H as (res1 & w1 & H1 & H). simpl in H.
  apply bind_ret_inv in H as (res2 & w2 & H2 & H3).
  destruct (preserves_execute_loop clk pre _ _ _ _ H1) as [Ev1 R1].
  destruct (preserves_execute_loop clk post _ _ _ _ H3) as [Ev3 R3].
  cbn [db reads] in Ev1, R1.
  exists res1, w1, res2, w2, pre.
  split; [assumption|]. split; [assumption|]. split; [assumption|].
  split; [lia|]. split; [assumption|].
  assert (Hk1 : nth_error (workflow_instances (db w1)) k = Some inst).
  { destruct Ev1 as (_ & _ & _ & _ & Hs).
    destruct (same_except_nth _ _ _ _ _ Hs Hk) as (b & Hb & _ & Hab).
    now rewrite Hb, <- (Hab Hpre). }
  split; [assumption|].
  destruct (preserves_execute_instance clk res1 _ _ _ _ H2) as [(_ & _ & _ & _ & Hs2) _].
  destruct (same_except_nth _ _ _ _ _ Hs2 Hk1) as (b & Hb & Hid & _).
  destruct Ev3 as (_ & _ & _ & _ & Hs3).
  destruct (same_except_nth _ _ _ _ _ Hs3 Hb) as (c & Hc & _ & Hbc).
  rewrite Hb, Hc. f_equal. symmetry. apply Hbc. now rewrite <- Hid.
Qed.

(** The run on one due instance whose step raises. *)
Lemma run_failed_step w res w' k inst e :
  unique_instance_ids (db w) ->
  nth_error (workflow_instances (db w)) k = Some inst ->
  is_due (clk (reads w)) inst = true ->
  step_exception (db w) (instance_id inst) = Some e ->
  execute_pending_workflows clk w = (Ret res, w') ->
  nth_error (workflow_instances (db w')) k = Some (set_failed e inst).
Proof.
  intros Hnd Hk Hdue He H.
  destruct (run_turn _ _ _ _ _ Hnd Hk Hdue H)
    as (res1 & w1 & res2 & w2 & ids & H2 & Ev & Hn & _ & _ & Hk1 & ->).
  rewrite <- (step_exception_stable _ _ _ _ Ev Hn) in He.
  unfold execute_instance, bind, try in H2.
  destruct (_execute_workflow_instance clk (instance_id inst) w1) as [o wa] eqn:Ex.
  apply execute_outcome in Ex. rewrite He in Ex. destruct Ex as [-> Edb].
  unfold _mark_instance_failed, modify_db, ret in H2.
  inversion H2; subst; clear H2. cbn [db workflow_instances with_instances].
  rewrite Edb. rewrite (nth_error_update_where _ _ _ _ _ Hk1).
  unfold has_id. now rewrite id_eqb_refl.
Qed.

(** The run on one due instance whose next step exists and returns. *)
Lemma run_executed_step w res w' k inst s :
  unique_instance_ids (db w) ->
  nth_error (workflow_instances (db w)) k = Some inst ->
  is_due (clk (reads w)) inst = true ->
  step_exception (db w) (instance_id inst) = None ->
  step_data (db w) (wi_workflow_id inst) (current_step inst + 1) = Some s ->
  execute_pending_workflows clk w = (Ret res, w') ->
  exists r1 r2,
    (reads w < r1 < r2)%nat /\ (r2 < reads w')%nat
    /\ nth_error (workflow_instances (db w')) k
       = Some (set_advanced (current_step inst + 1) (clk r1 + days (delay_of s)) (clk r2)
                 (max_step_order (db w) (wi_workflow_id inst)) inst).
Proof.
  intros Hnd Hk Hdue He Hs H.
  destruct (run_turn _ _ _ _ _ Hnd Hk Hdue H)
    as (res1 & w1 & res2 & w2 & ids & H2 & Ev & Hn & R1 & R2 & Hk1 & ->).
  rewrite <- (step_exception_stable _ _ _ _ Ev Hn) in He.
  assert (Hnd1 : unique_instance_ids (db w1)).
  { destruct Ev as (_ & _ & _ & _ & Hse). unfold unique_instance_ids.
    now rewrite (same_except_ids _ _ _ Hse). }
  assert (Hsteps : workflow_steps (db w1) = workflow_steps (db w)) by apply Ev.
  assert (Hs1 : step_data (db w1) (wi_workflow_id inst) (current_step inst + 1) = Some s)
    by (unfold step_data in *; now rewrite Hsteps).
  unfold execute_instance, bind, try in H2.
  destruct (_execute_workflow_instance clk (instance_id inst) w1) as [o wa] eqn:Ex.
  destruct (execute_step_spec clk _ _ _ _ _ _ Hnd1 Hk1 He Hs1 Ex)
    as (r1 & r2 & ms & Hr & Hr' & -> & Hrow).
  unfold ret in H2. inversion H2; subst; clear H2.
  exists r1, r2. split; [lia|]. split; [lia|].
  rewrite Hrow. unfold max_step_order. now rewrite Hsteps.
Qed.

Lemma execute_loop_reports ids : forall res w res' w',
  fold_m (execute_instance clk) ids res w = (Ret res', w') ->
  map fst (res_instances res') = map fst (res_instances res) ++ ids.
Proof.
  induction ids as [|id ids IH]; intros res w res' w' H; simpl in H.
  - inversion H; subst. now rewrite app_nil_r.
  - apply bind_ret_inv in H as (r1 & w1 & H1 & H).
    rewrite (IH _ _ _ _ H).
    assert (map fst (res_instances r1) = map fst (res_instances res) ++ [id]) as ->.
    { unfold execute_instance, bind, try, _mark_instance_failed, modify_db, ret in H1.
      destruct (_execute_workflow_instance clk id w) as [[r|e] wa];
        inversion H1; subst; cbn; now rewrite map_app. }
    now rewrite <- app_assoc.
Qed.

End Turn.

(** *** The last step of a definition *)

Lemma max_step_order_spec d wid :
  match max_step_order d wid with
  | None => forall s, In s (workflow_steps d) -> ws_workflow_id s <> wid
  | Some m =>
      (exists s, In s (workflow_steps d) /\ ws_workflow_id s = wid /\ step_order s = m)
      /\ (forall s, In s (workflow_steps d) -> ws_workflow_id s = wid -> step_order s <= m)
  end.
Proof.
  unfold max_step_order.
  set (F := fun acc s =>
              if ws_workflow_id s =? wid
              then match acc with
                   | Some m => Some (Z.max m (step_order s))
                   | None => Some (step_order s)
                   end
              else acc).
  assert (G : forall l acc,
    match fold_left F l acc with
    | None => acc = None /\ forall s, In s l -> ws_workflow_id s <> wid
    | Some m =>
        (acc = Some m \/ exists s, In s l /\ ws_workflow_id s = wid /\ step_order s = m)
        /\ (forall a, acc = Some a -> a <= m)
        /\ (forall s, In s l -> ws_workflow_id s = wid -> step_order s <= m)
    end).
  { induction l as [|x l IH]; intros acc; simpl.
    - destruct acc as [a|].
      + split; [now left|]. split; [intros b E; inversion E; lia|intros s []].
      + split; [reflexivity|intros s []].
    - specialize (IH (F acc x)). destruct (fold_left F l (F acc x)) as [m|].
      + destruct IH as (Hex & Hacc & Hall). unfold F in Hex, Hacc.
        destruct (Z.eqb_spec (ws_workflow_id x) wid) as [Ex|Ex].
        * split; [|split].
          -- destruct Hex as [E|(s & Hs & Hw & Ho)].
             ++ destruct acc as [a|]; inversion E; subst.
                ** destruct (Z.max_spec a (step_order x)) as [[_ Em]|[_ Em]];
                     rewrite Em; [right; exists x|left]; auto.
                ** right. exists x. auto.
             ++ right. exists s. auto.
          -- intros a E. subst acc. specialize (Hacc _ eq_refl). lia.
          -- intros s [<-|Hs] Hw; [|now apply Hall].
             destruct acc as [a|]; specialize (Hacc _ eq_refl); lia.
        * split; [|split].
          -- destruct Hex as [E|(s & Hs & Hw & Ho)]; [now left|].
             right. exists s. auto.
          -- assumption.
          -- intros s [<-|Hs] Hw; [contradiction|now apply Hall].
      + destruct IH as [E Hall]. unfold F in E.
        destruct (Z.eqb_spec (ws_workflow_id x) wid) as [Ex|Ex].
        * destruct acc; discriminate.
        * split; [assumption|]. intros s [<-|Hs]; [assumption|now apply Hall]. }
  specialize (G (workflow_steps d) None).
  destruct (fold_left F (workflow_steps d) None) as [m|].
  - destruct G as ([E|Hex] & _ & Hall); [discriminate|]. split; assumption.
  - apply G.
Qed.

(** *** Claims about [trigger_workflows] *)

(** X24.  When a scan has returned, an immediately following scan (no other
    operation in between, at whatever times the clock then shows) creates no
    instance: it returns the empty list and leaves the whole state as it is. *)
Theorem scan_after_a_returned_scan_creates_nothing
    (clk clk' : nat -> Z) (w0 w1 : World) (ids : list InstanceId) :
  trigger_workflows clk w0 = (Ret ids, w1) ->
  trigger_workflows clk' w1 = (Ret [], w1).
Proof.
  intros H.
  unfold trigger_workflows in H.
  apply bind_ret_inv in H as (d & w & Hg & H). inversion Hg; subst; clear Hg.
  apply bind_ret_inv in H as (idss & w2 & Hs & H). inversion H; subst; clear H.
  apply scan_spec in Hs as (news & Ha & _ & Hok).
  destruct (Hok _ eq_refl) as [Hnm _].
  assert (Hws : active_workflows (db w1) = active_workflows (db w)).
  { unfold active_workflows. destruct (appended_tables _ _ _ Ha) as (-> & _). reflexivity. }
  unfold trigger_workflows, bind, get_db. rewrite Hws.
  rewrite (map_m_idle (trigger_workflow clk') []).
  - unfold ret. now rewrite concat_repeat_nil.
  - intros wf Hin. unfold trigger_workflow, bind, get_db.
    now rewrite (no_match_matching_nil _ _ (Hnm wf Hin)).
Qed.

Lemma scan_after_a_returned_scan_witness :
  trigger_workflows example_clock scenario2_scanned = (Ret [], scenario2_scanned).
Proof.
  apply (scan_after_a_returned_scan_creates_nothing example_clock example_clock
           scenario2 scenario2_scanned [mkId 1 7 1700000000]).
  vm_compute. reflexivity.
Defined.

(** An invoice that a PENDING or ACTIVE instance covers is in the matching
    query of no definition. *)
Lemma covered_invoice_matches_nothing d wf inst inv cid :
  In inst (workflow_instances d) ->
  in_active_workflow inst = true ->
  wi_invoice_id inst = Some inv ->
  ~ In (inv, cid) (matching_invoices wf d).
Proof.
  intros Hin Hact Hinv Hrow.
  apply matching_invoices_In in Hrow as (i & c & _ & _ & _ & _ & Hcov & E).
  inversion E; subst inv. rewrite already_in_workflow_covers in Hcov.
  now rewrite (covers_In _ _ _ Hin Hact Hinv) in Hcov.
Qed.

(** C1: the code at the failing input.  Invoices 100 and 101 of customer 7
    both satisfy the trigger of the one active definition.  The first scan
    stores the instance for invoice 100 and ends with the primary-key
    violation on that of invoice 101, whose id is the same within the
    second.  The second scan, a minute later and with nothing done in
    between, creates a new instance, for invoice 101; it skips invoice 100,
    which is covered. *)
Theorem C1_second_scan_creates_an_instance_after_id_collision :
  trigger_workflows example_clock two_invoices
  = (Raise (IntegrityError_instance_id (mkId 1 7 1700000000)), two_invoices_scanned)
  /\ map wi_invoice_id (workflow_instances (db two_invoices_scanned)) = [Some 100]
  /\ matching_invoices standard_collection (db two_invoices_scanned) = [(101, 7)]
  /\ exists w2,
       trigger_workflows later_clock two_invoices_scanned
       = (Ret [mkId 1 7 1700000060], w2)
       /\ map (fun i => (instance_id i, wi_invoice_id i, status i))
              (workflow_instances (db w2))
          = [ (mkId 1 7 1700000000, Some 100, PENDING);
              (mkId 1 7 1700000060, Some 101, PENDING) ].
Proof.
  split; [vm_compute; reflexivity|].
  split; [reflexivity|].
  split; [vm_compute; reflexivity|].
  exists (snd (trigger_workflows later_clock two_invoices_scanned)).
  split; vm_compute; reflexivity.
Qed.

Lemma trigger_matches_spec wf i c :
  trigger_matches wf i c = true <->
  inv_status i = "OPEN"%string
  /\ days_past_due_trigger wf <= days_past_due i
  /\ (amount_threshold wf <= outstanding_amount i)%Q
  /\ (forall f, customer_type_filter wf = Some f -> f <> EmptyString ->
                customer_type c = f).
Proof.
  unfold trigger_matches. rewrite !andb_true_iff, String.eqb_eq, Z.leb_le, Qle_bool_iff.
  split.
  - intros [[[Hs Hd] Ha] Hf]. repeat split; try assumption.
    intros f E Hne. rewrite E in Hf. simpl in Hf.
    destruct (String.eqb_spec f EmptyString) as [Ef|_]; [contradiction|].
    simpl in Hf. now apply String.eqb_eq.
  - intros (Hs & Hd & Ha & Hf). repeat split; try assumption.
    destruct (customer_type_filter wf) as [f|]; [|reflexivity]. simpl.
    destruct (String.eqb_spec f EmptyString) as [Ef|Hne]; [reflexivity|].
    simpl. apply String.eqb_eq. now apply Hf.
Qed.

(** The instance id has a resolution of one second: when two invoices of
    one customer match the same definition within a second, the second
    insertion violates the primary key and the scan ends with the exception,
    after the first instance has been stored. *)
Lemma scan_raises_on_second_invoice_of_customer :
  fst (trigger_workflows example_clock two_invoices)
  = Raise (IntegrityError_instance_id (mkId 1 7 1700000000))
  /\ map wi_invoice_id
         (workflow_instances (db (snd (trigger_workflows example_clock two_invoices))))
     = [Some 100].
Proof. split; vm_compute; reflexivity. Qed.

(** C2 (as stated) fails: invoice 100 satisfies the trigger of the active
    definition "Early Reminder Workflow" and no instance of that definition
    covers it, yet the scan creates no instance for that pair, because the
    instance just created for "Standard Collection Workflow" already covers
    the invoice. *)
Lemma C2_counterexample :
  In early_reminder (active_workflows (db two_definitions))
  /\ In invoice_100 (invoices (db two_definitions))
  /\ In acme (customers (db two_definitions))
  /\ inv_customer_id invoice_100 = customer_id acme
  /\ trigger_matches early_reminder invoice_100 acme = true
  /\ filter (for_pair 2 100) (workflow_instances (db two_definitions)) = []
  /\ exists ids w1,
       trigger_workflows example_clock two_definitions = (Ret ids, w1)
       /\ filter (for_pair 2 100) (workflow_instances (db w1)) = [].
Proof.
  split; [right; now left|]. split; [now left|]. split; [now left|].
  split; [reflexivity|]. split; [reflexivity|]. split; [reflexivity|].
  do 2 eexists. split; [vm_compute; reflexivity|reflexivity].
Qed.

(** C2 (amended).  Let the invoice and customer tables have unique ids and
    let a scan return.  For every invoice [i] (of customer [c]) that satisfies
    the trigger of some active definition, with [wf] the first such definition
    in execution order: if a PENDING or ACTIVE instance of any definition
    covered [i] before the scan, the scan creates no instance for [i];
    otherwise it creates exactly one instance for [i], which is PENDING, at
    step 0, belongs to [wf], and whose id is in the returned list. *)
Theorem C2_scan_creates_one_instance_per_invoice
    (clk : nat -> Z) (w0 w1 : World) (ids : list InstanceId)
    (wf : Workflow) (i : Invoice) (c : Customer) :
  NoDup (map invoice_id (invoices (db w0))) ->
  NoDup (map customer_id (customers (db w0))) ->
  trigger_workflows clk w0 = (Ret ids, w1) ->
  In i (invoices (db w0)) -> In c (customers (db w0)) ->
  inv_customer_id i = customer_id c ->
  find (fun wf => trigger_matches wf i c) (active_workflows (db w0)) = Some wf ->
  exists news,
    workflow_instances (db w1) = workflow_instances (db w0) ++ news
    /\ ids = map instance_id news
    /\ if already_in_workflow (db w0) (invoice_id i)
       then filter (for_invoice (invoice_id i)) news = []
       else exists inst,
              filter (for_invoice (invoice_id i)) news = [inst]
              /\ status inst = PENDING
              /\ current_step inst = 0
              /\ wi_workflow_id inst = workflow_id wf
              /\ wi_customer_id inst = customer_id c
              /\ wi_invoice_id inst = Some (invoice_id i)
              /\ In (instance_id inst) ids.
Proof.
  intros Hni Hnc H Hi Hc Hj Hf. unfold trigger_workflows in H.
  apply bind_ret_inv in H as (d & w & Hg & H). inversion Hg; subst; clear Hg.
  apply bind_ret_inv in H as (idss & w2 & Hs & H). inversion H; subst; clear H.
  pose proof Hs as Hs'.
  apply scan_spec in Hs' as (news' & Ha' & _ & Hok).
  destruct (Hok _ eq_refl) as [_ Hids].
  destruct (scan_invoice clk i c _ _ _ _ Hs Hni Hnc Hi Hc Hj)
    as (news & Ha & Hcov & _ & Hsome).
  assert (news' = news) as ->.
  { destruct Ha as [_ E], Ha' as [_ E']. rewrite E in E'.
    now apply app_inv_head in E'. }
  exists news. split; [apply Ha|]. split; [assumption|].
  destruct (already_in_workflow (db w) (invoice_id i)) eqn:E.
  - now apply Hcov.
  - destruct (Hsome eq_refl wf Hf) as (inst & Hfl & Hm).
    exists inst. split; [assumption|].
    destruct (created_for_covers _ _ _ Hm) as (_ & Hinv & Hst & Hw & Hcu & Hstep).
    cbn in Hinv, Hcu. repeat split; try assumption; try congruence.
    rewrite Hids. apply in_map.
    assert (Hin : In inst (filter (for_invoice (invoice_id i)) news))
      by (rewrite Hfl; now left).
    now apply filter_In in Hin.
Qed.

Lemma C2_witness :
  exists news,
    workflow_instances (db two_definitions_scanned)
    = workflow_instances (db two_definitions) ++ news
    /\ [mkId 1 7 1700000000] = map instance_id news
    /\ exists inst,
         filter (for_invoice 100) news = [inst]
         /\ status inst = PENDING
         /\ current_step inst = 0
         /\ wi_workflow_id inst = 1
         /\ wi_customer_id inst = 7
         /\ wi_invoice_id inst = Some 100
         /\ In (instance_id inst) [mkId 1 7 1700000000].
Proof.
  apply (C2_scan_creates_one_instance_per_invoice example_clock two_definitions
           two_definitions_scanned [mkId 1 7 1700000000]
           standard_collection invoice_100 acme).
  - repeat constructor. intros [].
  - repeat constructor. intros [].
  - vm_compute. reflexivity.
  - now left.
  - now left.
  - reflexivity.
  - reflexivity.
Defined.

(** *** Claims about [execute_pending_workflows] *)

(** C3 (as stated) fails.  First run: step 1 (delay 0) of the two-step
    definition is executed successfully; the next step has a delay of 7 days,
    but the new scheduled date is not a reading of the clock plus 7 days.
    Second run: the only (hence final) step of a definition is executed
    successfully and the scheduled date is overwritten. *)
Lemma C3_counterexample :
  (exists res inst inst' next,
     execute_pending_workflows example_clock scenario2_scanned
       = (Ret res, scenario2_executed)
     /\ executed res = 1 /\ failed res = 0
     /\ workflow_instances (db scenario2_scanned) = [inst]
     /\ workflow_instances (db scenario2_executed) = [inst']
     /\ current_step inst' = current_step inst + 1
     /\ status inst' = ACTIVE
     /\ step_data (db scenario2_scanned) (wi_workflow_id inst') (current_step inst' + 1)
        = Some next
     /\ delay_days next = Some 7
     /\ forall r, scheduled_date inst' <> example_clock r + days 7)
  /\ (exists res inst inst',
        execute_pending_workflows example_clock final_step_scanned
          = (Ret res, final_step_executed)
        /\ executed res = 1 /\ failed res = 0
        /\ workflow_instances (db final_step_scanned) = [inst]
        /\ workflow_instances (db final_step_executed) = [inst']
        /\ status inst' = COMPLETED
        /\ scheduled_date inst' <> scheduled_date inst).
Proof.
  split.
  - do 4 eexists. split; [vm_compute; reflexivity|].
    repeat (split; [reflexivity|]).
    intros r. cbn [scheduled_date]. unfold example_clock, days, microseconds_per_day,
      microseconds_per_second. lia.
  - do 3 eexists. split; [vm_compute; reflexivity|].
    repeat (split; [reflexivity|]). cbn [scheduled_date]. lia.
Qed.

(** C3 (amended).  When a run executes the next step [s] of a due PENDING
    instance and the call returns, the run increments [current_step] by
    exactly one, sets the scheduled date to a reading of the clock made during
    the run plus the delay-days of the executed step [s] itself (also when
    [s] is the final step), and sets the status to COMPLETED when [s] has the
    greatest step order of the definition and to ACTIVE otherwise; the other
    columns, apart from the last-action date, keep their values. *)
Theorem C3_successful_step_advances_instance
    (clk : nat -> Z) (w w' w0 : World) (res : ExecutionResults) (r : ExecResult)
    (k : nat) (inst : Instance) (s : Step) :
  unique_instance_ids (db w) ->
  nth_error (workflow_instances (db w)) k = Some inst ->
  is_due (clk (reads w)) inst = true ->
  step_data (db w) (wi_workflow_id inst) (current_step inst + 1) = Some s ->
  _execute_workflow_instance clk (instance_id inst) w = (Ret r, w0) ->
  execute_pending_workflows clk w = (Ret res, w') ->
  exists r1 r2 inst',
    (reads w < r1 < r2)%nat /\ (r2 < reads w')%nat
    /\ nth_error (workflow_instances (db w')) k = Some inst'
    /\ current_step inst' = current_step inst + 1
    /\ step_order s = current_step inst + 1
    /\ scheduled_date inst' = clk r1 + days (delay_of s)
    /\ status inst'
       = (if option_Z_eqb (Some (step_order s))
                          (max_step_order (db w) (wi_workflow_id inst))
          then COMPLETED else ACTIVE)
    /\ last_action_date inst' = Some (clk r2)
    /\ instance_id inst' = instance_id inst
    /\ completed_date inst' = completed_date inst
    /\ failure_reason inst' = failure_reason inst
    /\ retry_count inst' = retry_count inst.
Proof.
  intros Hnd Hk Hdue Hs Hret H.
  assert (He : step_exception (db w) (instance_id inst) = None).
  { apply execute_outcome in Hret.
    destruct (step_exception (db w) (instance_id inst)); [|reflexivity].
    destruct Hret; discriminate. }
  destruct (run_executed_step clk _ _ _ _ _ _ Hnd Hk Hdue He Hs H)
    as (r1 & r2 & Hr & Hr' & Hrow).
  assert (Ho : step_order s = current_step inst + 1).
  { unfold step_data in Hs. apply find_some in Hs as [_ Hc].
    apply andb_prop in Hc as [Hc _]. apply andb_prop in Hc as [_ Hc].
    now apply Z.eqb_eq. }
  exists r1, r2. eexists. split; [exact Hr|]. split; [exact Hr'|].
  split; [exact Hrow|]. cbn. rewrite Ho. repeat split; reflexivity.
Qed.

Lemma C3_witness :
  exists inst',
    nth_error (workflow_instances (db scenario2_executed)) 0 = Some inst'
    /\ current_step inst' = 1
    /\ status inst' = ACTIVE.
Proof.
  destruct (C3_successful_step_advances_instance example_clock
              scenario2_scanned scenario2_executed
              (snd (_execute_workflow_instance example_clock (mkId 1 7 1700000000)
                      scenario2_scanned))
              (mkResults 1 0 0
                 [(mkId 1 7 1700000000, inl (success "PHONE_CALL" 1700000000009000 4))])
              (success "PHONE_CALL" 1700000000008000 4)
              0%nat
              (new_instance (mkId 1 7 1700000000) 1 7 (Some 100)
                            1700000000001000 1700000000002000)
              (mkStep 10 1 1 "PHONE_CALL" None (Some "Senior Collector"%string)
                      (Some 0) None true))
    as (r1 & r2 & inst' & _ & _ & Hrow & Hcur & _ & _ & Hst & _).
  - repeat constructor. intros [].
  - reflexivity.
  - vm_compute. reflexivity.
  - reflexivity.
  - vm_compute. reflexivity.
  - vm_compute. reflexivity.
  - exists inst'. split; [exact Hrow|]. split; [exact Hcur|exact Hst].
Defined.

(** C4 (as stated) fails: the first step of the instance raises (its customer
    does not exist), the run marks the instance FAILED and stores the reason,
    but the retry count is what it was. *)
Lemma C4_counterexample :
  exists res inst inst',
    execute_pending_workflows example_clock orphan = (Ret res, orphan_executed)
    /\ failed res = 1
    /\ workflow_instances (db orphan) = [inst]
    /\ workflow_instances (db orphan_executed) = [inst']
    /\ status inst' = FAILED
    /\ failure_reason inst' = Some TypeError_unpack_None
    /\ retry_count inst' <> retry_count inst + 1.
Proof.
  do 3 eexists. split; [vm_compute; reflexivity|].
  repeat (split; [reflexivity|]). cbn [retry_count]. discriminate.
Qed.

(** C4 (amended).  When the execution of the next step of a due PENDING
    instance raises [e], the run sets the status of the instance to FAILED and
    stores [e] as the failure reason; the retry count and every other column
    keep their values.  No later sequence of scans and execution runs, at
    whatever times, changes the row again: the instance is never selected and
    never retried. *)
Theorem C4_failed_step_marks_instance_failed
    (clk clk' : nat -> Z) (w w' w0 : World) (res : ExecutionResults)
    (k : nat) (inst : Instance) (e : Exn) :
  unique_instance_ids (db w) ->
  nth_error (workflow_instances (db w)) k = Some inst ->
  is_due (clk (reads w)) inst = true ->
  _execute_workflow_instance clk (instance_id inst) w = (Raise e, w0) ->
  execute_pending_workflows clk w = (Ret res, w') ->
  exists inst',
    nth_error (workflow_instances (db w')) k = Some inst'
    /\ inst' = set_failed e inst
    /\ status inst' = FAILED
    /\ failure_reason inst' = Some e
    /\ retry_count inst' = retry_count inst
    /\ current_step inst' = current_step inst
    /\ (forall ops o w'',
          run_operations clk' ops w' = (o, w'') ->
          nth_error (workflow_instances (db w'')) k = Some inst').
Proof.
  intros Hnd Hk Hdue Hraise H.
  assert (He : step_exception (db w) (instance_id inst) = Some e).
  { apply execute_outcome in Hraise.
    destruct (step_exception (db w) (instance_id inst)) as [e'|].
    - destruct Hraise as [E _]. now inversion E.
    - destruct Hraise; discriminate. }
  pose proof (run_failed_step clk _ _ _ _ _ _ Hnd Hk Hdue He H) as Hrow.
  exists (set_failed e inst). repeat split; try assumption.
  intros ops o w'' Hops.
  destruct (execute_pending_frame clk w Hnd) as (res2 & w2 & E & Hnd' & _).
  rewrite H in E. inversion E; subst w2.
  apply (not_pending_persists clk' ops _ _ _ _ _ Hops Hnd' Hrow). discriminate.
Qed.

Lemma C4_witness :
  exists inst',
    nth_error (workflow_instances (db orphan_executed)) 0 = Some inst'
    /\ status inst' = FAILED
    /\ retry_count inst' = 0.
Proof.
  destruct (C4_failed_step_marks_instance_failed example_clock example_clock
              orphan orphan_executed
              (snd (_execute_workflow_instance example_clock
                      (instance_id orphan_instance) orphan))
              (mkResults 0 1 0 [(mkId 1 9 1699999000, inr TypeError_unpack_None)])
              0%nat orphan_instance TypeError_unpack_None)
    as (inst' & Hrow & _ & Hst & _ & Hre & _).
  - repeat constructor. intros [].
  - reflexivity.
  - vm_compute. reflexivity.
  - vm_compute. reflexivity.
  - vm_compute. reflexivity.
  - exists inst'. split; [exact Hrow|]. split; [exact Hst|exact Hre].
Defined.

(** C5: the code at the failing input.  The instance is PENDING at its final
    (only) step; the run executes the step successfully and the status becomes
    COMPLETED, but the completed date is still NULL, and it stays NULL under
    every later sequence of scans and runs because the row is never selected
    again. *)
Theorem C5_final_step_leaves_completed_date_unset :
  exists res inst inst',
    execute_pending_workflows example_clock final_step_scanned
      = (Ret res, final_step_executed)
    /\ executed res = 1 /\ failed res = 0
    /\ workflow_instances (db final_step_scanned) = [inst]
    /\ workflow_instances (db final_step_executed) = [inst']
    /\ status inst = PENDING
    /\ max_step_order (db final_step_scanned) (wi_workflow_id inst)
       = Some (current_step inst + 1)
    /\ status inst' = COMPLETED
    /\ current_step inst' = current_step inst + 1
    /\ completed_date inst' = None
    /\ (forall clk ops o w'',
          run_operations clk ops final_step_executed = (o, w'') ->
          nth_error (workflow_instances (db w'')) 0 = Some inst').
Proof.
  do 3 eexists. split; [vm_compute; reflexivity|].
  repeat (split; [reflexivity|]).
  intros clk ops o w'' H.
  apply (not_pending_persists clk ops _ _ _ 0%nat _ H).
  - repeat constructor. intros [].
  - reflexivity.
  - discriminate.
Qed.

(** The sibling path: an instance with no step left is completed by
    [_mark_instance_completed], which does set the completed date. *)
Lemma mark_instance_completed_sets_date clk id w k inst :
  nth_error (workflow_instances (db w)) k = Some inst ->
  instance_id inst = id ->
  exists w',
    _mark_instance_completed clk id w = (Ret tt, w')
    /\ nth_error (workflow_instances (db w')) k
       = Some (set_completed (clk (reads w)) inst)
    /\ completed_date (set_completed (clk (reads w)) inst) = Some (clk (reads w)).
Proof.
  intros Hk <-. eexists. split; [reflexivity|]. split; [|reflexivity].
  cbn. rewrite (nth_error_update_where _ _ _ _ _ Hk).
  unfold has_id. now rewrite id_eqb_refl.
Qed.

(** C10.  A run returns and reports exactly the instances that were PENDING
    with a scheduled date not after the time read at the start of the run.
    Every other row of the instance table, in particular every ACTIVE one, is
    left exactly as it is; and an ACTIVE row stays as it is under every
    sequence of scans and runs, so its remaining steps are never executed. *)
Theorem C10_run_selects_only_due_pending_instances
    (clk : nat -> Z) (w : World) :
  unique_instance_ids (db w) ->
  exists res w',
    execute_pending_workflows clk w = (Ret res, w')
    /\ (forall id, In id (map fst (res_instances res)) <->
          exists inst, In inst (workflow_instances (db w))
                       /\ instance_id inst = id
                       /\ status inst = PENDING
                       /\ scheduled_date inst <= clk (reads w))
    /\ (forall k inst,
          nth_error (workflow_instances (db w)) k = Some inst ->
          status inst <> PENDING \/ clk (reads w) < scheduled_date inst ->
          nth_error (workflow_instances (db w')) k = Some inst)
    /\ (forall k inst clk' ops o w'',
          nth_error (workflow_instances (db w)) k = Some inst ->
          status inst = ACTIVE ->
          run_operations clk' ops w' = (o, w'') ->
          nth_error (workflow_instances (db w'')) k = Some inst).
Proof.
  intros Hnd.
  destruct (execute_pending_frame clk w Hnd) as (res & w' & E & Hnd' & _ & Hfr).
  exists res, w'. split; [exact E|].
  assert (Hnot : forall inst,
             status inst <> PENDING \/ clk (reads w) < scheduled_date inst ->
             is_due (clk (reads w)) inst = false).
  { intros inst [Hs|Hs]; unfold is_due.
    - destruct (status inst); try reflexivity. contradiction.
    - apply andb_false_iff. right. now apply Z.leb_gt. }
  split; [|split].
  - intros id.
    unfold execute_pending_workflows, bind, now, get_db in E. cbn [db reads] in E.
    rewrite (execute_loop_reports clk _ _ _ _ _ E). cbn [res_instances map app].
    rewrite in_map_iff. unfold pending_instances. split.
    + intros (inst & Hid & Hin). apply order_by_In in Hin.
      apply filter_In in Hin as [Hin Hdue]. unfold is_due in Hdue.
      apply andb_prop in Hdue as [Hs Hd]. exists inst.
      repeat split; try assumption; [now destruct (status inst)|now apply Z.leb_le].
    + intros (inst & Hin & Hid & Hs & Hd). exists inst. split; [assumption|].
      apply order_by_In. apply filter_In. split; [assumption|].
      unfold is_due. rewrite Hs. cbn. now apply Z.leb_le.
  - intros k inst Hk Hs. apply Hfr; [assumption|now apply Hnot].
  - intros k inst clk' ops o w'' Hk Hs Hops.
    apply (not_pending_persists clk' ops _ _ _ _ _ Hops Hnd').
    + apply Hfr; [assumption|]. apply Hnot. left. congruence.
    + congruence.
Qed.

Lemma C10_witness :
  exists res w',
    execute_pending_workflows example_clock scenario2_executed = (Ret res, w')
    /\ nth_error (workflow_instances (db w')) 0
       = nth_error (workflow_instances (db scenario2_executed)) 0.
Proof.
  destruct (C10_run_selects_only_due_pending_instances example_clock scenario2_executed)
    as (res & w' & E & _ & Hfr & _).
  - repeat constructor. intros [].
  - exists res, w'. split; [exact E|].
    apply (Hfr 0%nat); [reflexivity|]. left. discriminate.
Defined.

End EngineProofs.

(** ** Properties of the payment-promise tracker *)

Module PromisesProofs.

Import Promises.

(** *** What one status update does *)

Lemma update_outcome today pid requested paid paid_on note d :
  (exists e, update_promise_status today pid requested paid paid_on note d = (inl e, d)
             /\ (find (fun x => promise_id x =? pid) (payment_promises d) = None
                 \/ paid_on = Malformed
                 \/ (exists p, find (fun x => promise_id x =? pid) (payment_promises d) = Some p
                               /\ is_terminal (pp_status p) = true)
                 \/ ((status_eqb requested KEPT || status_eqb requested PARTIALLY_KEPT)
                     && Qle_bool (b64 paid) 0 = true)))
  \/ (exists p escalate d',
        find (fun x => promise_id x =? pid) (payment_promises d) = Some p
        /\ is_terminal (pp_status p) = false
        /\ (status_eqb requested KEPT || status_eqb requested PARTIALLY_KEPT)
           && Qle_bool (b64 paid) 0 = false
        /\ update_promise_status today pid requested paid paid_on note d
           = (inr (mkUpdated pid (pp_status p) (resolved_status p requested (b64 paid))
                             escalate), d')
        /\ payment_promises d'
           = update_where (fun x => promise_id x =? pid)
               (set_status (resolved_status p requested (b64 paid)) (payment_day paid_on)
                           (b64 paid) escalate note)
               (payment_promises d)
        /\ same_ledger d d').
Proof.
  unfold update_promise_status. cbv zeta.
  destruct (find _ (payment_promises d)) as [p|] eqn:Ef; [|left; eauto].
  destruct (is_terminal (pp_status p)) eqn:Et.
  { left. destruct paid_on; eexists; split; try reflexivity; eauto 6. }
  destruct ((status_eqb requested KEPT || status_eqb requested PARTIALLY_KEPT)
            && Qle_bool (b64 paid) 0) eqn:Ea.
  { left. destruct paid_on; eexists; split; try reflexivity; auto. }
  destruct paid_on as [| |day]; [|left; eexists; split; [reflexivity|auto]|];
    right; fold (resolved_status p requested (b64 paid));
    (exists p; eexists; eexists;
     split; [reflexivity|]; split; [exact Et|]; split; [reflexivity|];
     split; [reflexivity|];
     unfold _create_promise_activity;
     destruct (truthy_int (pp_invoice_id p)), (pp_invoice_id p),
       (resolved_status p requested (b64 paid));
     split; try reflexivity; repeat split).
Qed.

Lemma update_error_unchanged today pid requested paid paid_on note d e d' :
  update_promise_status today pid requested paid paid_on note d = (inl e, d') -> d' = d.
Proof.
  destruct (update_outcome today pid requested paid paid_on note d)
    as [(e0 & -> & _)|(p & esc & d0 & _ & _ & _ & -> & _)]; intros H; now inversion H.
Qed.

Lemma set_status_id st day paid esc note p :
  promise_id (set_status st day paid esc note p) = promise_id p.
Proof. reflexivity. Qed.

Lemma update_where_keys {A} (key : A -> Z) (q : A -> bool) f l :
  (forall x, key (f x) = key x) -> map key (update_where q f l) = map key l.
Proof.
  intros Hf. unfold update_where. rewrite map_map. apply map_ext.
  intros x. destruct (q x); [apply Hf|reflexivity].
Qed.

(** An update keeps the ids, the ledger, and every row with another id; it
    keeps every row when it is rejected. *)
Lemma update_frame today pid requested paid paid_on note d r d' :
  update_promise_status today pid requested paid paid_on note d = (r, d') ->
  same_ledger d d'
  /\ map promise_id (payment_promises d') = map promise_id (payment_promises d)
  /\ (forall k x, nth_error (payment_promises d) k = Some x ->
                  promise_id x <> pid ->
                  nth_error (payment_promises d') k = Some x).
Proof.
  destruct (update_outcome today pid requested paid paid_on note d)
    as [(e0 & -> & _)|(p & esc & d0 & _ & _ & _ & -> & Hp & Hl)]; intros H;
    inversion H; subst; clear H.
  - repeat split; auto.
  - split; [assumption|]. rewrite Hp. split.
    + now apply update_where_keys.
    + intros k x Hk Hne. rewrite (nth_error_update_where _ _ _ _ _ Hk).
      destruct (Z.eqb_spec (promise_id x) pid); [contradiction|reflexivity].
Qed.

(** An update of a promise that is KEPT, BROKEN or CANCELLED is rejected. *)
Lemma update_terminal_rejected today requested paid paid_on note d p :
  unique_promise_ids d -> In p (payment_promises d) ->
  is_terminal (pp_status p) = true ->
  exists e, update_promise_status today (promise_id p) requested paid paid_on note d
            = (inl e, d).
Proof.
  intros Hnd Hin Ht.
  destruct (update_outcome today (promise_id p) requested paid paid_on note d)
    as [(e0 & E & _)|(p0 & esc & d0 & Ef & Hnt & _)]; [eauto|].
  rewrite (find_unique promise_id _ _ Hnd Hin) in Ef. inversion Ef; subst.
  congruence.
Qed.

(** *** The reconciliation loop *)

Lemma Qle_bool_false a b : Qle_bool a b = false -> (b < a)%Q.
Proof.
  intros H. apply Qnot_le_lt. intros Hle. apply Qle_bool_iff in Hle. congruence.
Qed.

Lemma Qle_bool_true a b : Qle_bool a b = true -> (a <= b)%Q.
Proof. apply Qle_bool_iff. Qed.

Lemma Qlt_Qle_bool_false a b : (b < a)%Q -> Qle_bool a b = false.
Proof.
  intros Hlt. destruct (Qle_bool a b) eqn:E; [|reflexivity].
  apply Qle_bool_true in E. lra.
Qed.

Lemma process_promise_update today acc p d :
  exists r,
    update_promise_status today (promise_id p) (fst (fst (request_of d p)))
      (snd (fst (request_of d p))) (snd (request_of d p)) "" d
    = (r, snd (process_promise today acc p d))
    /\ reported_ids (fst (process_promise today acc p d))
       = match r with
         | inr _ => reported_ids acc ++ [promise_id p]
         | inl _ => reported_ids acc
         end.
Proof.
  unfold process_promise, request_of, reported_ids.
  destruct (payment_found d p) as [actual [|]]; cbn [fst snd];
    destruct (update_promise_status _ _ _ _ _ _ _) as [[e|u] d'];
    eexists; (split; [reflexivity|]); cbn [fst snd results];
    try reflexivity; now rewrite map_app.
Qed.

Lemma payment_found_ledger d d' p :
  same_ledger d d' -> payment_found d' p = payment_found d p.
Proof.
  intros (_ & Hp & Ha).
  unfold payment_found, applied_in_window, applications_in_window.
  now rewrite Hp, Ha.
Qed.

Lemma same_ledger_refl d : same_ledger d d.
Proof. repeat split. Qed.

Lemma same_ledger_trans d1 d2 d3 :
  same_ledger d1 d2 -> same_ledger d2 d3 -> same_ledger d1 d3.
Proof. intros (A & B & C) (A' & B' & C'). repeat split; congruence. Qed.

(** The loop keeps the ids and the ledger, touches only the rows whose id is
    among the rows it was given, and reports only those ids. *)
Lemma process_promises_frame today rows : forall acc d acc' d',
  process_promises today rows acc d = (acc', d') ->
  same_ledger d d'
  /\ map promise_id (payment_promises d') = map promise_id (payment_promises d)
  /\ (forall k x, nth_error (payment_promises d) k = Some x ->
                  ~ In (promise_id x) (map promise_id rows) ->
                  nth_error (payment_promises d') k = Some x)
  /\ (forall id, In id (reported_ids acc') ->
                 In id (reported_ids acc) \/ In id (map promise_id rows))
  /\ incl (reported_ids acc) (reported_ids acc').
Proof.
  induction rows as [|p rows IH]; intros acc d acc' d' H; simpl in H.
  - inversion H; subst. split; [apply same_ledger_refl|]. repeat split; auto.
    apply incl_refl.
  - destruct (process_promise today acc p d) as [acc1 d1] eqn:E1.
    destruct (process_promise_update today acc p d) as (r & Hu & Hrep).
    rewrite E1 in Hu, Hrep. cbn [fst snd] in Hu, Hrep.
    destruct (update_frame _ _ _ _ _ _ _ _ _ Hu) as (L1 & I1 & F1).
    destruct (IH _ _ _ _ H) as (L2 & I2 & F2 & R2 & M2).
    split; [eapply same_ledger_trans; eassumption|].
    split; [congruence|]. split; [|split].
    + intros k x Hk Hn. apply F2.
      * apply F1; [assumption|]. intros Eid. apply Hn. now left.
      * intros Hin. apply Hn. now right.
    + intros id Hid. destruct (R2 id Hid) as [Hin|Hin]; [|right; now right].
      rewrite Hrep in Hin. destruct r; [now left|].
      apply in_app_or in Hin as [Hin|[<-|[]]]; [now left|right; now left].
    + intros id Hid. apply M2. rewrite Hrep. destruct r; [assumption|].
      apply in_or_app. now left.
Qed.

Lemma process_promises_app today l1 l2 acc d :
  process_promises today (l1 ++ l2) acc d
  = let '(acc1, d1) := process_promises today l1 acc d in
    process_promises today l2 acc1 d1.
Proof.
  revert acc d. induction l1 as [|p l1 IH]; intros acc d; simpl.
  - reflexivity.
  - destruct (process_promise today acc p d) as [acc1 d1]. apply IH.
Qed.

(** A sum of floats is a float. *)
Lemma float_sum_float l total : float_sum l = Some total -> (b64 total == total)%Q.
Proof.
  assert (G : forall l acc, l <> [] ->
            (b64 (fold_left (fun acc x => b64 (acc + b64 x)) l acc)
             == fold_left (fun acc x => b64 (acc + b64 x)) l acc)%Q).
  { clear. induction l as [|y l _] using rev_ind; intros acc H; [contradiction|].
    rewrite fold_left_app. cbn [fold_left]. apply b64_idem. }
  unfold float_sum. destruct l as [|x l]; [discriminate|].
  intros H. injection H as <-. apply (G (x :: l) 0%Q). discriminate.
Qed.

(** The thresholds of a promise that is not negative are not negative. *)
Lemma threshold_nonneg p c :
  (0 <= promised_amount p)%Q -> (0 <= c)%Q -> (0 <= fmul (promised_float p) (b64 c))%Q.
Proof.
  intros Hp Hc. unfold fmul, promised_float. apply b64_nonneg.
  apply Qmult_le_0_compat; now apply b64_nonneg.
Qed.

Lemma Qle_bool_comp a a' b b' :
  (a == a')%Q -> (b == b')%Q -> Qle_bool a b = Qle_bool a' b'.
Proof.
  intros Ea Eb. apply eq_true_iff_eq. rewrite !Qle_bool_iff. now rewrite Ea, Eb.
Qed.

(** The request of the loop body follows the bands, and the update accepts
    it as it is. *)
Lemma request_follows_bands d p :
  (0 < promised_amount p)%Q ->
  let '(st, paid, on) := request_of d p in
  st = reconciled_status (promised_float p) (applied_total d p)
  /\ resolved_status p st (b64 paid) = st
  /\ (status_eqb st KEPT || status_eqb st PARTIALLY_KEPT) && Qle_bool (b64 paid) 0 = false
  /\ on <> Malformed.
Proof.
  intros Hpos. unfold request_of, payment_found, applied_total, reconciled_status,
    resolved_status, truthy_int.
  destruct (pp_invoice_id p) as [inv|]; [|cbn; repeat split; discriminate].
  destruct (inv =? 0); [cbn; repeat split; discriminate|]. cbn [negb].
  destruct (applied_in_window d inv (promised_payment_date p)) as [total|] eqn:Ew;
    [|cbn; repeat split; discriminate].
  apply float_sum_float in Ew.
  destruct (Qeq_bool total 0) eqn:Ez; cbn [negb andb].
  { repeat split; discriminate. }
  destruct (Qle_bool (fmul (promised_float p) (b64 0.9)) total) eqn:E9;
    [|repeat split; discriminate].
  pose proof E9 as H9. apply Qle_bool_true in H9.
  assert (Hnn : (0 <= fmul (promised_float p) (b64 0.9))%Q)
    by (apply threshold_nonneg; [now apply Qlt_le_weak|discriminate]).
  assert (Hne : ~ (total == 0)%Q).
  { intros H. apply Qeq_bool_iff in H. congruence. }
  assert (Htot : (0 < total)%Q).
  { destruct (Qle_lt_or_eq 0 total) as [H|H]; [lra|assumption|].
    exfalso. apply Hne. now symmetry. }
  assert (Hp : Qle_bool (b64 total) 0 = false).
  { rewrite (Qle_bool_comp _ total _ 0 Ew (Qeq_refl 0)). now apply Qlt_Qle_bool_false. }
  assert (Hl : Qlt_bool (b64 total) (fmul (promised_float p) (b64 0.9)) = false).
  { unfold Qlt_bool. apply negb_false_iff.
    rewrite (Qle_bool_comp _ _ _ total (Qeq_refl _) Ew). exact E9. }
  unfold downgraded. rewrite Hl, Hp.
  destruct (Qle_bool (fmul (promised_float p) (b64 0.99)) total); cbn;
    rewrite ?andb_false_r; repeat split; discriminate.
Qed.

(** The turn of one overdue promise. *)
Lemma process_promise_row today acc p d k :
  unique_promise_ids d ->
  nth_error (payment_promises d) k = Some p ->
  pp_status p = ACTIVE ->
  (0 < promised_amount p)%Q ->
  exists day paid escalate note,
    nth_error (payment_promises (snd (process_promise today acc p d))) k
    = Some (set_status (reconciled_status (promised_float p) (applied_total d p))
                       day paid escalate note p)
    /\ In (promise_id p) (reported_ids (fst (process_promise today acc p d))).
Proof.
  intros Hnd Hk Hact Hpos.
  destruct (process_promise_update today acc p d) as (r & Hu & Hrep).
  pose proof (request_follows_bands d p Hpos) as Hb.
  destruct (request_of d p) as [[st paid] on]. cbn [fst snd] in Hu.
  destruct Hb as (Hst & Hres & Hamt & Hon).
  assert (Hfind : find (fun x => promise_id x =? promise_id p) (payment_promises d) = Some p)
    by (apply (find_unique promise_id); [assumption|eapply nth_error_In; eassumption]).
  destruct (update_outcome today (promise_id p) st paid on "" d)
    as [(e & E & Hwhy)|(p0 & esc & d0 & Ef & _ & _ & E & Hp & _)].
  - exfalso. destruct Hwhy as [F|[F|[(p0 & Ef & Ht)|F]]].
    + congruence.
    + contradiction.
    + rewrite Hfind in Ef. inversion Ef; subst p0. rewrite Hact in Ht. discriminate.
    + congruence.
  - rewrite Hfind in Ef. inversion Ef; subst p0. rewrite E in Hu.
    inversion Hu as [[Er Ed]]. rewrite <- Ed, Hp.
    exists (payment_day on), (b64 paid), esc, ""%string. split.
    + rewrite (nth_error_update_where _ _ _ _ _ Hk), Z.eqb_refl.
      now rewrite Hres, Hst.
    + rewrite Hrep, <- Er. apply in_or_app. right. now left.
Qed.

Lemma applied_total_ledger d d' p :
  same_ledger d d' -> applied_total d' p = applied_total d p.
Proof.
  intros (_ & Hp & Ha). unfold applied_total, applied_in_window, applications_in_window.
  now rewrite Hp, Ha.
Qed.

Lemma not_overdue_not_selected today d p :
  unique_promise_ids d -> In p (payment_promises d) ->
  is_overdue today p = false ->
  ~ In (promise_id p) (map promise_id (overdue_promises today d)).
Proof.
  intros Hnd Hin Hno H. apply in_map_iff in H as (y & Hid & Hy).
  apply filter_In in Hy as [Hy Ho].
  rewrite (NoDup_map_In_eq _ _ _ _ Hnd Hy Hin Hid) in Ho. congruence.
Qed.

(** A reconciliation leaves every promise that is not ACTIVE and overdue as
    it is, and does not report it. *)
Lemma reconcile_frame today d summary d' k p :
  unique_promise_ids d ->
  nth_error (payment_promises d) k = Some p ->
  is_overdue today p = false ->
  process_overdue_promises today d = (summary, d') ->
  nth_error (payment_promises d') k = Some p
  /\ ~ In (promise_id p) (reported_ids summary).
Proof.
  intros Hnd Hk Hno H. unfold process_overdue_promises in H.
  destruct (process_promises_frame _ _ _ _ _ _ H) as (_ & _ & F & R & _).
  pose proof (not_overdue_not_selected today d p Hnd (nth_error_In _ _ Hk) Hno) as Hn.
  split; [now apply F|].
  intros Hin. destruct (R _ Hin) as [[]|Hin']. contradiction.
Qed.

(** A reconciliation resolves every ACTIVE, overdue promise of positive
    amount by the bands. *)
Lemma reconcile_row today d summary d' k p :
  unique_promise_ids d ->
  nth_error (payment_promises d) k = Some p ->
  is_overdue today p = true ->
  (0 < promised_amount p)%Q ->
  process_overdue_promises today d = (summary, d') ->
  exists day paid escalate note,
    nth_error (payment_promises d') k
    = Some (set_status (reconciled_status (promised_float p) (applied_total d p))
                       day paid escalate note p)
    /\ In (promise_id p) (reported_ids summary).
Proof.
  intros Hnd Hk Ho Hpos H. unfold process_overdue_promises in H.
  assert (Hact : pp_status p = ACTIVE).
  { unfold is_overdue in Ho. apply andb_prop in Ho as [Hs _]. now destruct (pp_status p). }
  assert (Hin : In p (overdue_promises today d)).
  { apply filter_In. split; [eapply nth_error_In; eassumption|assumption]. }
  pose proof (NoDup_map_filter promise_id (is_overdue today) _ Hnd) as Hrows.
  fold (overdue_promises today d) in Hrows.
  apply in_split in Hin as (pre & post & E). rewrite E in H, Hrows.
  rewrite map_app in Hrows. cbn [map] in Hrows. apply NoDup_remove_2 in Hrows.
  assert (Hpre : ~ In (promise_id p) (map promise_id pre))
    by (intros F; apply Hrows; apply in_or_app; now left).
  assert (Hpost : ~ In (promise_id p) (map promise_id post))
    by (intros F; apply Hrows; apply in_or_app; now right).
  rewrite process_promises_app in H.
  destruct (process_promises today pre _ d) as [acc1 d1] eqn:E1.
  cbn [process_promises] in H.
  destruct (process_promise today acc1 p d1) as [acc2 d2] eqn:E2.
  destruct (process_promises_frame _ _ _ _ _ _ E1) as (L1 & I1 & F1 & _).
  destruct (process_promises_frame _ _ _ _ _ _ H) as (_ & _ & F3 & _ & M3).
  assert (Hnd1 : unique_promise_ids d1) by (unfold unique_promise_ids; now rewrite I1).
  destruct (process_promise_row today acc1 p d1 k Hnd1 (F1 _ _ Hk Hpre) Hact Hpos)
    as (day & paid & esc & note & Hrow & Hrep).
  rewrite E2 in Hrow, Hrep. cbn [fst snd] in Hrow, Hrep.
  rewrite (applied_total_ledger _ _ _ L1) in Hrow.
  exists day, paid, esc, note. split.
  - apply F3; assumption.
  - now apply M3.
Qed.

(** *** What a creation does *)

Lemma truthy_int_Some i : truthy_int (Some i) = true -> i <> 0.
Proof. cbn. intros H ->. discriminate. Qed.

Lemma create_cases lastrowid today cid amount date inv contact method note creator d :
  (exists e,
     create_payment_promise lastrowid today cid amount date inv contact method note creator d
       = (inl e, d)
     /\ rejection_reason today d cid amount date inv e)
  \/ (exists day customer d',
        (0 < amount)%Q /\ date = Parsed day /\ today < day
        /\ find (fun c => customer_id c =? cid) (customers d) = Some customer
        /\ invoice_accepts d cid amount inv
        /\ create_payment_promise lastrowid today cid amount date inv contact method note
             creator d
           = (inr (mkCreated (lastrowid (payment_promises d)) (customer_name customer)
                             amount day (day - follow_up_lead_time)), d')
        /\ payment_promises d'
           = payment_promises d
             ++ [mkPromise (lastrowid (payment_promises d)) cid inv today amount day ACTIVE
                           None None (day - follow_up_lead_time) false false
                           contact method note creator]
        /\ same_ledger d d').
Proof.
  unfold create_payment_promise.
  destruct (Qle_bool amount 0) eqn:Ea.
  { left. eexists. split; [reflexivity|]. now apply Qle_bool_true. }
  apply Qle_bool_false in Ea.
  destruct date as [| |day]; try (left; eexists; split; [reflexivity|cbn; auto]).
  destruct (Z.leb_spec day today) as [Hd|Hd].
  { left. eexists. split; [reflexivity|]. exists day. auto. }
  destruct (find _ (customers d)) as [c|] eqn:Ec;
    [|left; eexists; split; [reflexivity|exact Ec]].
  destruct (truthy_int inv) eqn:Et.
  - destruct inv as [i|]; [|discriminate].
    pose proof (truthy_int_Some i Et) as Hi.
    destruct (open_invoice d i cid) as [out|] eqn:Eo.
    + unfold Qlt_bool. destruct (Qle_bool amount out) eqn:El; cbn [negb].
      * right. exists day, c. eexists. repeat (split; [first [assumption|reflexivity]|]).
        split.
        -- right. exists i, out. repeat split; try assumption. now apply Qle_bool_true.
        -- split; [reflexivity|]. split; [reflexivity|]. repeat split.
      * left. eexists. split; [reflexivity|]. exists i.
        repeat split; try assumption. now apply Qle_bool_false.
    + left. eexists. split; [reflexivity|]. exists i. auto.
  - right. exists day, c. eexists. repeat (split; [first [assumption|reflexivity]|]).
    split; [now left|]. split; [reflexivity|]. split; [reflexivity|]. repeat split.
Qed.

(** *** Promises that are resolved for good *)

Lemma terminal_not_overdue today p :
  is_terminal (pp_status p) = true -> is_overdue today p = false.
Proof. unfold is_terminal, is_overdue. now destruct (pp_status p). Qed.

Lemma reconcile_keeps_ids today d :
  map promise_id (payment_promises (snd (process_overdue_promises today d)))
  = map promise_id (payment_promises d).
Proof.
  unfold process_overdue_promises.
  destruct (process_promises today _ _ d) as [acc d'] eqn:E.
  now destruct (process_promises_frame _ _ _ _ _ _ E) as (_ & I & _).
Qed.

Section Persistence.

Variable lastrowid : list Promise -> Z.

(** The id given to a new promise is not the id of a stored promise
    ([promise_id] is the key of the table). *)
Hypothesis lastrowid_fresh : forall l, ~ In (lastrowid l) (map promise_id l).

Lemma operation_keeps_terminal today op d k p :
  unique_promise_ids d ->
  nth_error (payment_promises d) k = Some p ->
  is_terminal (pp_status p) = true ->
  unique_promise_ids (run_operation lastrowid today op d)
  /\ nth_error (payment_promises (run_operation lastrowid today op d)) k = Some p.
Proof.
  intros Hnd Hk Ht. unfold unique_promise_ids in *.
  destruct op as [cid amount date inv contact method note creator
                 |pid requested paid paid_on note|]; cbn [run_operation].
  - destruct (create_cases lastrowid today cid amount date inv contact method note creator d)
      as [(e & -> & _)|(day & c & d' & _ & _ & _ & _ & _ & -> & Hp & _)];
      cbn [snd]; [auto|].
    rewrite Hp. split.
    + rewrite map_app. cbn [map]. apply NoDup_app; [assumption|repeat constructor; intros []|].
      intros id Hin [<-|[]]. exact (lastrowid_fresh _ Hin).
    + rewrite nth_error_app1; [assumption|]. apply nth_error_Some. congruence.
  - destruct (update_promise_status today pid requested paid paid_on note d)
      as [r d'] eqn:E. cbn [snd].
    destruct (update_frame _ _ _ _ _ _ _ _ _ E) as (_ & I & F).
    split; [now rewrite I|].
    destruct (Z.eq_dec (promise_id p) pid) as [<-|Hne]; [|now apply F].
    destruct (update_terminal_rejected today requested paid paid_on note d p Hnd
                (nth_error_In _ _ Hk) Ht) as (e & E').
    rewrite E in E'. now inversion E'; subst.
  - split; [now rewrite reconcile_keeps_ids|].
    destruct (process_overdue_promises today d) as [summary d'] eqn:E. cbn [snd].
    exact (proj1 (reconcile_frame today d summary d' k p Hnd Hk
                    (terminal_not_overdue today p Ht) E)).
Qed.

Lemma terminal_persists ops : forall d k p,
  unique_promise_ids d ->
  nth_error (payment_promises d) k = Some p ->
  is_terminal (pp_status p) = true ->
  nth_error (payment_promises (run_operations lastrowid ops d)) k = Some p.
Proof.
  induction ops as [|[today op] ops IH]; intros d k p Hnd Hk Ht; cbn; [assumption|].
  destruct (operation_keeps_terminal today op d k p Hnd Hk Ht) as [Hnd' Hk'].
  now apply IH.
Qed.

End Persistence.

Lemma next_rowid_fresh l : ~ In (next_rowid l) (map promise_id l).
Proof.
  intros H. assert (G : forall x, In x (map promise_id l) ->
                          x <= fold_right Z.max 0 (map promise_id l)).
  { clear H. induction (map promise_id l) as [|a m IH]; intros x []; cbn.
    - subst. lia.
    - specialize (IH x H). lia. }
  specialize (G _ H). unfold next_rowid in G. lia.
Qed.

(** *** Claims about the promise tracker *)







(** C6: the code at the failing input.  $450.90 is exactly 90% of the
    promised $501.00 and less than 99% of it, so the promise is to become
    PARTIALLY_KEPT.  The code compares floats: the product [501.0 * 0.9] is
    the float 450.90000000000003, which is greater than the float 450.9 of
    the payment, so that no payment counts as received and the promise is
    stored and reported as BROKEN. *)
Theorem C6_payment_of_exactly_90_percent_is_broken :
  (450.9 == 501 * 0.9)%Q
  /\ (450.9 < 501 * 0.99)%Q
  /\ window_amounts ninety_percent_paid promise_501 = [450.9%Q]
  /\ (float_total [450.9%Q] < fmul (promised_float promise_501) (b64 0.9))%Q
  /\ exists summary d',
       process_overdue_promises 19013 ninety_percent_paid = (summary, d')
       /\ results summary = [(1, 7, BROKEN, false)]
       /\ map pp_status (payment_promises d') = [BROKEN].
Proof.
  split; [reflexivity|]. split; [reflexivity|]. split; [reflexivity|].
  split; [vm_compute; reflexivity|].
  do 2 eexists. split; [vm_compute; reflexivity|]. split; reflexivity.
Qed.

(** C7.  A promise that is KEPT, BROKEN or CANCELLED is not transitioned by
    any operation: every status update requested for it is rejected with an
    error and an unchanged state; a reconciliation does not select it and
    leaves its row as it is; and the row is the same after every sequence of
    creations, status updates and reconciliations. *)
Theorem C7_terminal_promises_are_immutable
    (lastrowid : list Promise -> Z) (today : Z) (d : DB) (k : nat) (p : Promise) :
  (forall l, ~ In (lastrowid l) (map promise_id l)) ->
  unique_promise_ids d ->
  nth_error (payment_promises d) k = Some p ->
  pp_status p = KEPT \/ pp_status p = BROKEN \/ pp_status p = CANCELLED ->
  (forall requested paid paid_on note,
     exists e,
       update_promise_status today (promise_id p) requested paid paid_on note d
       = (inl e, d))
  /\ (forall summary d',
        process_overdue_promises today d = (summary, d') ->
        nth_error (payment_promises d') k = Some p
        /\ ~ In (promise_id p) (reported_ids summary))
  /\ (forall ops,
        nth_error (payment_promises (run_operations lastrowid ops d)) k = Some p).
Proof.
  intros Hfresh Hnd Hk Hst.
  assert (Ht : is_terminal (pp_status p) = true)
    by (destruct Hst as [ E | [ E | E ] ]; rewrite E; reflexivity).
  split; [|split].
  - intros requested paid paid_on note.
    apply update_terminal_rejected;
      [assumption|eapply nth_error_In; eassumption|assumption].
  - intros summary d' H.
    exact (reconcile_frame today d summary d' k p Hnd Hk (terminal_not_overdue today p Ht) H).
  - intros ops. now apply terminal_persists.
Qed.

Lemma C7_witness :
  exists e,
    update_promise_status 19020 1 BROKEN 0%Q NoDate "" kept_world = (inl e, kept_world).
Proof.
  destruct (C7_terminal_promises_are_immutable next_rowid 19020 kept_world 0%nat
              kept_promise) as (Hupdate & _ & _).
  - exact next_rowid_fresh.
  - repeat constructor. intros [].
  - reflexivity.
  - now left.
  - exact (Hupdate BROKEN 0%Q NoDate ""%string).
Defined.

(** C8.  [create_payment_promise] rejects, with an error and without any
    change of the stored state, a non-positive amount, a date that is not a
    date strictly after today, a customer that does not exist, a linked invoice
    that does not exist (for that customer) or has no outstanding balance, and
    an amount above the outstanding balance of the linked invoice; every
    rejection leaves the state unchanged.  When it succeeds, it has appended
    the promise with status ACTIVE and a follow-up date one day before the
    promised payment date; and it succeeds whenever none of the rejection
    conditions holds. *)
Theorem C8_create_validates_and_stores
    (lastrowid : list Promise -> Z) (today cid : Z) (amount : Q) (date : DateInput)
    (inv : option Z) (contact method note creator : string) (d : DB) :
  let r := create_payment_promise lastrowid today cid amount date inv
                                  contact method note creator d in
  ((amount <= 0)%Q -> exists e, r = (inl e, d))
  /\ ((forall day, date = Parsed day -> day <= today) -> exists e, r = (inl e, d))
  /\ ((forall c, In c (customers d) -> customer_id c <> cid) -> exists e, r = (inl e, d))
  /\ (forall i, inv = Some i -> i <> 0 ->
        (forall x, In x (invoices d) -> invoice_id x = i -> inv_customer_id x = cid ->
                   (outstanding_amount x <= 0)%Q) ->
        exists e, r = (inl e, d))
  /\ (forall i outstanding, inv = Some i -> i <> 0 ->
        open_invoice d i cid = Some outstanding -> (outstanding < amount)%Q ->
        exists e, r = (inl e, d))
  /\ (forall e d', r = (inl e, d') -> d' = d)
  /\ (forall c d', r = (inr c, d') ->
        exists day row,
          date = Parsed day /\ today < day /\ (0 < amount)%Q
          /\ payment_promises d' = payment_promises d ++ [row]
          /\ pp_status row = ACTIVE
          /\ promised_payment_date row = day
          /\ follow_up_date row = day - 1
          /\ promised_amount row = amount
          /\ pp_customer_id row = cid
          /\ pp_invoice_id row = inv
          /\ promise_id row = new_promise_id c
          /\ new_follow_up_date c = day - 1)
  /\ (forall day, date = Parsed day -> today < day -> (0 < amount)%Q ->
        (exists c, In c (customers d) /\ customer_id c = cid) ->
        invoice_accepts d cid amount inv ->
        exists c d', r = (inr c, d')).
Proof.
  intros r. subst r.
  pose proof (create_cases lastrowid today cid amount date inv contact method note creator d)
    as Hcases.
  assert (Hopen : forall i out, open_invoice d i cid = Some out ->
            exists x, In x (invoices d) /\ invoice_id x = i /\ inv_customer_id x = cid
                      /\ out = outstanding_amount x /\ (0 < out)%Q).
  { intros i out Ho. unfold open_invoice in Ho.
    destruct (find _ (invoices d)) as [x|] eqn:Ef; [|discriminate].
    inversion Ho; subst. apply find_some in Ef as [Hin Hc].
    apply andb_prop in Hc as [Hc Hq]. apply andb_prop in Hc as [Hi Hcu].
    exists x. repeat split; try assumption; try (now apply Z.eqb_eq).
    unfold Qlt_bool in Hq. apply negb_true_iff in Hq. now apply Qle_bool_false. }
  split; [|split; [|split; [|split; [|split; [|split; [|split]]]]]].
  - intros Ha. destruct Hcases as [(e & E & _)|(day & c & d' & Hpos & _)]; [eauto|lra].
  - intros Hd.
    destruct Hcases as [(e & E & _)|(day & c & d' & _ & Ed & Hlt & _)]; [eauto|].
    specialize (Hd _ Ed). lia.
  - intros Hc.
    destruct Hcases as [(e & E & _)|(day & c & d' & _ & _ & _ & Ef & _)]; [eauto|].
    apply find_some in Ef as [Hin He]. apply Z.eqb_eq in He.
    exfalso. exact (Hc _ Hin He).
  - intros i Ei Hi Hno.
    destruct Hcases as [(e & E & _)|(day & c & d' & _ & _ & _ & _ & Hacc & _)]; [eauto|].
    exfalso. destruct Hacc as [Ht|(i' & out & Ei' & _ & Ho & _)].
    + rewrite Ei in Ht. cbn in Ht. apply negb_false_iff in Ht.
      apply Z.eqb_eq in Ht. contradiction.
    + rewrite Ei in Ei'. inversion Ei'; subst i'.
      destruct (Hopen _ _ Ho) as (x & Hin & Hid & Hcu & -> & Hpos).
      specialize (Hno x Hin Hid Hcu). lra.
  - intros i out Ei Hi Ho Hlt.
    destruct Hcases as [(e & E & _)|(day & c & d' & _ & _ & _ & _ & Hacc & _)]; [eauto|].
    exfalso. destruct Hacc as [Ht|(i' & out' & Ei' & _ & Ho' & Hle)].
    + rewrite Ei in Ht. cbn in Ht. apply negb_false_iff in Ht.
      apply Z.eqb_eq in Ht. contradiction.
    + rewrite Ei in Ei'. inversion Ei'; subst i'. rewrite Ho in Ho'.
      inversion Ho'; subst out'. lra.
  - intros e d' H.
    destruct Hcases as [(e0 & E & _)|(day & c & d0 & _ & _ & _ & _ & _ & E & _)];
      rewrite E in H; now inversion H.
  - intros c d' H.
    destruct Hcases as [(e0 & E & _)|(day & cu & d0 & Hpos & Ed & Hlt & _ & _ & E & Hp & _)];
      rewrite E in H; inversion H; subst; clear H.
    exists day. eexists. split; [reflexivity|]. split; [assumption|]. split; [assumption|].
    split; [exact Hp|]. repeat split.
  - intros day Ed Hlt Hpos (c & Hin & Hc) Hacc.
    destruct Hcases as [(e & E & Hwhy)|(day' & cu & d' & _ & _ & _ & _ & _ & E & _)];
      [|eauto].
    exfalso. destruct e; cbn in Hwhy; try contradiction.
    + lra.
    + destruct Hwhy as [F|F]; congruence.
    + destruct Hwhy as (day' & Ed' & Hle). rewrite Ed in Ed'. inversion Ed'. lia.
    + pose proof (find_none _ _ Hwhy c Hin) as F. cbn in F.
      apply Z.eqb_neq in F. contradiction.
    + destruct Hwhy as (i & Ei & Hi & Ho).
      destruct Hacc as [Ht|(i' & out & Ei' & _ & Ho' & _)].
      * rewrite Ei in Ht. cbn in Ht. apply negb_false_iff in Ht.
        apply Z.eqb_eq in Ht. contradiction.
      * rewrite Ei in Ei'. inversion Ei'; subst i'. congruence.
    + destruct Hwhy as (i & Ei & Hi & Ho & Hgt).
      destruct Hacc as [Ht|(i' & out & Ei' & _ & Ho' & Hle)].
      * rewrite Ei in Ht. cbn in Ht. apply negb_false_iff in Ht.
        apply Z.eqb_eq in Ht. contradiction.
      * rewrite Ei in Ei'. inversion Ei'; subst i'. rewrite Ho in Ho'.
        inversion Ho'; subst out. lra.
Qed.

Lemma C8_witness :
  exists c d',
    create_payment_promise next_rowid 19000 7 1000%Q (Parsed 19010) (Some 100)
                           "J. Doe" "PHONE" "" "Collection Agent" empty_ledger
    = (inr c, d').
Proof.
  apply (proj2 (proj2 (proj2 (proj2 (proj2 (proj2 (proj2
          (C8_create_validates_and_stores next_rowid 19000 7 1000%Q (Parsed 19010)
             (Some 100) "J. Doe" "PHONE" "" "Collection Agent" empty_ledger))))))) 19010).
  - reflexivity.
  - reflexivity.
  - reflexivity.
  - exists acme. split; [now left|reflexivity].
  - right. exists 100, 5000%Q. repeat split; [discriminate|discriminate].
Defined.

End PromisesProofs.

(** ** Properties of the priority scorer *)

Module ScoringProofs.

Import Scoring.

(** What is returned as the score: the weighted sum rounded to two decimals,
    with no clamp. *)
Lemma returned_score_is_rounded_weighted_sum today d cid s :
  calculate_customer_priority_score today d cid = scored s ->
  exists c,
    _get_customer_info d cid = Some c
    /\ _get_outstanding_invoices d cid <> []
    /\ priority_score s
       = round2 (weighted_sum (component_scores_of today d cid c
                                 (_get_outstanding_invoices d cid))).
Proof.
  unfold calculate_customer_priority_score.
  destruct (_get_customer_info d cid) as [c|]; [|discriminate].
  destruct (_get_outstanding_invoices d cid) as [|first rest]; [discriminate|].
  intros H. inversion H; subst; clear H. exists c.
  split; [reflexivity|]. split; [discriminate|reflexivity].
Qed.

(** With all five components in [0, 100] the weighted sum is in [0, 100]:
    the weights are non-negative and add up to 1. *)
Lemma weighted_sum_range c :
  (0 <= amount_score c <= 100)%Q -> (0 <= aging_score c <= 100)%Q ->
  (0 <= history_score c <= 100)%Q -> (0 <= relationship_score c <= 100)%Q ->
  (0 <= effort_score c <= 100)%Q ->
  (0 <= weighted_sum c <= 100)%Q.
Proof.
  unfold weighted_sum, amount_weight, aging_weight, customer_history_weight,
    relationship_weight, collection_effort_weight.
  intros. lra.
Qed.

(** *** Concrete input: one invoice that falls due in 120 days *)

(** C9: the code at the failing input.  The five components are 10, -96,
    20, 35 and 50; the returned score is their weighted sum, -12.05, which is
    below 0: it is neither clamped nor within [0, 100]. *)
Theorem C9_score_below_zero :
  exists s,
    calculate_customer_priority_score 19000 early_invoice 7 = scored s
    /\ (weighted_sum (component_scores_of 19000 early_invoice 7 late_payer [not_yet_due])
        == -12.05)%Q
    /\ (priority_score s == -12.05)%Q
    /\ (priority_score s < 0)%Q
    /\ ~ (priority_score s == Qmax 0 (Qmin 100 (priority_score s)))%Q.
Proof.
  eexists. split; [vm_compute; reflexivity|].
  repeat split; try (vm_compute; reflexivity).
  vm_compute. discriminate.
Qed.

End ScoringProofs.

(** ** Properties of the further code *)

(** *** Sorted lists *)

Lemma insert_by_sorted {A} (key : A -> Z) x l :
  StronglySorted (fun a b => key a <= key b) l ->
  StronglySorted (fun a b => key a <= key b) (insert_by key x l).
Proof.
  induction 1 as [|y l Hs IH Hall]; simpl.
  - repeat constructor.
  - destruct (Z.leb_spec (key x) (key y)).
    + constructor; [constructor; assumption|]. constructor; [assumption|].
      eapply Forall_impl; [|exact Hall]. intros a Ha. cbn beta in *. lia.
    + constructor; [assumption|].
      eapply Permutation_Forall; [apply insert_by_perm|].
      constructor; [lia|assumption].
Qed.

Lemma order_by_sorted {A} (key : A -> Z) l :
  StronglySorted (fun a b => key a <= key b) (order_by key l).
Proof.
  induction l as [|x l IH]; simpl; [constructor|]. now apply insert_by_sorted.
Qed.

Lemma sorted_app_le {A} (R : A -> A -> Prop) l1 l2 x y :
  StronglySorted R (l1 ++ l2) -> In x l1 -> In y l2 -> R x y.
Proof.
  induction l1 as [|a l1 IH]; intros Hs Hx Hy; [contradiction|].
  simpl in Hs. inversion Hs as [|? ? Hs' Hall]; subst.
  destruct Hx as [->|Hx]; [|now apply IH].
  rewrite Forall_forall in Hall. apply Hall. apply in_or_app. now right.
Qed.

Lemma sorted_firstn {A} (R : A -> A -> Prop) n l :
  StronglySorted R l -> StronglySorted R (firstn n l).
Proof.
  intros H. revert n. induction H as [|a l Hs IH Hall]; intros n.
  - rewrite firstn_nil. constructor.
  - destruct n; simpl; constructor; [apply IH|].
    rewrite Forall_forall in *. intros x Hx. apply Hall.
    rewrite <- (firstn_skipn n l). apply in_or_app. now left.
Qed.

Lemma sorted_map {A B} (f : A -> B) (R : B -> B -> Prop) l :
  StronglySorted (fun a b => R (f a) (f b)) l -> StronglySorted R (map f l).
Proof.
  induction 1 as [|a l Hs IH Hall]; simpl; constructor; [assumption|].
  rewrite Forall_forall in *. intros y Hy.
  apply in_map_iff in Hy as (x & <- & Hx). now apply Hall.
Qed.

Lemma Forall2_trans {A} (P : A -> A -> Prop) :
  (forall a b c, P a b -> P b c -> P a c) ->
  forall l1 l2 l3, Forall2 P l1 l2 -> Forall2 P l2 l3 -> Forall2 P l1 l3.
Proof.
  intros Ht l1 l2 l3 H. revert l3.
  induction H as [|a b l1 l2 Hab _ IH]; intros l3 H3.
  - inversion H3. constructor.
  - inversion H3 as [|? c ? l3' Hbc H3']; subst. constructor.
    + eapply Ht; eassumption.
    + now apply IH.
Qed.

(** *** [ORDER BY] with a comparison *)

Lemma insert_sorted_perm {A} (le : A -> A -> bool) x l :
  Permutation (x :: l) (insert_sorted le x l).
Proof.
  induction l as [|y l IH]; simpl; [reflexivity|].
  destruct (le x y); [reflexivity|].
  rewrite perm_swap. now constructor.
Qed.

Lemma sort_by_perm {A} (le : A -> A -> bool) l :
  Permutation l (sort_by le l).
Proof.
  induction l as [|x l IH]; simpl; [constructor|].
  rewrite <- insert_sorted_perm. now constructor.
Qed.

Lemma sort_by_In {A} (le : A -> A -> bool) l x :
  In x (sort_by le l) <-> In x l.
Proof.
  split; apply Permutation_in; [symmetry|]; apply sort_by_perm.
Qed.

Lemma sort_by_length {A} (le : A -> A -> bool) l :
  List.length (sort_by le l) = List.length l.
Proof. symmetry. apply Permutation_length, sort_by_perm. Qed.

Section Sorting.

Context {A : Type} (le : A -> A -> bool).

Hypothesis le_total : forall a b, le a b = false -> le b a = true.

Hypothesis le_trans : forall a b c, le a b = true -> le b c = true -> le a c = true.

Lemma insert_sorted_sorted x l :
  StronglySorted (fun a b => le a b = true) l ->
  StronglySorted (fun a b => le a b = true) (insert_sorted le x l).
Proof.
  induction 1 as [|y l Hs IH Hall]; simpl.
  - repeat constructor.
  - destruct (le x y) eqn:E.
    + constructor; [constructor; assumption|]. constructor; [assumption|].
      eapply Forall_impl; [|exact Hall]. intros a Ha. cbn beta in *.
      eapply le_trans; eassumption.
    + constructor; [assumption|].
      rewrite Forall_forall in *. intros a Ha.
      apply (Permutation_in _ (Permutation_sym (insert_sorted_perm le x l))) in Ha.
      destruct Ha as [<-|Ha]; [now apply le_total|now apply Hall].
Qed.

Lemma sort_by_sorted l :
  StronglySorted (fun a b => le a b = true) (sort_by le l).
Proof.
  induction l as [|x l IH]; simpl; [constructor|]. now apply insert_sorted_sorted.
Qed.

End Sorting.

Lemma sorted_weaken {A} (R S : A -> A -> Prop) l :
  (forall a b, R a b -> S a b) -> StronglySorted R l -> StronglySorted S l.
Proof.
  intros H. induction 1 as [|a l Hs IH Hall]; constructor; [assumption|].
  eapply Forall_impl; [|exact Hall]. auto.
Qed.

(** ** Further properties of the workflow engine *)

Module WorkflowsProofs.

Import Engine EngineProofs Workflows.

(** *** Definitions shadowed by an earlier, weaker one *)

Lemma weaker_trigger_matches a b i c :
  weaker_trigger a b -> trigger_matches b i c = true -> trigger_matches a i c = true.
Proof.
  intros (Hd & Ha & Hf). unfold trigger_matches. rewrite Hf.
  rewrite !andb_true_iff. intros [[[Ho Hdays] Hamt] _].
  repeat split; try assumption.
  - apply Z.leb_le. apply Z.leb_le in Hdays. lia.
  - apply Qle_bool_iff. apply Qle_bool_iff in Hamt.
    eapply Qle_trans; eassumption.
Qed.

Lemma no_match_weaker a b d : weaker_trigger a b -> no_match a d -> no_match b d.
Proof.
  intros Hw H i c Hi Hc Hj Ht. apply (H i c Hi Hc Hj).
  eapply weaker_trigger_matches; eassumption.
Qed.

Section Shadow.

Variable clk : nat -> Z.

Variable B : Workflow.

(** A scan over definitions none of which can create an instance for [B]. *)
Lemma scan_idle ws : forall w o w',
  map_m (trigger_workflow clk) ws w = (o, w') ->
  (forall wf, In wf ws -> workflow_id wf = workflow_id B -> wf = B) ->
  no_match B (db w) ->
  exists news,
    appended w w' news
    /\ Forall (fun i => wi_workflow_id i <> workflow_id B) news.
Proof.
  induction ws as [|wf ws IH]; intros w o w' H Hid Hnm; simpl in H.
  - inversion H; subst. exists []. split; [apply appended_refl|constructor].
  - assert (Hhead : forall o1 w1, trigger_workflow clk wf w = (o1, w1) ->
              exists n1, appended w w1 n1
                /\ Forall (fun i => wi_workflow_id i <> workflow_id B) n1).
    { intros o1 w1 Hw. apply trigger_workflow_spec in Hw as (n1 & Ha1 & Hall & _).
      exists n1. split; [assumption|].
      eapply Forall_impl; [|exact Hall]. intros i (row & Hrow & Hmade) E.
      apply created_for_covers in Hmade as (_ & _ & _ & Hwid & _).
      rewrite Hwid in E. rewrite (Hid wf (or_introl eq_refl) E) in Hrow.
      now rewrite (no_match_matching_nil _ _ Hnm) in Hrow. }
    apply bind_inv in H as [(ids & w1 & Hw & H)|(e & Hw & _)]; [|exact (Hhead _ _ Hw)].
    destruct (Hhead _ _ Hw) as (n1 & Ha1 & Hall1).
    assert (Hrest : forall o2 w2, map_m (trigger_workflow clk) ws w1 = (o2, w2) ->
              exists news, appended w w2 news
                /\ Forall (fun i => wi_workflow_id i <> workflow_id B) news).
    { intros o2 w2 Hr.
      destruct (IH _ _ _ Hr) as (n2 & Ha2 & Hall2).
      - intros wf' Hin. apply Hid. now right.
      - exact (no_match_mono _ _ _ _ Ha1 Hnm).
      - exists (n1 ++ n2). split; [exact (appended_trans _ _ _ _ _ Ha1 Ha2)|].
        apply Forall_app. now split. }
    apply bind_inv in H as [(idss & w2 & Hr & H)|(e & Hr & _)].
    + inversion H; subst. exact (Hrest _ _ Hr).
    + exact (Hrest _ _ Hr).
Qed.

Lemma scan_shadowed A rest pre : forall w idss w',
  map_m (trigger_workflow clk) (pre ++ A :: rest) w = (Ret idss, w') ->
  (forall wf, In wf (pre ++ A :: rest) -> workflow_id wf = workflow_id B -> wf = B) ->
  ~ In B pre -> A <> B -> weaker_trigger A B ->
  exists news,
    appended w w' news
    /\ Forall (fun i => wi_workflow_id i <> workflow_id B) news.
Proof.
  induction pre as [|wf pre IH]; intros w idss w' H Hid Hpre HAB Hweak; simpl in H.
  - apply bind_ret_inv in H as (ids & w1 & Hw & H).
    apply bind_ret_inv in H as (idss' & w2 & Hr & H). inversion H; subst; clear H.
    pose proof (trigger_workflow_no_match _ _ _ _ _ Hw) as Hnm.
    apply trigger_workflow_spec in Hw as (n1 & Ha1 & Hall & _).
    destruct (scan_idle rest _ _ _ Hr) as (n2 & Ha2 & Hall2).
    + intros wf Hin. apply Hid. now right.
    + exact (no_match_weaker _ _ _ Hweak Hnm).
    + exists (n1 ++ n2). split; [exact (appended_trans _ _ _ _ _ Ha1 Ha2)|].
      apply Forall_app. split; [|assumption].
      eapply Forall_impl; [|exact Hall]. intros i (row & _ & Hmade) E.
      apply created_for_covers in Hmade as (_ & _ & _ & Hwid & _).
      rewrite Hwid in E. apply HAB. apply Hid; [now left|assumption].
  - apply bind_ret_inv in H as (ids & w1 & Hw & H).
    apply bind_ret_inv in H as (idss' & w2 & Hr & H). inversion H; subst; clear H.
    apply trigger_workflow_spec in Hw as (n1 & Ha1 & Hall & _).
    destruct (IH _ _ _ Hr) as (n2 & Ha2 & Hall2); try assumption.
    + intros wf' Hin. apply Hid. now right.
    + intros F. apply Hpre. now right.
    + exists (n1 ++ n2). split; [exact (appended_trans _ _ _ _ _ Ha1 Ha2)|].
      apply Forall_app. split; [|assumption].
      eapply Forall_impl; [|exact Hall]. intros i (row & _ & Hmade) E.
      apply created_for_covers in Hmade as (_ & _ & _ & Hwid & _).
      rewrite Hwid in E. apply Hpre. left. apply Hid; [now left|assumption].
Qed.

End Shadow.

Lemma active_workflows_NoDup d :
  NoDup (map workflow_id (collection_workflows d)) ->
  NoDup (map workflow_id (active_workflows d)).
Proof.
  intros H. unfold active_workflows. eapply Permutation_NoDup.
  - apply Permutation_map. apply order_by_perm.
  - now apply NoDup_map_filter.
Qed.

Lemma active_workflows_In d wf :
  In wf (active_workflows d) -> In wf (collection_workflows d).
Proof.
  unfold active_workflows. intros H. apply order_by_In in H.
  now apply filter_In in H.
Qed.

(** X1.  A definition that comes after a definition with a weaker trigger in
    the execution order never fires: a scan that returns creates no instance
    of it, whatever the invoices are. *)
Theorem shadowed_definition_never_fires
    (clk : nat -> Z) (w w' : World) (ids : list InstanceId)
    (pre mid post : list Workflow) (A B : Workflow) :
  NoDup (map workflow_id (collection_workflows (db w))) ->
  active_workflows (db w) = pre ++ A :: mid ++ B :: post ->
  weaker_trigger A B ->
  trigger_workflows clk w = (Ret ids, w') ->
  exists news,
    workflow_instances (db w') = workflow_instances (db w) ++ news
    /\ map instance_id news = ids
    /\ Forall (fun i => wi_workflow_id i <> workflow_id B) news.
Proof.
  intros Hnd Hact Hweak H.
  pose proof (active_workflows_NoDup _ Hnd) as Hnda. rewrite Hact in Hnda.
  assert (HB : In B (collection_workflows (db w))).
  { apply active_workflows_In. rewrite Hact. apply in_or_app. right. right.
    apply in_or_app. right. now left. }
  unfold trigger_workflows in H.
  apply bind_ret_inv in H as (d & w0 & Hg & H). inversion Hg; subst; clear Hg.
  apply bind_ret_inv in H as (idss & w2 & Hs & H). inversion H; subst; clear H.
  rewrite Hact in Hs. pose proof Hs as Hs'.
  apply scan_spec in Hs' as (news' & Ha' & _ & Hok).
  destruct (Hok _ eq_refl) as [_ Hids].
  destruct (scan_shadowed clk B A (mid ++ B :: post) pre _ _ _ Hs) as (news & Ha & Hall).
  - intros wf Hin E. rewrite <- Hact in Hin. apply active_workflows_In in Hin.
    exact (NoDup_map_In_eq _ _ _ _ Hnd Hin HB E).
  - intros F. rewrite map_app in Hnda. apply NoDup_app_remove_l in Hnda as Hr.
    clear Hr. revert Hnda. rewrite <- map_app.
    intros Hn. apply in_split in F as (p1 & p2 & ->).
    rewrite <- !app_assoc in Hn. cbn in Hn. rewrite map_app in Hn. cbn in Hn.
    apply NoDup_remove_2 in Hn. apply Hn. rewrite <- map_app. apply in_map.
    apply in_or_app. right. apply in_or_app. right. right.
    apply in_or_app. right. now left.
  - intros ->. rewrite map_app in Hnda. apply NoDup_app_remove_l in Hnda.
    cbn in Hnda. inversion Hnda as [|? ? Hn _]; subst. apply Hn.
    apply in_map. apply in_or_app. right. now left.
  - assumption.
  - exists news. destruct Ha as [_ E], Ha' as [_ E']. rewrite E in E'.
    apply app_inv_head in E'. subst news'. repeat split; auto.
Qed.


Lemma shadowed_definition_witness :
  exists legal news,
    nth_error (active_workflows (db defaults_world)) 3 = Some legal
    /\ workflow_name legal = "Legal Referral Workflow"%string
    /\ trigger_matches legal old_invoice acme = true
    /\ workflow_instances (db defaults_scanned) = news
    /\ Forall (fun i => wi_workflow_id i <> workflow_id legal) news.
Proof.
  destruct (shadowed_definition_never_fires example_clock defaults_world defaults_scanned
              [mkId 1 7 1700000000] []
              [mkWorkflow 2 "Standard Collection Workflow" 31 500 None true 1;
               mkWorkflow 3 "Intensive Collection Workflow" 61 1000 None true 1]
              []
              (mkWorkflow 1 "Early Reminder Workflow" 1 100 None true 1)
              (mkWorkflow 4 "Legal Referral Workflow" 90 2000 None true 1))
    as (news & Hrows & _ & Hall).
  - cbn. repeat constructor; cbn; intuition discriminate.
  - reflexivity.
  - repeat split; cbn; try lia. unfold Qle. cbn. lia.
  - reflexivity.
  - exists (mkWorkflow 4 "Legal Referral Workflow" 90 2000 None true 1), news.
    repeat split; try reflexivity; [exact Hrows|exact Hall].
Defined.

(** *** [create_workflow_definition] *)

Lemma find_app_none {A} (p : A -> bool) l1 l2 :
  find p l1 = None -> find p (l1 ++ l2) = find p l2.
Proof.
  induction l1 as [|x l1 IH]; simpl; [reflexivity|].
  destruct (p x); [discriminate|assumption].
Qed.

Lemma find_app_false {A} (p : A -> bool) l1 l2 :
  (forall x, In x l2 -> p x = false) -> find p (l1 ++ l2) = find p l1.
Proof.
  intros H. induction l1 as [|x l1 IH]; simpl.
  - destruct (find p l2) as [y|] eqn:E; [|reflexivity].
    apply find_some in E as [Hin Hp]. rewrite (H _ Hin) in Hp. discriminate.
  - now destruct (p x).
Qed.

Lemma find_nth_first {A} (p : A -> bool) l : forall k x,
  nth_error l k = Some x -> p x = true ->
  (forall j y, (j < k)%nat -> nth_error l j = Some y -> p y = false) ->
  find p l = Some x.
Proof.
  induction l as [|a l IH]; intros k x Hk Hp Hbefore; [destruct k; discriminate|].
  destruct k as [|k]; simpl in *.
  - inversion Hk; subst. now rewrite Hp.
  - rewrite (Hbefore 0%nat a) by (reflexivity || lia).
    apply (IH k); try assumption.
    intros j y Hj Hy. apply (Hbefore (S j)); [lia|assumption].
Qed.

Section Creation.

Variable workflow_rowid : list Workflow -> Z.

Variable default_execution_order : Z.

Variable step_rowid : list Step -> Z.

Lemma insert_steps_spec wid : forall actions idx steps,
  exists news,
    insert_steps step_rowid wid idx actions steps = steps ++ news
    /\ List.length news = List.length actions
    /\ forall k a, nth_error actions k = Some a ->
         exists sid, nth_error news k = Some (step_of wid sid (idx + k) a).
Proof.
  induction actions as [|a rest IH]; intros idx steps; simpl.
  - exists []. split; [now rewrite app_nil_r|]. split; [reflexivity|].
    intros k a Hk. destruct k; discriminate.
  - destruct (IH (S idx) (steps ++ [step_of wid (step_rowid steps) idx a]))
      as (news & E & Hlen & Hnth).
    exists (step_of wid (step_rowid steps) idx a :: news).
    split; [now rewrite E, <- app_assoc|]. split; [simpl; now rewrite Hlen|].
    intros k b Hk. destruct k as [|k]; simpl in *.
    + inversion Hk; subst. rewrite Nat.add_0_r. eauto.
    + destruct (Hnth _ _ Hk) as (sid & Hs). exists sid.
      now rewrite Nat.add_succ_r.
Qed.

(** X2.  [create_workflow_definition] with no action raises before it writes;
    with actions and an id that no step row uses yet, it appends an active
    definition that carries the trigger, numbers the steps 1..n in the order
    of the actions, so that each is found again at its order with the fields
    of its action, no step is found at any other order, the greatest step
    order is n, and the steps of the other definitions are found as before. *)
Theorem create_workflow_definition_round_trip
    (name : string) (trigger : WorkflowTrigger) (actions : list WorkflowAction) (d : DB) :
  actions <> [] ->
  (forall s, In s (workflow_steps d) ->
             ws_workflow_id s <> workflow_rowid (collection_workflows d)) ->
  create_workflow_definition workflow_rowid default_execution_order step_rowid
      name trigger [] d = (inl list_index_out_of_range, d)
  /\ exists d' wf,
       let wid := workflow_rowid (collection_workflows d) in
       create_workflow_definition workflow_rowid default_execution_order step_rowid
           name trigger actions d = (inr wid, d')
       /\ collection_workflows d' = collection_workflows d ++ [wf]
       /\ workflow_id wf = wid /\ is_active wf = true
       /\ days_past_due_trigger wf = trg_days_past_due trigger
       /\ amount_threshold wf = trg_amount_threshold trigger
       /\ customer_type_filter wf = trg_customer_type trigger
       /\ (forall k a, nth_error actions k = Some a ->
             exists s, step_data d' wid (Z.of_nat k + 1) = Some s
                       /\ action_type s = value (wa_action_type a)
                       /\ template_id s = wa_template_id a
                       /\ assigned_to s = wa_assigned_to a
                       /\ delay_days s = Some (wa_delay_days a)
                       /\ escalation_days s = wa_escalation_days a)
       /\ (forall n, n <= 0 \/ Z.of_nat (List.length actions) < n ->
             step_data d' wid n = None)
       /\ max_step_order d' wid = Some (Z.of_nat (List.length actions))
       /\ (forall wid' n, wid' <> wid -> step_data d' wid' n = step_data d wid' n).
Proof.
  intros Hne Hfresh. split; [reflexivity|].
  set (wid := workflow_rowid (collection_workflows d)) in *.
  destruct (insert_steps_spec wid actions 0 (workflow_steps d)) as (news & E & Hlen & Hnth).
  assert (Hnew : forall s, In s news ->
            exists k sid a, nth_error actions k = Some a /\ s = step_of wid sid k a).
  { intros s Hin. apply In_nth_error in Hin as (k & Hk).
    assert (Hlt : (k < List.length actions)%nat).
    { rewrite <- Hlen. apply nth_error_Some. congruence. }
    apply nth_error_Some in Hlt.
    destruct (nth_error actions k) as [a|] eqn:Ea; [|congruence].
    destruct (Hnth _ _ Ea) as (sid & Hs). exists k, sid, a.
    split; [assumption|]. simpl in Hs. congruence. }
  assert (Hold : forall n, find (fun s => (ws_workflow_id s =? wid) && (step_order s =? n)
                                          && ws_is_active s) (workflow_steps d) = None).
  { intros n. destruct (find _ _) as [s|] eqn:F; [|reflexivity].
    apply find_some in F as [Hin Hp].
    apply andb_prop in Hp as [Hp _]. apply andb_prop in Hp as [Hp _].
    apply Z.eqb_eq in Hp. now apply Hfresh in Hin. }
  destruct actions as [|a0 rest] eqn:Ea; [contradiction|]. rewrite <- Ea in *.
  eexists. exists (mkWorkflow wid name (trg_days_past_due trigger)
                     (trg_amount_threshold trigger) (trg_customer_type trigger)
                     true default_execution_order).
  cbn zeta. split; [rewrite Ea at 1; reflexivity|]. fold wid. rewrite <- Ea.
  cbn [collection_workflows with_definition workflow_id is_active
       days_past_due_trigger amount_threshold customer_type_filter].
  do 6 (split; [reflexivity|]).
  unfold step_data, max_step_order. cbn [workflow_steps with_definition]. rewrite E.
  split; [|split; [|split]].
  - intros k a Hk. destruct (Hnth _ _ Hk) as (sid & Hs). simpl in Hs.
    exists (step_of wid sid k a). split; [|repeat split].
    rewrite find_app_none by apply Hold.
    apply (find_nth_first _ _ k); [assumption| |].
    + cbn. now rewrite !Z.eqb_refl.
    + intros j y Hj Hy.
      assert (Hlt : (j < List.length actions)%nat).
      { rewrite <- Hlen. apply nth_error_Some. congruence. }
      apply nth_error_Some in Hlt.
      destruct (nth_error actions j) as [b|] eqn:Eb; [|congruence].
      destruct (Hnth _ _ Eb) as (sid' & Hs'). simpl in Hs'.
      assert (y = step_of wid sid' j b) as -> by congruence. cbn.
      rewrite Z.eqb_refl. cbn.
      destruct (Z.eqb_spec (Z.of_nat j + 1) (Z.of_nat k + 1)); [lia|reflexivity].
  - intros n Hn. rewrite find_app_none by apply Hold.
    destruct (find _ news) as [s|] eqn:F; [|reflexivity].
    apply find_some in F as [Hin Hp].
    destruct (Hnew _ Hin) as (k & sid & a & Hk & ->). cbn in Hp.
    assert (Hlt : (k < List.length actions)%nat) by (apply nth_error_Some; congruence).
    rewrite andb_true_r in Hp. apply andb_prop in Hp as [_ Hp].
    apply Z.eqb_eq in Hp. lia.
  - pose proof (max_step_order_spec
                  (with_definition (mkWorkflow wid name 0 0 None true 0)
                     (workflow_steps d ++ news) d) wid) as Hm.
    unfold max_step_order in Hm. cbn [workflow_steps with_definition] in Hm.
    destruct (fold_left _ (workflow_steps d ++ news) None) as [m|].
    + destruct Hm as [(s & Hin & Hw & Ho) Hall]. f_equal.
      assert (Hlast : exists a, nth_error actions (List.length actions - 1) = Some a).
      { destruct (nth_error actions (List.length actions - 1)) as [a|] eqn:F; [eauto|].
        apply nth_error_None in F. rewrite Ea in F. simpl in F. lia. }
      destruct Hlast as (a & Hlast). destruct (Hnth _ _ Hlast) as (sid & Hs).
      simpl in Hs. apply nth_error_In in Hs.
      specialize (Hall _ (in_or_app _ _ _ (or_intror Hs)) eq_refl). cbn in Hall.
      apply in_app_or in Hin as [Hin|Hin]; [now apply Hfresh in Hin|].
      destruct (Hnew _ Hin) as (k & sid' & b & Hk & ->). cbn in Ho.
      assert (Hlt : (k < List.length actions)%nat) by (apply nth_error_Some; congruence).
      rewrite Ea in Hall, Hlt |- *. simpl in Hall, Hlt |- *. lia.
    + exfalso. destruct (Hnth 0%nat a0) as (sid & Hs); [now rewrite Ea|].
      apply nth_error_In in Hs.
      now apply (Hm _ (in_or_app _ _ _ (or_intror Hs))).
  - intros wid' n Hw. apply find_app_false. intros s Hin.
    destruct (Hnew _ Hin) as (k & sid & a & _ & ->). cbn.
    destruct (Z.eqb_spec wid wid'); [congruence|reflexivity].
Qed.

End Creation.

Lemma create_workflow_definition_witness :
  exists d',
    create_workflow_definition next_workflow_id 1 next_step_id "Early Reminder Workflow"
        (mkTrigger 1 100 None None None) early_actions no_definitions = (inr 1, d')
    /\ max_step_order d' 1 = Some 3
    /\ step_data d' 1 4 = None.
Proof.
  destruct (create_workflow_definition_round_trip next_workflow_id 1 next_step_id
              "Early Reminder Workflow" (mkTrigger 1 100 None None None)
              early_actions no_definitions)
    as (_ & d' & wf & Hc & _ & _ & _ & _ & _ & _ & _ & Hnone & Hmax & _).
  - discriminate.
  - intros s [].
  - exists d'. split; [exact Hc|]. split; [exact Hmax|].
    apply Hnone. right. cbn. lia.
Defined.

(** *** [get_workflow_status] *)

Lemma count_status_total l :
  count_status ACTIVE l + count_status CANCELLED l + count_status COMPLETED l
  + count_status FAILED l + count_status PENDING l = Z.of_nat (List.length l).
Proof.
  unfold count_status. induction l as [|i l IH]; [reflexivity|].
  cbn [filter List.length]. destruct (status i); cbn [status_eqb List.length]; lia.
Qed.

(** X3.  The status report: the summary has an entry for a status exactly when
    some instance has it, holding the number of such instances, and the
    entries add up to the number of instances; the upcoming executions are at
    most ten PENDING or ACTIVE instances in ascending order of their scheduled
    date, and no PENDING or ACTIVE instance that is left out is scheduled
    before one that is listed. *)
Theorem get_workflow_status_report (d : DB) :
  let r := get_workflow_status d in
  (forall s, summary_get s (report_status_summary r)
             = if 0 <? count_status s (workflow_instances d)
               then Some (count_status s (workflow_instances d)) else None)
  /\ fold_right Z.add 0 (map snd (report_status_summary r))
     = Z.of_nat (List.length (workflow_instances d))
  /\ (List.length (upcoming_executions r) <= 10)%nat
  /\ (forall row, In row (upcoming_executions r) ->
        exists i, In i (workflow_instances d) /\ row = upcoming_row i
                  /\ (status i = PENDING \/ status i = ACTIVE))
  /\ StronglySorted (fun a b => snd a <= snd b) (upcoming_executions r)
  /\ (forall i row,
        In i (workflow_instances d) -> status i = PENDING \/ status i = ACTIVE ->
        ~ In (upcoming_row i) (upcoming_executions r) ->
        In row (upcoming_executions r) -> snd row <= scheduled_date i).
Proof.
  cbn zeta. unfold get_workflow_status.
  cbn [report_status_summary upcoming_executions].
  set (l := workflow_instances d).
  set (out := order_by scheduled_date (filter in_active_workflow l)).
  assert (Hout : forall i, In i out <->
            In i l /\ (status i = PENDING \/ status i = ACTIVE)).
  { intros i. unfold out. rewrite order_by_In, filter_In. unfold in_active_workflow.
    split; intros [Hin Hs]; (split; [assumption|]); destruct (status i);
      cbn in *; auto; try discriminate; destruct Hs; discriminate. }
  repeat split.
  - intros s. unfold status_summary, all_statuses, summary_get. fold l.
    cbn [flat_map app].
    pose proof (count_status_total l) as Ht.
    assert (Hpos : forall s', 0 <= count_status s' l) by (intros; apply Nat2Z.is_nonneg).
    destruct s;
      destruct (0 <? count_status ACTIVE l), (0 <? count_status CANCELLED l),
        (0 <? count_status COMPLETED l), (0 <? count_status FAILED l),
        (0 <? count_status PENDING l); reflexivity.
  - unfold status_summary, all_statuses. fold l. cbn [flat_map app].
    rewrite <- (count_status_total l).
    assert (Hz : forall s', (0 <? count_status s' l) = false -> count_status s' l = 0).
    { intros s' H. apply Z.ltb_ge in H. pose proof (Nat2Z.is_nonneg
        (List.length (filter (fun i => status_eqb (status i) s') l))).
      unfold count_status in *. lia. }
    destruct (0 <? count_status ACTIVE l) eqn:E1, (0 <? count_status CANCELLED l) eqn:E2,
      (0 <? count_status COMPLETED l) eqn:E3, (0 <? count_status FAILED l) eqn:E4,
      (0 <? count_status PENDING l) eqn:E5; cbn [map fold_right snd app];
      rewrite ?(Hz _ E1), ?(Hz _ E2), ?(Hz _ E3), ?(Hz _ E4), ?(Hz _ E5); lia.
  - rewrite length_map. unfold upcoming. apply firstn_le_length.
  - intros row Hrow. apply in_map_iff in Hrow as (i & <- & Hi).
    unfold upcoming in Hi. fold l in Hi. fold out in Hi.
    assert (Hi' : In i out).
    { rewrite <- (firstn_skipn 10 out). apply in_or_app. now left. }
    apply Hout in Hi' as [Hin Hs]. exists i. auto.
  - apply sorted_map. cbn [snd upcoming_row]. unfold upcoming.
    apply sorted_firstn. apply order_by_sorted.
  - intros i row Hin Hs Hnot Hrow. fold l in Hin.
    apply in_map_iff in Hrow as (j & <- & Hj). cbn [snd upcoming_row].
    unfold upcoming in Hj, Hnot. fold l in Hj, Hnot. fold out in Hj, Hnot.
    assert (Hi : In i out) by (apply Hout; auto).
    rewrite <- (firstn_skipn 10 out) in Hi. apply in_app_or in Hi as [Hi|Hi].
    + exfalso. apply Hnot. now apply in_map.
    + apply (sorted_app_le (fun a b => scheduled_date a <= scheduled_date b)
               (firstn 10 out) (skipn 10 out)); try assumption.
      rewrite firstn_skipn. apply order_by_sorted.
Qed.

(** *** What the writes of the engine preserve *)

Section Keeps.

Variable R : DB -> DB -> Prop.

Hypothesis R_refl : forall d, R d d.

Hypothesis R_trans : forall d1 d2 d3, R d1 d2 -> R d2 d3 -> R d1 d3.

Lemma keeps_ret {A} (a : A) : keeps R (ret a).
Proof. intros w o w' H. inversion H. apply R_refl. Qed.

Lemma keeps_raise {A} e : keeps R (@raise A e).
Proof. intros w o w' H. inversion H. apply R_refl. Qed.

Lemma keeps_get_db : keeps R get_db.
Proof. intros w o w' H. inversion H. apply R_refl. Qed.

Lemma keeps_now clk : keeps R (now clk).
Proof. intros w o w' H. inversion H. apply R_refl. Qed.

Lemma keeps_modify f : (forall d, R d (f d)) -> keeps R (modify_db f).
Proof. intros Hf w o w' H. inversion H. apply Hf. Qed.

Lemma keeps_bind {A B} (m : M A) (k : A -> M B) :
  keeps R m -> (forall a, keeps R (k a)) -> keeps R (bind m k).
Proof.
  intros Hm Hk w o w' H.
  apply bind_inv in H as [(a & w1 & H1 & H2)|(e & H1 & _)].
  - eapply R_trans; [exact (Hm _ _ _ H1)|exact (Hk _ _ _ _ H2)].
  - exact (Hm _ _ _ H1).
Qed.

Lemma keeps_try {A} (m : M A) : keeps R m -> keeps R (try m).
Proof.
  intros Hm w o w' H. unfold try in H.
  destruct (m w) as [[a|e] w1] eqn:E; inversion H; subst; exact (Hm _ _ _ E).
Qed.

Lemma keeps_map_m {A B} (f : A -> M B) l :
  (forall x, keeps R (f x)) -> keeps R (map_m f l).
Proof.
  intros Hf. induction l as [|x l IH]; simpl; [apply keeps_ret|].
  apply keeps_bind; [apply Hf|]. intros y.
  apply keeps_bind; [apply IH|]. intros ys. apply keeps_ret.
Qed.

Lemma keeps_fold_m {A S} (f : S -> A -> M S) l :
  (forall s x, keeps R (f s x)) -> forall s, keeps R (fold_m f l s).
Proof.
  intros Hf. induction l as [|x l IH]; intros s; simpl; [apply keeps_ret|].
  apply keeps_bind; [apply Hf|]. intros s'. apply IH.
Qed.

(** [R] is stable under each write that the engine makes. *)
Hypothesis R_instances : forall f d, R d (with_instances f d).

Hypothesis R_hold : forall stamp cid d,
  R d (with_customers (update_where (fun c => customer_id c =? cid) (hold stamp)) d).

Hypothesis R_log : forall id sid r ms d,
  R d (insert_log (mkLog id sid "SUCCESS" r ms) d).

Hypothesis R_activity : forall a d, R d (insert_activity a d).

Hypothesis R_credit : forall e d, R d (insert_credit_event e d).

Ltac keep :=
  repeat first
    [ apply keeps_ret | apply keeps_raise | apply keeps_get_db | apply keeps_now
    | apply keeps_modify; intros;
        first [apply R_instances | apply R_hold | apply R_log
              | apply R_activity | apply R_credit]
    | apply keeps_bind; [|intros]
    | match goal with
      | |- keeps _ (match ?x with _ => _ end) => destruct x
      | |- keeps _ (if ?b then _ else _) => destruct b
      end ].

Variable clk : nat -> Z.

Lemma keeps_execute_action action cid inv template assigned :
  keeps R (_execute_action clk action cid inv template assigned).
Proof.
  unfold _execute_action, _send_email_reminder, _schedule_phone_call,
    _generate_dunning_letter, _apply_credit_hold, _create_legal_referral,
    _escalate_case, unpack.
  keep.
Qed.

Lemma keeps_execute_workflow_instance id :
  keeps R (_execute_workflow_instance clk id).
Proof.
  unfold _execute_workflow_instance, _mark_instance_completed.
  apply keeps_bind; [keep|]. intros d.
  destruct (instance_data d id) as [[[[wid cid] inv] cur]|]; [|keep].
  destruct (step_data d wid (cur + 1)) as [s|]; [|keep].
  apply keeps_bind; [keep|]. intros t0.
  apply keeps_bind; [apply keeps_execute_action|]. intros r. keep.
Qed.

Lemma keeps_execute_pending_workflows : keeps R (execute_pending_workflows clk).
Proof.
  unfold execute_pending_workflows.
  apply keeps_bind; [keep|]. intros t. apply keeps_bind; [keep|]. intros d.
  apply keeps_fold_m. intros res id. unfold execute_instance, _mark_instance_failed.
  apply keeps_bind; [apply keeps_try, keeps_execute_workflow_instance|].
  intros [r|e]; keep.
Qed.

Lemma keeps_trigger_workflows : keeps R (trigger_workflows clk).
Proof.
  unfold trigger_workflows.
  apply keeps_bind; [keep|]. intros d.
  apply keeps_bind; [|intros; keep]. apply keeps_map_m. intros wf.
  unfold trigger_workflow. apply keeps_bind; [keep|]. intros d'.
  apply keeps_map_m. intros row. unfold _create_workflow_instance. keep.
Qed.

Lemma keeps_run_operations ops : keeps R (run_operations clk ops).
Proof.
  induction ops as [|op ops IH]; simpl; [apply keeps_ret|].
  apply keeps_bind; [|intros; apply IH].
  destruct op; simpl.
  - apply keeps_bind; [apply keeps_try, keeps_trigger_workflows|]. intros. keep.
  - apply keeps_bind; [apply keeps_execute_pending_workflows|]. intros. keep.
Qed.

End Keeps.

(** *** Credit holds *)

Lemma hold_hold s t c : hold s (hold t c) = hold s c.
Proof. reflexivity. Qed.

Lemma held_or_same_trans a b c :
  held_or_same a b -> held_or_same b c -> held_or_same a c.
Proof.
  unfold held_or_same. intros [ -> | [t ->] ] [ -> | [s ->] ]; eauto.
  right. exists s. apply hold_hold.
Qed.

Lemma customers_held_refl d : customers_held d d.
Proof.
  unfold customers_held. induction (customers d); constructor; auto. now left.
Qed.

Lemma customers_held_trans d1 d2 d3 :
  customers_held d1 d2 -> customers_held d2 d3 -> customers_held d1 d3.
Proof. apply Forall2_trans. exact held_or_same_trans. Qed.

Lemma customers_held_hold stamp cid d :
  customers_held d
    (with_customers (update_where (fun c => customer_id c =? cid) (hold stamp)) d).
Proof.
  unfold customers_held. cbn.
  induction (customers d) as [|c l IH]; constructor; [|assumption].
  destruct (customer_id c =? cid); [right; now exists stamp|now left].
Qed.

(** X4.  The engine never releases a credit hold and never adds or removes
    a customer: after any sequence of scans and runs the customer table has
    the same rows in the same places, and each row is either exactly as it
    was, or it is the row that a CREDIT_HOLD step writes: on hold and with
    [updated_date] set to a time stamp, all other columns as they were.  A
    customer who was on hold is still on hold (the step stamps that row
    again). *)
Theorem credit_hold_is_never_released
    (clk : nat -> Z) (ops : list Operation) (w w' : World) (o : Outcome unit) :
  run_operations clk ops w = (o, w') ->
  List.length (customers (db w')) = List.length (customers (db w))
  /\ forall k c,
       nth_error (customers (db w)) k = Some c ->
       exists c',
         nth_error (customers (db w')) k = Some c'
         /\ (c' = c \/ exists stamp, c' = hold stamp c)
         /\ customer_id c' = customer_id c
         /\ customer_name c' = customer_name c
         /\ email c' = email c
         /\ phone c' = phone c
         /\ customer_type c' = customer_type c
         /\ (is_credit_hold c = true -> is_credit_hold c' = true)
         /\ (c' <> c -> is_credit_hold c' = true /\ updated_date c' <> None).
Proof.
  intros H.
  assert (Hk : customers_held (db w) (db w')).
  { revert H. apply (keeps_run_operations customers_held customers_held_refl
                       customers_held_trans).
    - intros f d. exact (customers_held_refl d).
    - exact customers_held_hold.
    - intros id sid r ms d. exact (customers_held_refl d).
    - intros a d. exact (customers_held_refl d).
    - intros e d. exact (customers_held_refl d). }
  unfold customers_held in Hk. split.
  - symmetry. eapply Forall2_length; eassumption.
  - intros k c Hc. revert k Hc.
    induction Hk as [|a b l l' Hab _ IH]; intros k Hc; [destruct k; discriminate|].
    destruct k as [|k]; simpl in *; [|now apply IH].
    injection Hc as ->. exists b. split; [reflexivity|].
    split; [exact Hab|].
    destruct Hab as [ -> | [t ->] ].
    + repeat split; auto; intros Hn; now destruct Hn.
    + cbn. repeat split; auto. discriminate.
Qed.

Lemma credit_hold_witness :
  is_credit_hold acme = false
  /\ exists c',
       nth_error
         (customers
            (db (snd (run_operations example_clock [ScanTriggers; ExecuteDue]
                        credit_hold_world)))) 0 = Some c'
       /\ c' = hold (example_clock 5) acme
       /\ is_credit_hold c' = true
       /\ customer_name c' = customer_name acme.
Proof.
  split; [reflexivity|].
  destruct (credit_hold_is_never_released example_clock [ScanTriggers; ExecuteDue]
              credit_hold_world
              (snd (run_operations example_clock [ScanTriggers; ExecuteDue]
                      credit_hold_world))
              (fst (run_operations example_clock [ScanTriggers; ExecuteDue]
                      credit_hold_world))
              (surjective_pairing _)) as [_ Hrows].
  destruct (Hrows 0%nat acme eq_refl) as (c' & Hn & _ & _ & Hname & _).
  exists c'. split; [exact Hn|].
  assert (E : c' = hold (example_clock 5) acme).
  { vm_compute in Hn. injection Hn as <-. reflexivity. }
  split; [exact E|]. split; [now rewrite E|exact Hname].
Defined.

(** The step stamps the row of a customer who is on hold already. *)
Lemma credit_hold_stamps_a_held_customer_again :
  nth_error
    (customers
       (db (snd (run_operations example_clock [ScanTriggers; ExecuteDue]
                   held_already_world)))) 0
  = Some (hold (example_clock 5) acme)
  /\ hold (example_clock 5) acme <> acme_on_hold.
Proof. split; [vm_compute; reflexivity|discriminate]. Qed.

(** *** An instance whose definition has no step left *)

Section Completion.

Variable clk : nat -> Z.

Lemma run_completed_step w w' res k inst x :
  unique_instance_ids (db w) ->
  nth_error (workflow_instances (db w)) k = Some inst ->
  is_due (clk (reads w)) inst = true ->
  instance_data (db w) (instance_id inst) = Some x ->
  step_data (db w) (wi_workflow_id inst) (current_step inst + 1) = None ->
  execute_pending_workflows clk w = (Ret res, w') ->
  exists r,
    (reads w < r < reads w')%nat
    /\ nth_error (workflow_instances (db w')) k = Some (set_completed (clk r) inst).
Proof.
  intros Hnd Hk Hdue Hd Hs H.
  destruct (run_turn _ _ _ _ _ _ Hnd Hk Hdue H)
    as (res1 & w1 & res2 & w2 & ids & H2 & Ev & Hn & R1 & R2 & Hk1 & ->).
  assert (Hd1 : instance_data (db w1) (instance_id inst) = Some (row_data inst)).
  { destruct Ev as (Hw & _ & _ & _ & Hse).
    rewrite (instance_data_stable _ _ _ _ Hw Hse Hn), Hd. f_equal.
    exact (instance_data_row _ _ _ Hnd (nth_error_In _ _ Hk) Hd). }
  assert (Hs1 : step_data (db w1) (wi_workflow_id inst) (current_step inst + 1) = None).
  { destruct Ev as (_ & Hst & _). unfold step_data in *. now rewrite Hst. }
  unfold execute_instance, bind, try, _execute_workflow_instance in H2.
  unfold bind at 1, get_db in H2. rewrite Hd1 in H2. unfold row_data in H2.
  rewrite Hs1 in H2.
  unfold _mark_instance_completed, bind, now, modify_db, ret in H2.
  cbn [db reads] in H2. inversion H2; subst; clear H2.
  cbn [db reads workflow_instances with_instances] in *.
  exists (reads w1). split; [lia|].
  rewrite (nth_error_update_where _ _ _ _ _ Hk1).
  unfold has_id. now rewrite id_eqb_refl.
Qed.

(** X5.  A run completes a due PENDING instance that has no active step at
    the next order: the status becomes COMPLETED and the completed date is a
    reading of the clock made during the run; no other column changes. *)
Theorem run_completes_instance_without_next_step
    (w w' : World) (res : ExecutionResults) (k : nat) (inst : Instance)
    (x : Z * Z * option Z * Z) :
  unique_instance_ids (db w) ->
  nth_error (workflow_instances (db w)) k = Some inst ->
  is_due (clk (reads w)) inst = true ->
  instance_data (db w) (instance_id inst) = Some x ->
  step_data (db w) (wi_workflow_id inst) (current_step inst + 1) = None ->
  execute_pending_workflows clk w = (Ret res, w') ->
  exists r inst',
    (reads w < r < reads w')%nat
    /\ nth_error (workflow_instances (db w')) k = Some inst'
    /\ inst' = set_completed (clk r) inst
    /\ status inst' = COMPLETED
    /\ completed_date inst' = Some (clk r)
    /\ current_step inst' = current_step inst
    /\ scheduled_date inst' = scheduled_date inst
    /\ failure_reason inst' = failure_reason inst.
Proof.
  intros Hnd Hk Hdue Hd Hs H.
  destruct (run_completed_step _ _ _ _ _ _ Hnd Hk Hdue Hd Hs H) as (r & Hr & Hrow).
  exists r, (set_completed (clk r) inst). repeat split; try assumption; apply Hr.
Qed.

(** One run, seen from one row of the instance table. *)
Lemma run_executes_at_most_once w w' res k inst :
  unique_instance_ids (db w) ->
  nth_error (workflow_instances (db w)) k = Some inst ->
  execute_pending_workflows clk w = (Ret res, w') ->
  exists inst',
    nth_error (workflow_instances (db w')) k = Some inst'
    /\ executed_at_most_once inst inst'.
Proof.
  intros Hnd Hk H.
  destruct (is_due (clk (reads w)) inst) eqn:Hdue.
  - assert (Hst : status inst = PENDING).
    { unfold is_due in Hdue. apply andb_prop in Hdue as [Hst _].
      now destruct (status inst). }
    destruct (step_exception (db w) (instance_id inst)) as [e|] eqn:He.
    + rewrite (run_failed_step _ _ _ _ _ _ _ Hnd Hk Hdue He H).
      eexists. split; [reflexivity|]. right. cbn. repeat split; auto. discriminate.
    + pose proof He as He'. unfold step_exception in He'.
      destruct (instance_data (db w) (instance_id inst)) as [x|] eqn:Hd; [|discriminate].
      rewrite (instance_data_row _ _ _ Hnd (nth_error_In _ _ Hk) Hd) in He'.
      unfold row_data in He'.
      destruct (step_data (db w) (wi_workflow_id inst) (current_step inst + 1))
        as [s|] eqn:Hs.
      * destruct (run_executed_step _ _ _ _ _ _ _ Hnd Hk Hdue He Hs H)
          as (r1 & r2 & _ & _ & ->).
        eexists. split; [reflexivity|]. right.
        unfold set_advanced. cbn [status instance_id current_step].
        repeat split; auto.
        destruct (option_Z_eqb (Some (current_step inst + 1))
                    (max_step_order (db w) (wi_workflow_id inst))); discriminate.
      * destruct (run_completed_step _ _ _ _ _ _ Hnd Hk Hdue Hd Hs H) as (r & _ & ->).
        eexists. split; [reflexivity|]. right. cbn. repeat split; auto. discriminate.
  - destruct (execute_pending_frame clk w Hnd) as (res0 & w0 & E & _ & _ & Hfr).
    rewrite H in E. inversion E; subst. exists inst. split; [now apply Hfr|now left].
Qed.

End Completion.

(** *** No instance executes more than one step *)

Lemma executed_at_most_once_trans a b c :
  executed_at_most_once a b -> executed_at_most_once b c -> executed_at_most_once a c.
Proof.
  intros [ -> |(Ha & Hb & Hid & Hs)] H2; [assumption|].
  destruct H2 as [ -> |(Hb' & _)]; [|contradiction].
  right. auto.
Qed.

Section OneStep.

Variable clk : nat -> Z.

(** The rows that a scan adds are PENDING at step 0. *)
Lemma scan_adds_fresh_rows ws : forall w o w',
  map_m (trigger_workflow clk) ws w = (o, w') ->
  exists news,
    appended w w' news
    /\ Forall (fun i => status i = PENDING /\ current_step i = 0) news.
Proof.
  induction ws as [|wf ws IH]; intros w o w' H; simpl in H.
  - inversion H; subst. exists []. split; [apply appended_refl|constructor].
  - assert (Hhead : forall o1 w1, trigger_workflow clk wf w = (o1, w1) ->
              exists n1, appended w w1 n1
                /\ Forall (fun i => status i = PENDING /\ current_step i = 0) n1).
    { intros o1 w1 Hw. apply trigger_workflow_spec in Hw as (n1 & Ha1 & Hall & _).
      exists n1. split; [assumption|].
      eapply Forall_impl; [|exact Hall]. intros i (row & _ & Hmade).
      apply created_for_covers in Hmade as (_ & _ & Hst & _ & _ & Hcur). auto. }
    apply bind_inv in H as [(ids & w1 & Hw & H)|(e & Hw & _)]; [|exact (Hhead _ _ Hw)].
    destruct (Hhead _ _ Hw) as (n1 & Ha1 & Hall1).
    assert (Hrest : forall o2 w2, map_m (trigger_workflow clk) ws w1 = (o2, w2) ->
              exists news, appended w w2 news
                /\ Forall (fun i => status i = PENDING /\ current_step i = 0) news).
    { intros o2 w2 Hr. destruct (IH _ _ _ Hr) as (n2 & Ha2 & Hall2).
      exists (n1 ++ n2). split; [exact (appended_trans _ _ _ _ _ Ha1 Ha2)|].
      apply Forall_app. now split. }
    apply bind_inv in H as [(idss & w2 & Hr & H)|(e & Hr & _)].
    + inversion H; subst. exact (Hrest _ _ Hr).
    + exact (Hrest _ _ Hr).
Qed.

Lemma operation_executes_at_most_once op w o w' :
  run_operation clk op w = (o, w') ->
  unique_instance_ids (db w) ->
  unique_instance_ids (db w')
  /\ (forall k inst,
        nth_error (workflow_instances (db w)) k = Some inst ->
        exists inst', nth_error (workflow_instances (db w')) k = Some inst'
                      /\ executed_at_most_once inst inst')
  /\ (forall k inst',
        nth_error (workflow_instances (db w)) k = None ->
        nth_error (workflow_instances (db w')) k = Some inst' ->
        status inst' = PENDING /\ current_step inst' = 0).
Proof.
  intros H Hnd. destruct op; simpl in H.
  - unfold bind, try, ret in H.
    destruct (trigger_workflows clk w) as [oo w2] eqn:E.
    assert (w2 = w') as -> by (destruct oo; now inversion H). clear H.
    split; [eapply scan_keeps_unique; eassumption|]. split.
    + intros k inst Hk. exists inst. split; [|now left].
      eapply scan_keeps_rows; eassumption.
    + intros k inst' Hk Hk'.
      assert (Hm : exists news, appended w w' news
                 /\ Forall (fun i => status i = PENDING /\ current_step i = 0) news).
      { unfold trigger_workflows in E.
        apply bind_inv in E as [(d & w1 & Hg & E)|(e & Hg & _)]; [|inversion Hg].
        inversion Hg; subst; clear Hg.
        apply bind_inv in E as [(idss & w2 & Hs & E)|(e & Hs & _)].
        - inversion E; subst. exact (scan_adds_fresh_rows _ _ _ _ Hs).
        - exact (scan_adds_fresh_rows _ _ _ _ Hs). }
      destruct Hm as (news & [_ Ha] & Hall). rewrite Ha in Hk'.
      apply nth_error_None in Hk. rewrite nth_error_app2 in Hk' by assumption.
      apply nth_error_In in Hk'. rewrite Forall_forall in Hall. now apply Hall.
  - destruct (execute_pending_frame clk w Hnd) as (res & w2 & E & Hnd2 & Hev & _).
    unfold bind, ret in H. rewrite E in H. inversion H; subst; clear H.
    split; [assumption|]. split.
    + intros k inst Hk. exact (run_executes_at_most_once clk w w' res k inst Hnd Hk E).
    + intros k inst' Hk Hk'. exfalso.
      destruct Hev as (_ & _ & _ & _ & Hse). apply Forall2_length in Hse.
      apply nth_error_None in Hk.
      assert (k < List.length (workflow_instances (db w')))%nat
        by (apply nth_error_Some; congruence).
      lia.
Qed.

(** X6.  Over any sequence of scans and runs, an instance executes at most
    one step: a row of the instance table either stays exactly as it is, or
    it was PENDING, is no longer PENDING, and its current step is what it was
    or one more.  A row that the sequence adds is PENDING at step 0, or no
    longer PENDING at step 0 or 1. *)
Theorem instance_executes_at_most_one_step
    (ops : list Operation) (w w' : World) (o : Outcome unit) :
  run_operations clk ops w = (o, w') ->
  unique_instance_ids (db w) ->
  (forall k inst,
     nth_error (workflow_instances (db w)) k = Some inst ->
     exists inst', nth_error (workflow_instances (db w')) k = Some inst'
                   /\ executed_at_most_once inst inst')
  /\ (forall k inst',
        nth_error (workflow_instances (db w)) k = None ->
        nth_error (workflow_instances (db w')) k = Some inst' ->
        (status inst' = PENDING /\ current_step inst' = 0)
        \/ (status inst' <> PENDING
            /\ (current_step inst' = 0 \/ current_step inst' = 1))).
Proof.
  revert w w' o. induction ops as [|op ops IH]; intros w w' o H Hnd; simpl in H.
  - inversion H; subst. split.
    + intros k inst Hk. exists inst. split; [assumption|now left].
    + intros k inst' Hk Hk'. congruence.
  - destruct (run_operation clk op w) as [o1 w1] eqn:E1.
    destruct (operation_executes_at_most_once _ _ _ _ E1 Hnd) as (Hnd1 & Hold1 & Hnew1).
    unfold bind in H. rewrite E1 in H. destruct o1 as [[]|e].
    + destruct (IH _ _ _ H Hnd1) as (Hold2 & Hnew2). split.
      * intros k inst Hk. destruct (Hold1 _ _ Hk) as (i1 & Hk1 & R1).
        destruct (Hold2 _ _ Hk1) as (i2 & Hk2 & R2). exists i2.
        split; [assumption|]. eapply executed_at_most_once_trans; eassumption.
      * intros k inst' Hk Hk'.
        destruct (nth_error (workflow_instances (db w1)) k) as [i1|] eqn:Hk1.
        -- destruct (Hnew1 _ _ Hk Hk1) as [Hst Hcur].
           destruct (Hold2 _ _ Hk1) as (i2 & Hk2 & R2).
           assert (i2 = inst') by congruence. subst i2.
           destruct R2 as [ -> |(_ & Hst' & _ & Hs)]; [now left|].
           right. split; [assumption|]. lia.
        -- exact (Hnew2 _ _ Hk1 Hk').
    + inversion H; subst. split; [assumption|].
      intros k inst' Hk Hk'. left. exact (Hnew1 _ _ Hk Hk').
Qed.

End OneStep.

(** *** The report of a run and the execution log *)

Section Report.

Variable clk : nat -> Z.

Lemma action_keeps_log action cid inv template assigned w o w' :
  _execute_action clk action cid inv template assigned w = (o, w') ->
  workflow_execution_log (db w') = workflow_execution_log (db w).
Proof.
  apply (keeps_execute_action
           (fun d d' => workflow_execution_log d' = workflow_execution_log d)).
  - reflexivity.
  - intros d1 d2 d3 H1 H2. congruence.
  - reflexivity.
  - reflexivity.
  - reflexivity.
Qed.

(** What one call of [_execute_workflow_instance] appends to the log. *)
Lemma execute_log id w o w1 :
  _execute_workflow_instance clk id w = (o, w1) ->
  exists entries,
    workflow_execution_log (db w1) = workflow_execution_log (db w) ++ entries
    /\ Forall (fun e => log_status e = "SUCCESS"%string /\ log_instance_id e = id) entries
    /\ List.length entries
       = match o with Ret (success _ _ _) => 1%nat | _ => 0%nat end.
Proof.
  unfold _execute_workflow_instance. unfold bind at 1, get_db.
  destruct (instance_data (db w) id) as [[[[wid cid] inv] cur]|].
  - destruct (step_data (db w) wid (cur + 1)) as [s|].
    + unfold bind at 1, now. unfold bind at 1. cbn [db reads].
      destruct (_execute_action clk _ _ _ _ _ _) as [[r|e] w2] eqn:Ea;
        apply action_keeps_log in Ea; cbn [db] in Ea.
      * unfold bind, now, modify_db, get_db, ret. cbn [db reads].
        intros H. inversion H; subst; clear H.
        cbn [db workflow_execution_log with_instances insert_log]. rewrite Ea.
        eexists. split; [reflexivity|]. split; [|reflexivity].
        repeat constructor.
      * intros H. inversion H; subst; clear H. exists [].
        rewrite app_nil_r. repeat split; [assumption|constructor].
    + unfold _mark_instance_completed, bind, now, modify_db, ret. cbn [db reads].
      intros H. inversion H; subst; clear H. exists [].
      cbn. rewrite app_nil_r. repeat split. constructor.
  - intros H. inversion H; subst; clear H. exists [].
    rewrite app_nil_r. repeat split. constructor.
Qed.

Lemma execute_instance_report res id w res' w' :
  execute_instance clk res id w = (Ret res', w') ->
  exists r entries,
    res_instances res' = res_instances res ++ [(id, r)]
    /\ executed res' = executed res + (if is_success (id, r) then 1 else 0)
    /\ failed res' = failed res + (if is_success (id, r) then 0 else 1)
    /\ skipped res' = skipped res
    /\ workflow_execution_log (db w') = workflow_execution_log (db w) ++ entries
    /\ map log_instance_id entries = (if step_executed (id, r) then [id] else [])
    /\ Forall (fun e => log_status e = "SUCCESS"%string) entries.
Proof.
  unfold execute_instance, bind, try.
  destruct (_execute_workflow_instance clk id w) as [[r|e] w1] eqn:Ex;
    apply execute_log in Ex as (entries & Hlog & Hall & Hlen).
  - unfold ret. intros H. inversion H; subst; clear H.
    exists (inl r), entries. cbn [res_instances executed failed skipped is_success snd].
    repeat split; try lia; try assumption.
    + unfold step_executed. cbn [snd fst].
      destruct r as [|a t ms]; destruct entries as [|e1 [|e2 l]]; try discriminate;
        [reflexivity|].
      inversion Hall as [|? ? [_ Hid] _]; subst. reflexivity.
    + eapply Forall_impl; [|exact Hall]. now intros e0 [He _].
  - unfold _mark_instance_failed, modify_db, ret. intros H. inversion H; subst; clear H.
    exists (inr e), entries. cbn [res_instances executed failed skipped is_success snd].
    cbn [db workflow_execution_log with_instances].
    repeat split; try lia; try assumption.
    + destruct entries; [reflexivity|discriminate].
    + eapply Forall_impl; [|exact Hall]. now intros e0 [He _].
Qed.

Lemma execute_loop_report ids : forall res w res' w',
  fold_m (execute_instance clk) ids res w = (Ret res', w') ->
  exists rs entries,
    res_instances res' = res_instances res ++ rs
    /\ List.length rs = List.length ids
    /\ executed res' = executed res + Z.of_nat (List.length (filter is_success rs))
    /\ failed res'
       = failed res + Z.of_nat (List.length (filter (fun r => negb (is_success r)) rs))
    /\ skipped res' = skipped res
    /\ workflow_execution_log (db w') = workflow_execution_log (db w) ++ entries
    /\ map log_instance_id entries = map fst (filter step_executed rs)
    /\ Forall (fun e => log_status e = "SUCCESS"%string) entries.
Proof.
  induction ids as [|id ids IH]; intros res w res' w' H; simpl in H.
  - inversion H; subst. exists [], []. rewrite !app_nil_r. cbn.
    repeat split; try lia. constructor.
  - apply bind_ret_inv in H as (r1 & w1 & H1 & H).
    apply execute_instance_report in H1
      as (r & e1 & Hres1 & Hex1 & Hf1 & Hsk1 & Hlog1 & Hid1 & Hall1).
    destruct (IH _ _ _ _ H) as (rs & e2 & Hres2 & Hlen & Hex2 & Hf2 & Hsk2 & Hlog2 & Hid2 & Hall2).
    exists ((id, r) :: rs), (e1 ++ e2).
    rewrite Hres2, Hres1, Hlog2, Hlog1, <- !app_assoc. cbn [app List.length filter].
    split; [reflexivity|]. split; [now rewrite Hlen|].
    rewrite map_app, Hid1, Hid2, Hex2, Hex1, Hf2, Hf1, Hsk2, Hsk1.
    destruct (is_success (id, r)), (step_executed (id, r));
      cbn [negb List.length map fst app];
      repeat split; try lia; now apply Forall_app.
Qed.

(** X7.  The report of a run and the execution log agree.  A run skips
    nothing; [executed] counts the instances whose call returned and [failed]
    those whose call raised, and together they are the instances that were
    PENDING and due.  The run appends to the execution log exactly one entry,
    with status SUCCESS, for each reported instance whose step was executed,
    in the order of the report; a failure, and a completion without a step,
    leave no entry. *)
Theorem run_report_matches_log (w w' : World) (res : ExecutionResults) :
  execute_pending_workflows clk w = (Ret res, w') ->
  skipped res = 0
  /\ executed res = Z.of_nat (List.length (filter is_success (res_instances res)))
  /\ failed res
     = Z.of_nat (List.length (filter (fun r => negb (is_success r)) (res_instances res)))
  /\ executed res + failed res
     = Z.of_nat (List.length (pending_instances (db w) (clk (reads w))))
  /\ exists entries,
       workflow_execution_log (db w') = workflow_execution_log (db w) ++ entries
       /\ map log_instance_id entries
          = map fst (filter step_executed (res_instances res))
       /\ Forall (fun e => log_status e = "SUCCESS"%string) entries.
Proof.
  unfold execute_pending_workflows, bind, now, get_db. cbn [db reads]. intros H.
  apply execute_loop_report in H
    as (rs & entries & Hres & Hlen & Hex & Hf & Hsk & Hlog & Hid & Hall).
  cbn [res_instances executed failed skipped app db] in *. subst rs.
  rewrite length_map in Hlen.
  split; [assumption|]. split; [lia|]. split; [lia|]. split.
  - rewrite <- Hlen, Hex, Hf.
    assert (G : forall l : list (InstanceId * (ExecResult + Exn)),
              (List.length (filter is_success l)
               + List.length (filter (fun r => negb (is_success r)) l)
               = List.length l)%nat).
    { induction l as [|x l IHl]; [reflexivity|]. cbn [filter].
      destruct (is_success x); cbn [negb List.length]; lia. }
    specialize (G (res_instances res)). lia.
  - exists entries. auto.
Qed.

End Report.

(** *** The actions *)

Lemma customer_by_name_unique d cid c :
  NoDup (map customer_name (customers d)) ->
  find (fun c => customer_id c =? cid) (customers d) = Some c ->
  customer_by_name d (customer_name c) = Some cid.
Proof.
  intros Hnd Hf. apply find_some in Hf as [Hin Hid]. apply Z.eqb_eq in Hid.
  unfold customer_by_name.
  destruct (find (fun c0 => String.eqb (customer_name c0) (customer_name c))
                 (customers d)) as [c'|] eqn:F.
  - apply find_some in F as [Hin' Hn]. apply String.eqb_eq in Hn.
    rewrite (NoDup_map_In_eq _ _ _ _ Hnd Hin' Hin Hn). cbn. now rewrite Hid.
  - pose proof (find_none _ _ F c Hin) as Hn. cbn in Hn.
    now rewrite String.eqb_refl in Hn.
Qed.

Section Actions.

Variable clk : nat -> Z.

(** X8.  Each action that records a collection activity, executed for a
    customer that exists, returns and appends exactly one activity, dated
    with the day of the first clock reading.  When customer names are unique
    the activity is recorded for that customer (the row is found again by
    name); the customers and the instances are left as they are. *)
Theorem activity_is_recorded_for_the_customer
    (a : ActionType) (cid : Z) (inv : option Z) (template assigned : option string)
    (w w' : World) (o : Outcome ActionResult) (c : Customer) :
  records_activity a = true ->
  NoDup (map customer_name (customers (db w))) ->
  find (fun c => customer_id c =? cid) (customers (db w)) = Some c ->
  _execute_action clk (value a) cid inv template assigned w = (o, w') ->
  exists r act,
    o = Ret r
    /\ collection_activities (db w') = collection_activities (db w) ++ [act]
    /\ act_customer_id act = Some cid
    /\ activity_date act = date_of (clk (reads w))
    /\ customers (db w') = customers (db w)
    /\ workflow_instances (db w') = workflow_instances (db w)
    /\ credit_history (db w') = credit_history (db w).
Proof.
  intros Ha Hnd Hf.
  pose proof (customer_by_name_unique _ _ _ Hnd Hf) as Hname.
  unfold _execute_action, bind at 1, get_db, customer_data. rewrite Hf.
  destruct a; try discriminate; cbn [value String.eqb Ascii.eqb Bool.eqb];
    unfold _send_email_reminder, _schedule_phone_call, _generate_dunning_letter,
      _create_legal_referral, _escalate_case, unpack, bind, now, get_db,
      modify_db, ret;
    cbn [db reads]; rewrite ?Hname; intros H; inversion H; subst; clear H;
    do 2 eexists; cbn; repeat split.
Qed.

(** X9.  Dispatch on the members of [ActionType]: every member but
    PAYMENT_PLAN has a handler.  A PAYMENT_PLAN step does nothing, and the
    call that executes it nevertheless returns normally and appends a SUCCESS
    entry to the execution log, leaving activities, credit history and
    customers as they are. *)
Theorem payment_plan_step_is_a_logged_no_op
    (id : InstanceId) (w : World) (wid cid cur : Z) (inv : option Z) (s : Step) :
  instance_data (db w) id = Some (wid, cid, inv, cur) ->
  step_data (db w) wid (cur + 1) = Some s ->
  action_type s = value PAYMENT_PLAN ->
  (forall a cid' inv' t asg w0 o w1,
      _execute_action clk (value a) cid' inv' t asg w0 = (o, w1) ->
      (exists x, o = Ret (not_implemented x)) <-> a = PAYMENT_PLAN)
  /\ exists t ms w',
       _execute_workflow_instance clk id w
         = (Ret (success "PAYMENT_PLAN" t ms), w')
       /\ workflow_execution_log (db w')
          = workflow_execution_log (db w)
            ++ [mkLog id (step_id s) "SUCCESS" (not_implemented "PAYMENT_PLAN") ms]
       /\ collection_activities (db w') = collection_activities (db w)
       /\ credit_history (db w') = credit_history (db w)
       /\ customers (db w') = customers (db w).
Proof.
  intros Hd Hs Ha. split.
  - intros a cid' inv' t asg w0 o w1.
    unfold _execute_action, bind at 1, get_db.
    destruct a; cbn [value String.eqb Ascii.eqb Bool.eqb];
      unfold _send_email_reminder, _schedule_phone_call, _generate_dunning_letter,
        _apply_credit_hold, _create_legal_referral, _escalate_case, unpack,
        bind, now, get_db, modify_db, ret, raise;
      cbn [db reads];
      try (destruct (customer_data (db w0) cid') as [[[[n m] ph] os]|]);
      intros H; inversion H; subst; clear H;
      (split; [intros [x Hx]; discriminate|discriminate])
      || (split; [reflexivity|eauto]).
  - unfold _execute_workflow_instance. unfold bind at 1, get_db. rewrite Hd, Hs.
    unfold bind, now, _execute_action, get_db, modify_db, ret. cbn [db reads].
    rewrite Ha. cbn [value String.eqb Ascii.eqb Bool.eqb]. cbn [db reads].
    do 3 eexists. split; [reflexivity|]. cbn. repeat split.
Qed.

End Actions.

Lemma run_completes_instance_witness :
  exists r inst',
    nth_error (workflow_instances
                 (db (snd (execute_pending_workflows example_clock exhausted)))) 0
      = Some inst'
    /\ status inst' = COMPLETED
    /\ completed_date inst' = Some (example_clock r).
Proof.
  destruct (run_completes_instance_without_next_step example_clock exhausted
              (snd (execute_pending_workflows example_clock exhausted))
              (mkResults 1 0 0 [(mkId 1 7 1699999000, inl completed_all_steps)])
              0%nat exhausted_instance (1, 7, Some 100, 2))
    as (r & inst' & _ & Hrow & _ & Hst & Hdate & _).
  - cbn. repeat constructor. intros [].
  - reflexivity.
  - reflexivity.
  - reflexivity.
  - reflexivity.
  - reflexivity.
  - exists r, inst'. auto.
Defined.

Lemma instance_executes_at_most_one_step_witness :
  exists inst',
    nth_error
      (workflow_instances
         (db (snd (run_operations example_clock [ScanTriggers; ExecuteDue; ExecuteDue]
                     scenario2)))) 0 = Some inst'
    /\ ((status inst' = PENDING /\ current_step inst' = 0)
        \/ (status inst' <> PENDING
            /\ (current_step inst' = 0 \/ current_step inst' = 1))).
Proof.
  destruct (instance_executes_at_most_one_step example_clock
              [ScanTriggers; ExecuteDue; ExecuteDue] scenario2
              (snd (run_operations example_clock [ScanTriggers; ExecuteDue; ExecuteDue]
                      scenario2))
              (fst (run_operations example_clock [ScanTriggers; ExecuteDue; ExecuteDue]
                      scenario2))) as [_ Hnew].
  - apply surjective_pairing.
  - cbn. constructor.
  - eexists. split; [vm_compute; reflexivity|].
    apply (Hnew 0%nat); [reflexivity|vm_compute; reflexivity].
Defined.

Lemma run_report_matches_log_witness :
  exists entries,
    workflow_execution_log (db scenario2_executed)
      = workflow_execution_log (db scenario2_scanned) ++ entries
    /\ map log_instance_id entries = [mkId 1 7 1700000000].
Proof.
  destruct (run_report_matches_log example_clock scenario2_scanned scenario2_executed
              (mkResults 1 0 0
                 [(mkId 1 7 1700000000, inl (success "PHONE_CALL" 1700000000009000 4))]))
    as (_ & _ & _ & _ & entries & Hlog & Hids & _).
  - reflexivity.
  - exists entries. split; [exact Hlog|exact Hids].
Defined.

Lemma activity_is_recorded_witness :
  exists r act,
    fst (_execute_action example_clock "PHONE_CALL" 7 (Some 100) None None scenario2)
      = Ret r
    /\ collection_activities
         (db (snd (_execute_action example_clock "PHONE_CALL" 7 (Some 100) None None
                     scenario2))) = [act]
    /\ act_customer_id act = Some 7.
Proof.
  destruct (activity_is_recorded_for_the_customer example_clock PHONE_CALL 7 (Some 100)
              None None scenario2
              (snd (_execute_action example_clock "PHONE_CALL" 7 (Some 100) None None
                      scenario2))
              (fst (_execute_action example_clock "PHONE_CALL" 7 (Some 100) None None
                      scenario2))
              acme)
    as (r & act & Ho & Hact & Hcid & _).
  - reflexivity.
  - cbn. repeat constructor. intros [].
  - reflexivity.
  - apply surjective_pairing.
  - exists r, act. auto.
Defined.

Lemma payment_plan_step_witness :
  exists t ms w',
    _execute_workflow_instance example_clock (instance_id orphan_instance)
        payment_plan_world
      = (Ret (success "PAYMENT_PLAN" t ms), w')
    /\ collection_activities (db w') = [].
Proof.
  destruct (payment_plan_step_is_a_logged_no_op example_clock
              (instance_id orphan_instance) payment_plan_world 1 9 0 (Some 300)
              (mkStep 40 1 1 "PAYMENT_PLAN" None None (Some 0) None true))
    as (_ & t & ms & w' & Hex & _ & Hact & _).
  - reflexivity.
  - reflexivity.
  - reflexivity.
  - exists t, ms, w'. split; [exact Hex|exact Hact].
Defined.

End WorkflowsProofs.

(** ** Further properties of the promise tracker *)

Module PromiseReportsProofs.

Import Promises PromisesProofs PromiseReports.

(** *** Status updates *)

Lemma Qlt_bool_true a b : Promises.Qlt_bool a b = true -> (a < b)%Q.
Proof.
  unfold Promises.Qlt_bool. intros H. apply negb_true_iff in H.
  now apply Qle_bool_false.
Qed.

Lemma Qlt_bool_false a b : Promises.Qlt_bool a b = false -> (b <= a)%Q.
Proof.
  unfold Promises.Qlt_bool. intros H. apply negb_false_iff in H.
  now apply Qle_bool_true.
Qed.

Lemma Qlt_bool_intro a b : (a < b)%Q -> Promises.Qlt_bool a b = true.
Proof.
  intros H. unfold Promises.Qlt_bool. apply negb_true_iff.
  now apply Qlt_Qle_bool_false.
Qed.

(** The result of an accepted update, with the escalation flag. *)
Lemma update_accepted today pid requested paid paid_on note d p :
  find (fun x => promise_id x =? pid) (payment_promises d) = Some p ->
  is_terminal (pp_status p) = false ->
  paid_on <> Malformed ->
  (status_eqb requested KEPT || status_eqb requested PARTIALLY_KEPT)
    && Qle_bool (b64 paid) 0 = false ->
  let st := resolved_status p requested (b64 paid) in
  let escalate := status_eqb st BROKEN
                  && (escalation_threshold - 1 <=? broken_count today d (pp_customer_id p)) in
  exists d',
    update_promise_status today pid requested paid paid_on note d
      = (inr (mkUpdated pid (pp_status p) st escalate), d')
    /\ payment_promises d'
       = update_where (fun x => promise_id x =? pid)
           (set_status st (payment_day paid_on) (b64 paid) escalate note)
           (payment_promises d)
    /\ same_ledger d d'.
Proof.
  intros Hf Ht Hon Ha. cbn zeta. unfold update_promise_status. cbv zeta.
  rewrite Hf, Ht, Ha.
  fold (resolved_status p requested (b64 paid)).
  destruct paid_on as [| |day]; [|contradiction|];
    (eexists; split; [reflexivity|];
     unfold _create_promise_activity;
     destruct (truthy_int (pp_invoice_id p)), (pp_invoice_id p),
       (resolved_status p requested (b64 paid));
     split; try reflexivity; repeat split).
Qed.




Lemma find_id_In pid l (p : Promise) :
  find (fun x => promise_id x =? pid) l = Some p -> In p l /\ promise_id p = pid.
Proof.
  intros H. apply find_some in H as [Hin E]. split; [assumption|]. now apply Z.eqb_eq.
Qed.




(** *** The report of a reconciliation *)

Lemma update_result today pid requested paid paid_on note d :
  (exists e, update_promise_status today pid requested paid paid_on note d = (inl e, d))
  \/ (exists p d',
        find (fun x => promise_id x =? pid) (payment_promises d) = Some p
        /\ update_promise_status today pid requested paid paid_on note d
           = (inr (mkUpdated pid (pp_status p) (resolved_status p requested (b64 paid))
                     (status_eqb (resolved_status p requested (b64 paid)) BROKEN
                      && (escalation_threshold - 1
                          <=? broken_count today d (pp_customer_id p)))), d')).
Proof.
  destruct (find (fun x => promise_id x =? pid) (payment_promises d)) as [p|] eqn:Hf.
  2:{ left. exists promise_not_found. unfold update_promise_status. cbv zeta.
      now rewrite Hf. }
  destruct paid_on as [| |day] eqn:Hon.
  2:{ left. exists invalid_payment_date_format. unfold update_promise_status. cbv zeta.
      now rewrite Hf. }
  all: destruct (is_terminal (pp_status p)) eqn:Ht;
    [left; exists (cannot_update_status (pp_status p)); unfold update_promise_status;
     cbv zeta; now rewrite Hf, Ht|].
  all: destruct ((status_eqb requested KEPT || status_eqb requested PARTIALLY_KEPT)
                 && Qle_bool (b64 paid) 0) eqn:Ha;
    [left; exists actual_amount_required; unfold update_promise_status;
     cbv zeta; now rewrite Hf, Ht, Ha|].
  - right. exists p.
    destruct (update_accepted today pid requested paid NoDate note d p Hf Ht
                ltac:(discriminate) Ha) as (d' & E & _).
    exists d'. split; [reflexivity|exact E].
  - right. exists p.
    destruct (update_accepted today pid requested paid (Parsed day) note d p Hf Ht
                ltac:(discriminate) Ha) as (d' & E & _).
    exists d'. split; [reflexivity|exact E].
Qed.

Lemma resolved_status_cases p requested paid :
  resolved_status p requested paid = requested
  \/ (requested = KEPT /\ resolved_status p requested paid = PARTIALLY_KEPT).
Proof.
  unfold resolved_status. destruct requested; cbn [status_eqb andb]; auto.
  destruct (downgraded _ _); auto.
Qed.

Lemma process_promise_report today acc p d :
  exists extra,
    results (fst (process_promise today acc p d)) = results acc ++ extra
    /\ (List.length extra <= 1)%nat
    /\ total_overdue (fst (process_promise today acc p d)) = total_overdue acc
    /\ processed_count (fst (process_promise today acc p d))
       = processed_count acc + Z.of_nat (List.length extra)
    /\ escalated_count (fst (process_promise today acc p d))
       = escalated_count acc + Z.of_nat (List.length (filter flagged extra))
    /\ Forall reportable extra.
Proof.
  unfold process_promise. destruct (payment_found d p) as [actual received].
  destruct received.
  - set (st := if Qle_bool (fmul (promised_float p) (b64 0.99)) actual
               then KEPT else PARTIALLY_KEPT).
    destruct (update_result today (promise_id p) st actual
                (Parsed (promised_payment_date p)) "" d)
      as [(e & E)|(q & d' & _ & E)]; rewrite E; cbn [fst results total_overdue
        processed_count escalated_count].
    + exists []. rewrite app_nil_r. cbn. repeat split; try lia. constructor.
    + eexists [_]. split; [reflexivity|]. cbn [new_status upd_escalation_required].
      assert (Hst : (resolved_status q st (b64 actual) = KEPT
                     \/ resolved_status q st (b64 actual) = PARTIALLY_KEPT)).
      { destruct (resolved_status_cases q st (b64 actual)) as [-> |[_ ->]]; [|now right].
        unfold st. destruct (Qle_bool _ actual); auto. }
      assert (Hb : status_eqb (resolved_status q st (b64 actual)) BROKEN = false)
        by (destruct Hst as [-> | ->]; reflexivity).
      rewrite Hb. cbn [andb filter flagged snd List.length]. repeat split; try lia.
      constructor; [|constructor]. split; cbn; [tauto|discriminate].
  - destruct (update_result today (promise_id p) BROKEN 0 NoDate "" d)
      as [(e & E)|(q & d' & _ & E)]; rewrite E; cbn [fst results total_overdue
        processed_count escalated_count].
    + exists []. rewrite app_nil_r. cbn. repeat split; try lia. constructor.
    + eexists [_]. split; [reflexivity|]. cbn [new_status upd_escalation_required].
      change (resolved_status q BROKEN (b64 0)) with BROKEN. cbn [status_eqb andb].
      cbn [filter flagged snd]. 
      destruct (escalation_threshold - 1 <=? broken_count today d (pp_customer_id q));
        cbn [List.length]; repeat split; try lia;
        (constructor; [|constructor]); split; cbn; auto.
Qed.

Lemma process_promises_report today rows : forall acc d,
  exists extra,
    results (fst (process_promises today rows acc d)) = results acc ++ extra
    /\ (List.length extra <= List.length rows)%nat
    /\ total_overdue (fst (process_promises today rows acc d)) = total_overdue acc
    /\ processed_count (fst (process_promises today rows acc d))
       = processed_count acc + Z.of_nat (List.length extra)
    /\ escalated_count (fst (process_promises today rows acc d))
       = escalated_count acc + Z.of_nat (List.length (filter flagged extra))
    /\ Forall reportable extra.
Proof.
  induction rows as [|p rows IH]; intros acc d.
  - exists []. cbn. rewrite app_nil_r. repeat split; try lia. constructor.
  - cbn [process_promises].
    destruct (process_promise_report today acc p d)
      as (e1 & R1 & L1 & T1 & P1 & E1 & F1).
    destruct (process_promise today acc p d) as [acc1 d1]. cbn [fst] in *.
    destruct (IH acc1 d1) as (e2 & R2 & L2 & T2 & P2 & E2 & F2).
    exists (e1 ++ e2). rewrite R2, R1, T2, T1, P2, P1, E2, E1.
    rewrite filter_app, !length_app, app_assoc. cbn [List.length].
    repeat split; try lia. now apply Forall_app.
Qed.


(** X12.  The report of a reconciliation run: [total_overdue] is the number of
    promises selected, [processed_count] the number of entries of [results]
    and [escalated_count] the number of entries flagged for escalation; hence
    escalated <= processed <= total.  Every entry carries KEPT, PARTIALLY_KEPT
    or BROKEN, and only BROKEN entries are flagged.  When promise ids are
    unique and the selected promises have positive amounts, every selected
    promise is processed. *)
Theorem reconcile_report_is_consistent
    (today : Z) (d d' : DB) (summary : Summary) :
  process_overdue_promises today d = (summary, d') ->
  total_overdue summary = Z.of_nat (List.length (overdue_promises today d))
  /\ processed_count summary = Z.of_nat (List.length (results summary))
  /\ escalated_count summary = Z.of_nat (List.length (filter flagged (results summary)))
  /\ escalated_count summary <= processed_count summary <= total_overdue summary
  /\ Forall reportable (results summary)
  /\ (unique_promise_ids d ->
      (forall p, In p (overdue_promises today d) -> (0 < promised_amount p)%Q) ->
      processed_count summary = total_overdue summary).
Proof.
  intros E.
  pose proof (process_promises_report today (overdue_promises today d)
                (mkSummary (Z.of_nat (List.length (overdue_promises today d))) 0 0 []) d)
    as (extra & R & L & T & P & Es & F).
  unfold process_overdue_promises in E. cbv zeta in E. rewrite E in R, T, P, Es.
  cbn [fst results total_overdue processed_count escalated_count app] in R, T, P, Es.
  rewrite R. pose proof (filter_length_le flagged extra) as Hfl.
  repeat split; try assumption; try lia.
  intros Hnd Hpos. rewrite P, T.
  cut (List.length (overdue_promises today d) <= List.length extra)%nat; [lia|].
  assert (Hlen : List.length extra = List.length (reported_ids summary)).
  { unfold reported_ids. now rewrite length_map, R. }
  rewrite Hlen, <- (length_map promise_id (overdue_promises today d)).
  apply NoDup_incl_length; [now apply NoDup_map_filter|].
  intros id Hid. apply in_map_iff in Hid as (p & <- & Hp).
  unfold overdue_promises in Hp. pose proof Hp as Hp'.
  apply filter_In in Hp' as [Hin Hov].
  apply In_nth_error in Hin as [k Hk].
  fold (process_overdue_promises today d) in E.
  destruct (reconcile_row today d summary d' k p Hnd Hk Hov (Hpos p Hp)
              ltac:(unfold process_overdue_promises; exact E))
    as (? & ? & ? & ? & _ & Hrep).
  exact Hrep.
Qed.

Lemma set_status_not_overdue today band day paid esc note p applied :
  is_overdue today
    (set_status (reconciled_status band applied) day paid esc note p) = false.
Proof.
  unfold is_overdue, reconciled_status. cbn [set_status pp_status].
  destruct (negb (Qeq_bool applied 0) && Qle_bool (fmul band (b64 0.9)) applied);
    [|reflexivity].
  destruct (Qle_bool (fmul band (b64 0.99)) applied); reflexivity.
Qed.

(** X13.  A reconciliation run leaves nothing for a second run on the same
    day: when promise ids are unique and the promises selected have positive
    amounts, running [process_overdue_promises] again selects no promise,
    reports an empty summary and leaves the database as it is. *)
Theorem second_reconciliation_finds_nothing
    (today : Z) (d d' : DB) (summary : Summary) :
  unique_promise_ids d ->
  (forall p, In p (overdue_promises today d) -> (0 < promised_amount p)%Q) ->
  process_overdue_promises today d = (summary, d') ->
  overdue_promises today d' = []
  /\ process_overdue_promises today d' = (mkSummary 0 0 0 [], d').
Proof.
  intros Hnd Hpos E.
  assert (Hnone : overdue_promises today d' = []).
  { unfold overdue_promises.
    destruct (filter (is_overdue today) (payment_promises d')) as [|q l] eqn:Hq;
      [reflexivity|exfalso].
    assert (Hin : In q (filter (is_overdue today) (payment_promises d')))
      by (rewrite Hq; now left).
    apply filter_In in Hin as [Hin Hov].
    apply In_nth_error in Hin as [k Hk].
    assert (Hlen : List.length (payment_promises d') = List.length (payment_promises d)).
    { pose proof (reconcile_keeps_ids today d) as Hids. rewrite E in Hids.
      cbn [snd] in Hids. rewrite <- (length_map promise_id), Hids. apply length_map. }
    destruct (nth_error (payment_promises d) k) as [p|] eqn:Hp.
    2:{ apply nth_error_None in Hp. assert (Hlt : (k < List.length (payment_promises d'))%nat)
          by (apply nth_error_Some; congruence). lia. }
    destruct (is_overdue today p) eqn:Ho.
    - assert (Hp' : In p (overdue_promises today d)).
      { apply filter_In. split; [eapply nth_error_In; eassumption|assumption]. }
      destruct (reconcile_row today d summary d' k p Hnd Hp Ho (Hpos p Hp') E)
        as (day & paid & esc & note & Hrow & _).
      rewrite Hrow in Hk. inversion Hk; subst q.
      rewrite set_status_not_overdue in Hov. discriminate.
    - destruct (reconcile_frame today d summary d' k p Hnd Hp Ho E) as [Hrow _].
      congruence. }
  split; [assumption|].
  unfold process_overdue_promises. cbv zeta. fold (overdue_promises today d').
  now rewrite Hnone.
Qed.


(** *** The list of promises coming due *)

Lemma left_join_invoice_inhabited d p : exists i, In i (left_join_invoice d p).
Proof.
  unfold left_join_invoice. destruct (pp_invoice_id p) as [inv|]; [|exists None; now left].
  destruct (filter _ (invoices d)) as [|x l]; [exists None; now left|].
  exists (Some x). now left.
Qed.

Lemma due_rows_In d check_date p c i :
  In (p, c, i) (due_rows d check_date)
  <-> In p (payment_promises d) /\ In c (customers d)
      /\ pp_customer_id p = customer_id c
      /\ awaits_follow_up check_date p = true
      /\ In i (left_join_invoice d p).
Proof.
  unfold due_rows. rewrite in_flat_map. split.
  - intros (p' & Hp & H). apply in_flat_map in H as (c' & Hc & H).
    destruct (_ && _) eqn:E; [|contradiction].
    apply in_map_iff in H as (i' & Heq & Hi). inversion Heq; subst.
    apply andb_true_iff in E as [E1 E2]. apply Z.eqb_eq in E1. auto.
  - intros (Hp & Hc & E1 & E2 & Hi). exists p. split; [assumption|].
    apply in_flat_map. exists c. split; [assumption|].
    apply Z.eqb_eq in E1. rewrite E1, E2. cbn [andb]. now apply in_map.
Qed.

Lemma awaits_follow_up_spec check_date p :
  awaits_follow_up check_date p = true
  <-> pp_status p = ACTIVE /\ promised_payment_date p <= check_date
      /\ follow_up_completed p = false.
Proof.
  unfold awaits_follow_up. rewrite !andb_true_iff, Z.leb_le, negb_true_iff.
  split; intros [[H1 H2] H3] || intros (H1 & H2 & H3); repeat split; try assumption.
  - now destruct (pp_status p).
  - now rewrite H1.
Qed.

Lemma due_order_total a b : due_order a b = false -> due_order b a = true.
Proof.
  unfold due_order. cbv zeta. rewrite orb_false_iff, orb_true_iff.
  intros [H1 H2]. apply Z.ltb_ge in H1.
  destruct (Z.eqb_spec (promised_payment_date (fst (fst a)))
                       (promised_payment_date (fst (fst b)))) as [E|E].
  - right. rewrite E, Z.eqb_refl. cbn [andb] in *.
    apply Qle_bool_false in H2. apply Qle_bool_iff. lra.
  - left. apply Z.ltb_lt. lia.
Qed.

Lemma due_order_trans a b c :
  due_order a b = true -> due_order b c = true -> due_order a c = true.
Proof.
  unfold due_order. cbv zeta. rewrite !orb_true_iff, !andb_true_iff, !Z.ltb_lt, !Z.eqb_eq.
  intros [H1|[H1 H1']] [H2|[H2 H2']]; try (left; lia).
  right. split; [lia|]. apply Qle_bool_iff. apply Qle_bool_iff in H1', H2'. lra.
Qed.

(** The order of the list: by date, and by decreasing amount on one date. *)
Lemma due_order_entries today d a b :
  due_order a b = true ->
  due_promised_payment_date (due_entry today d a)
    < due_promised_payment_date (due_entry today d b)
  \/ (due_promised_payment_date (due_entry today d a)
      = due_promised_payment_date (due_entry today d b)
      /\ (due_promised_amount (due_entry today d b)
          <= due_promised_amount (due_entry today d a))%Q).
Proof.
  destruct a as [[pa ca] ia], b as [[pb cb] ib]. unfold due_order. cbn.
  rewrite orb_true_iff, andb_true_iff, Z.ltb_lt, Z.eqb_eq, Qle_bool_iff. tauto.
Qed.

Lemma due_entry_origin today days_ahead d e :
  In e (check_promise_due_dates today days_ahead d) ->
  exists p c,
    In p (payment_promises d) /\ In c (customers d)
    /\ customer_id c = pp_customer_id p
    /\ pp_status p = ACTIVE /\ follow_up_completed p = false
    /\ promised_payment_date p <= today + days_ahead
    /\ due_promise_id e = promise_id p
    /\ due_customer_name e = customer_name c
    /\ due_promised_amount e = promised_amount p
    /\ days_until_due e = promised_payment_date p - today
    /\ due_is_overdue e = (promised_payment_date p <? today).
Proof.
  unfold check_promise_due_dates.
  intros He. apply in_map_iff in He as ([[p c] i] & <- & Hrow).
  apply sort_by_In, due_rows_In in Hrow as (Hp & Hc & Hid & Haw & _).
  apply awaits_follow_up_spec in Haw as (Hs & Hd & Hfu).
  exists p, c. cbn. repeat split; try assumption; congruence.
Qed.

Lemma due_entry_listed today days_ahead d p c :
  In p (payment_promises d) -> In c (customers d) ->
  customer_id c = pp_customer_id p ->
  pp_status p = ACTIVE -> follow_up_completed p = false ->
  promised_payment_date p <= today + days_ahead ->
  exists e, In e (check_promise_due_dates today days_ahead d)
            /\ due_promise_id e = promise_id p
            /\ due_customer_name e = customer_name c
            /\ days_until_due e = promised_payment_date p - today.
Proof.
  intros Hp Hc Hid Hs Hfu Hd. unfold check_promise_due_dates.
  destruct (left_join_invoice_inhabited d p) as [i Hi].
  exists (due_entry today d (p, c, i)). split; [|repeat split; reflexivity].
  apply in_map, sort_by_In, due_rows_In. repeat split; try assumption; try congruence.
  now apply awaits_follow_up_spec.
Qed.

(** X14.  [check_promise_due_dates] lists exactly the promises that are ACTIVE,
    not yet followed up and due on or before [today + days_ahead] (also the
    ones already past due), whose customer exists.  Each entry gives the
    number of days until the promised date and is marked overdue exactly when
    that number is negative; the list is ordered by promised date and, on one
    date, by decreasing amount. *)
Theorem due_list_is_exact_and_ordered (today days_ahead : Z) (d : DB) :
  (forall e, In e (check_promise_due_dates today days_ahead d) ->
     exists p c,
       In p (payment_promises d) /\ In c (customers d)
       /\ customer_id c = pp_customer_id p
       /\ pp_status p = ACTIVE /\ follow_up_completed p = false
       /\ promised_payment_date p <= today + days_ahead
       /\ due_promise_id e = promise_id p
       /\ due_customer_name e = customer_name c
       /\ due_promised_amount e = promised_amount p
       /\ days_until_due e = promised_payment_date p - today
       /\ (due_is_overdue e = true <-> days_until_due e < 0))
  /\ (forall p c,
        In p (payment_promises d) -> In c (customers d) ->
        customer_id c = pp_customer_id p ->
        pp_status p = ACTIVE -> follow_up_completed p = false ->
        promised_payment_date p <= today + days_ahead ->
        exists e, In e (check_promise_due_dates today days_ahead d)
                  /\ due_promise_id e = promise_id p
                  /\ due_customer_name e = customer_name c)
  /\ StronglySorted
       (fun a b =>
          due_promised_payment_date a < due_promised_payment_date b
          \/ (due_promised_payment_date a = due_promised_payment_date b
              /\ (due_promised_amount b <= due_promised_amount a)%Q))
       (check_promise_due_dates today days_ahead d).
Proof.
  split; [|split].
  - intros e He.
    destruct (due_entry_origin today days_ahead d e He)
      as (p & c & Hp & Hc & Hid & Hs & Hfu & Hd & E1 & E2 & E3 & E4 & E5).
    exists p, c. rewrite E4, E5, Z.ltb_lt.
    repeat split; try assumption; intros; lia.
  - intros p c Hp Hc Hid Hs Hfu Hd.
    destruct (due_entry_listed today days_ahead d p c Hp Hc Hid Hs Hfu Hd)
      as (e & He & E1 & E2 & _).
    exists e. auto.
  - unfold check_promise_due_dates. apply sorted_map.
    eapply sorted_weaken; [|apply sort_by_sorted; [apply due_order_total|apply due_order_trans]].
    intros a b. apply due_order_entries.
Qed.


(** X15.  A promise whose status was updated is no longer in the list of
    promises coming due: after an accepted [update_promise_status] for an id,
    [check_promise_due_dates] has no entry with that id, on whatever day and
    for whatever horizon it is called (also when the new status is
    PARTIALLY_KEPT, and as long as no later operation changes the promise). *)
Theorem updated_promise_leaves_the_due_list
    (today pid : Z) (requested : PromiseStatus) (paid : Q) (paid_on : DateInput)
    (note : string) (d d' : DB) (u : Updated) :
  update_promise_status today pid requested paid paid_on note d = (inr u, d') ->
  forall later days_ahead e,
    In e (check_promise_due_dates later days_ahead d') -> due_promise_id e <> pid.
Proof.
  intros E later days_ahead e He Hid.
  destruct (update_outcome today pid requested paid paid_on note d)
    as [(err & E' & _)|(p & esc & d2 & _ & _ & _ & E' & Hrows & _)];
    rewrite E in E'; [discriminate|].
  inversion E'; subst d2. clear E'.
  destruct (due_entry_origin later days_ahead d' e He)
    as (q & c & Hq & _ & _ & _ & Hfu & _ & Eid & _).
  rewrite Hrows in Hq. unfold update_where in Hq.
  apply in_map_iff in Hq as (x & Hx & _).
  destruct (Z.eqb_spec (promise_id x) pid) as [Ex|Ex].
  - subst q. cbn in Hfu. discriminate.
  - subst q. congruence.
Qed.

(** X16.  A promise that was just recorded shows up in the list of promises
    coming due as soon as, and only when, its promised date falls within the
    horizon: after an accepted [create_payment_promise] that got a fresh id,
    [check_promise_due_dates] called on day [later] has an entry with the new
    id exactly when the promised date is at most [later + days_ahead]; such
    an entry counts the days from [later] to the promised date. *)
Theorem new_promise_is_listed_within_the_horizon
    (lastrowid : list Promise -> Z) (today cid : Z) (amount : Q) (date : DateInput)
    (inv : option Z) (contact method note creator : string) (d d' : DB) (c : Created) :
  ~ In (lastrowid (payment_promises d)) (map promise_id (payment_promises d)) ->
  create_payment_promise lastrowid today cid amount date inv contact method note creator d
    = (inr c, d') ->
  forall later days_ahead,
    ((exists e, In e (check_promise_due_dates later days_ahead d')
                /\ due_promise_id e = new_promise_id c)
     <-> new_promised_date c <= later + days_ahead)
    /\ (forall e, In e (check_promise_due_dates later days_ahead d') ->
                  due_promise_id e = new_promise_id c ->
                  days_until_due e = new_promised_date c - later
                  /\ due_promised_amount e = amount).
Proof.
  intros Hfresh E later days_ahead.
  destruct (create_cases lastrowid today cid amount date inv contact method note creator d)
    as [(err & E' & _)|(day & customer & d2 & Hpos & Hdate & Hday & Hc & _ & E' & Hrows
                        & Hl)];
    rewrite E in E'; [discriminate|].
  inversion E'; subst c d2. clear E'. cbn [new_promise_id new_promised_date new_customer_name].
  set (row := mkPromise (lastrowid (payment_promises d)) cid inv today amount day ACTIVE
                        None None (day - follow_up_lead_time) false false
                        contact method note creator) in *.
  assert (Hrow : forall q, In q (payment_promises d') ->
                           promise_id q = lastrowid (payment_promises d) -> q = row).
  { intros q Hq Hid. rewrite Hrows in Hq. apply in_app_or in Hq as [Hq|[<-|[]]];
      [|reflexivity].
    exfalso. apply Hfresh. rewrite <- Hid. now apply in_map. }
  split; [split|].
  - intros (e & He & Hid).
    destruct (due_entry_origin later days_ahead d' e He)
      as (q & c & Hq & _ & _ & _ & _ & Hd & Eid & _).
    rewrite (Hrow q Hq ltac:(congruence)) in Hd. exact Hd.
  - intros Hd. apply find_some in Hc as [Hc Hcid]. apply Z.eqb_eq in Hcid.
    destruct Hl as (Hcs & _).
    destruct (due_entry_listed later days_ahead d' row customer) as (e & He & Eid & _).
    + rewrite Hrows. apply in_or_app. right. now left.
    + now rewrite Hcs.
    + exact Hcid.
    + reflexivity.
    + reflexivity.
    + exact Hd.
    + exists e. auto.
  - intros e He Hid.
    destruct (due_entry_origin later days_ahead d' e He)
      as (q & c & Hq & Hcin & Hcq & _ & _ & _ & Eid & Ename & Eamt & Edays & _).
    rewrite (Hrow q Hq ltac:(congruence)) in *. cbn in Eamt, Edays, Hcq.
    split; assumption.
Qed.


(** *** The follow-up priority *)

Lemma rate_above_half (b t : Z) :
  0 < t -> Promises.Qlt_bool 0.5 (inject_Z b / inject_Z t) = true <-> t < 2 * b.
Proof.
  intros Ht.
  assert (HT : (0 < inject_Z t)%Q) by (unfold Qlt; cbn; lia).
  assert (Hq : (inject_Z b / inject_Z t * inject_Z t == inject_Z b)%Q).
  { field. intros H. rewrite H in HT. now apply Qlt_irrefl in HT. }
  split.
  - intros H. apply Qlt_bool_true in H.
    apply (Qmult_lt_r _ _ _ HT) in H. rewrite Hq in H.
    unfold Qlt, Qmult, inject_Z in H. cbn [Qnum Qden] in H. lia.
  - intros H. apply Qlt_bool_intro. apply (Qmult_lt_r _ _ _ HT). rewrite Hq.
    unfold Qlt, Qmult, inject_Z. cbn [Qnum Qden]. lia.
Qed.

Lemma rate_above_quarter (b t : Z) :
  0 < t -> Promises.Qlt_bool 0.25 (inject_Z b / inject_Z t) = true <-> t < 4 * b.
Proof.
  intros Ht.
  assert (HT : (0 < inject_Z t)%Q) by (unfold Qlt; cbn; lia).
  assert (Hq : (inject_Z b / inject_Z t * inject_Z t == inject_Z b)%Q).
  { field. intros H. rewrite H in HT. now apply Qlt_irrefl in HT. }
  split.
  - intros H. apply Qlt_bool_true in H.
    apply (Qmult_lt_r _ _ _ HT) in H. rewrite Hq in H.
    unfold Qlt, Qmult, inject_Z in H. cbn [Qnum Qden] in H. lia.
  - intros H. apply Qlt_bool_intro. apply (Qmult_lt_r _ _ _ HT). rewrite Hq.
    unfold Qlt, Qmult, inject_Z. cbn [Qnum Qden]. lia.
Qed.

Lemma count_broken_bounds l : 0 <= count_broken l <= Z.of_nat (List.length l).
Proof.
  unfold count_broken.
  pose proof (filter_length_le (fun p => status_eqb (pp_status p) BROKEN) l). lia.
Qed.

(** X17.  The follow-up priority of a promise, from the customer's promises of
    the last 180 days ([total] of them, [broken] of them BROKEN): it is never
    LOW and never below the priority given by the amount alone (URGENT from
    50,000, HIGH from 10,000, NORMAL below); it is URGENT when more than half
    of the promises are broken, at least HIGH when more than a quarter are,
    and the priority of the amount when at most a quarter are, in particular
    when the customer has no promise in the period. *)
Theorem follow_up_priority_follows_the_broken_rate
    (today : Z) (d : DB) (pid cid : Z) (amount : Q) :
  let total := Z.of_nat (List.length (recent_promises today d cid)) in
  let broken := count_broken (recent_promises today d cid) in
  let priority := _calculate_follow_up_priority today d pid cid amount in
  priority <> LOW
  /\ priority_rank (amount_priority amount) <= priority_rank priority
  /\ ((50000 <= amount)%Q -> priority = URGENT)
  /\ (total < 2 * broken -> priority = URGENT)
  /\ (2 * broken <= total -> total < 4 * broken ->
      priority = if Qle_bool 50000 amount then URGENT else HIGH)
  /\ (4 * broken <= total -> priority = amount_priority amount).
Proof.
  cbv zeta. unfold _calculate_follow_up_priority. cbv zeta.
  set (total := Z.of_nat (List.length (recent_promises today d cid))).
  set (broken := count_broken (recent_promises today d cid)).
  pose proof (count_broken_bounds (recent_promises today d cid)) as Hb.
  fold total broken in Hb.
  assert (Hamt : amount_priority amount <> LOW
                 /\ ((50000 <= amount)%Q -> amount_priority amount = URGENT)).
  { unfold amount_priority. split.
    - destruct (Qle_bool 50000 amount); [discriminate|].
      destruct (Qle_bool 10000 amount); discriminate.
    - intros H. apply Qle_bool_iff in H. now rewrite H. }
  destruct Hamt as [Hlow Hbig].
  destruct (Z.ltb_spec 0 total) as [Ht|Ht].
  - pose proof (rate_above_half broken total Ht) as Hh.
    pose proof (rate_above_quarter broken total Ht) as Hq.
    destruct (Promises.Qlt_bool 0.5 (inject_Z broken / inject_Z total)) eqn:E5.
    + assert (total < 2 * broken) by now apply Hh.
      repeat split; try reflexivity; try discriminate; try lia.
      destruct (amount_priority amount); cbn; lia.
    + assert (~ total < 2 * broken) by (intros H; apply Hh in H; discriminate).
      destruct (Promises.Qlt_bool 0.25 (inject_Z broken / inject_Z total)) eqn:E25.
      * assert (total < 4 * broken) by now apply Hq.
        unfold amount_priority in *.
        destruct (Qle_bool 50000 amount) eqn:E50;
          [|destruct (Qle_bool 10000 amount) eqn:E10];
          repeat split; try reflexivity; try discriminate; try lia;
          try (cbn; lia); intros H50; apply Qle_bool_iff in H50; congruence.
      * assert (~ total < 4 * broken) by (intros H'; apply Hq in H'; discriminate).
        repeat split; try assumption; try reflexivity; try lia.
  - assert (broken = 0) by lia.
    repeat split; try assumption; try reflexivity; try lia.
Qed.

(** *** The promise history of a customer *)

Lemma count_with_bounds l :
  0 <= count_with KEPT l /\ 0 <= count_with BROKEN l /\ 0 <= count_with PARTIALLY_KEPT l
  /\ count_with KEPT l + count_with BROKEN l + count_with PARTIALLY_KEPT l
     <= Z.of_nat (List.length l).
Proof.
  unfold count_with. induction l as [|r l IH]; [cbn; lia|].
  cbn [filter List.length]. destruct (h_status r); cbn [status_eqb List.length]; lia.
Qed.

Lemma fold_Qplus_nonneg l : forall a,
  (0 <= a)%Q -> Forall (fun x => (0 <= x)%Q) l -> (0 <= fold_left Qplus l a)%Q.
Proof.
  induction l as [|x l IH]; intros a Ha Hl; [exact Ha|].
  inversion Hl; subst. cbn [fold_left]. apply IH; [|assumption].
  apply Qle_trans with (0 + 0)%Q; [apply Qle_refl|]. now apply Qplus_le_compat.
Qed.

Lemma history_rows_In today d cid days_back r :
  In r (history_rows today d cid days_back)
  <-> exists p, In p (payment_promises d) /\ pp_customer_id p = cid
                /\ today - days_back <= promise_date p /\ r = history_row p.
Proof.
  unfold history_rows. rewrite in_map_iff. split.
  - intros (p & <- & Hp). apply sort_by_In, filter_In in Hp as [Hp Hc].
    apply andb_true_iff in Hc as [Hc Hd]. apply Z.eqb_eq in Hc. apply Z.leb_le in Hd.
    exists p. auto.
  - intros (p & Hp & Hc & Hd & ->). exists p. split; [reflexivity|].
    apply sort_by_In, filter_In. split; [assumption|].
    apply andb_true_iff. split; [now apply Z.eqb_eq|now apply Z.leb_le].
Qed.

(** X18.  The promise history of a customer holds exactly the customer's
    promises made in the last [days_back] days, the most recent first.  In
    its summary the total is the number of rows; the numbers of kept, broken
    and partially kept promises are not negative and add up to at most the
    total; the keep rate lies between 0 and 1; the amount received and the
    fulfilment rate are not negative (the rate may exceed 1); without any
    promise in the period both rates are 0. *)
Theorem promise_history_is_consistent (today cid days_back : Z) (d : DB) :
  let h := get_promise_history today cid days_back d in
  (forall r, In r (promises h)
     <-> exists p, In p (payment_promises d) /\ pp_customer_id p = cid
                   /\ today - days_back <= promise_date p /\ r = history_row p)
  /\ StronglySorted (fun a b => h_promise_date b <= h_promise_date a) (promises h)
  /\ total_promises (summary h) = Z.of_nat (List.length (promises h))
  /\ 0 <= kept_promises (summary h)
  /\ 0 <= broken_promises (summary h)
  /\ 0 <= partial_promises (summary h)
  /\ kept_promises (summary h) + broken_promises (summary h)
     + partial_promises (summary h) <= total_promises (summary h)
  /\ (0 <= promise_keep_rate (summary h) <= 1)%Q
  /\ (0 <= total_received_amount (summary h))%Q
  /\ (0 <= fulfillment_rate (summary h))%Q
  /\ (promises h = [] ->
      promise_keep_rate (summary h) = 0%Q /\ fulfillment_rate (summary h) = 0%Q).
Proof.
  cbv zeta. unfold get_promise_history. cbv zeta.
  cbn [promises summary total_promises kept_promises broken_promises partial_promises
       promise_keep_rate total_received_amount fulfillment_rate].
  set (rows := history_rows today d cid days_back).
  pose proof (count_with_bounds rows) as (Hk & Hb & Hp & Hsum).
  assert (Hrecv : (0 <= sum_Q (map h_actual_payment_amount
                     (filter (fun r => Promises.Qlt_bool 0 (h_actual_payment_amount r))
                             rows)))%Q).
  { unfold sum_Q. apply fold_Qplus_nonneg; [apply Qle_refl|].
    apply Forall_forall. intros x Hx. apply in_map_iff in Hx as (r & <- & Hr).
    apply filter_In in Hr as [_ Hr]. apply Qlt_bool_true in Hr. now apply Qlt_le_weak. }
  split; [|split; [|repeat split; try assumption; try lia]].
  - intros r. apply history_rows_In.
  - unfold rows, history_rows. apply sorted_map.
    eapply sorted_weaken;
      [|apply (sort_by_sorted (fun a b : Promise => promise_date b <=? promise_date a))].
    + intros a b H. cbn. now apply Z.leb_le.
    + intros a b H. apply Z.leb_le. apply Z.leb_gt in H. lia.
    + intros a b c H1 H2. apply Z.leb_le. apply Z.leb_le in H1, H2. lia.
  - destruct (Z.ltb_spec 0 (Z.of_nat (List.length rows))) as [Ht|Ht]; [|apply Qle_refl].
    apply Qle_shift_div_l; [unfold Qlt; cbn; lia|].
    rewrite Qmult_0_l. change 0%Q with (inject_Z 0). rewrite <- Zle_Qle. lia.
  - destruct (Z.ltb_spec 0 (Z.of_nat (List.length rows))) as [Ht|Ht]; [|discriminate].
    apply Qle_shift_div_r; [unfold Qlt; cbn; lia|].
    rewrite Qmult_1_l, <- Zle_Qle. lia.
  - destruct (Promises.Qlt_bool 0 (sum_Q (map h_promised_amount rows))) eqn:E;
      [|apply Qle_refl].
    apply Qlt_bool_true in E. apply Qle_shift_div_l; [assumption|].
    now rewrite Qmult_0_l.
  - match goal with H : rows = [] |- _ => now rewrite H end.
  - match goal with H : rows = [] |- _ => now rewrite H end.
Qed.


(** *** The theorems at concrete inputs *)



Lemma reconcile_report_witness :
  processed_count (fst (process_overdue_promises 19013 scenario3)) = 1
  /\ escalated_count (fst (process_overdue_promises 19013 scenario3)) = 0.
Proof.
  destruct (reconcile_report_is_consistent 19013 scenario3
              (snd (process_overdue_promises 19013 scenario3))
              (fst (process_overdue_promises 19013 scenario3)))
    as (_ & Hp & He & _).
  - apply surjective_pairing.
  - split; [exact Hp|exact He].
Defined.

Lemma second_reconciliation_witness :
  process_overdue_promises 19013 scenario3_reconciled
  = (mkSummary 0 0 0 [], scenario3_reconciled).
Proof.
  apply (second_reconciliation_finds_nothing 19013 scenario3 scenario3_reconciled
           (fst (process_overdue_promises 19013 scenario3))).
  - repeat constructor. intros [].
  - intros p [<-|[]]. reflexivity.
  - vm_compute. reflexivity.
Defined.

Lemma updated_promise_leaves_the_due_list_witness :
  Forall (fun e => due_promise_id e <> 1)
    (check_promise_due_dates 19012 3
       (snd (update_promise_status 19012 1 PARTIALLY_KEPT 950%Q (Parsed 19012) ""
               scenario3))).
Proof.
  apply Forall_forall.
  apply (updated_promise_leaves_the_due_list 19012 1 PARTIALLY_KEPT 950%Q (Parsed 19012) ""
           scenario3 _ (mkUpdated 1 ACTIVE PARTIALLY_KEPT false)).
  reflexivity.
Defined.

Lemma new_promise_is_listed_witness :
  (exists e, In e (check_promise_due_dates 19008 3 promise_recorded)
             /\ due_promise_id e = 1)
  /\ ~ (exists e, In e (check_promise_due_dates 19001 3 promise_recorded)
                  /\ due_promise_id e = 1).
Proof.
  assert (H := new_promise_is_listed_within_the_horizon next_rowid 19000 7 1000%Q
                 (Parsed 19010) (Some 100) "J. Doe" "PHONE" "" "Collection Agent"
                 empty_ledger promise_recorded (mkCreated 1 "Acme" 1000%Q 19010 19009)
                 ltac:(intros []) ltac:(vm_compute; reflexivity)).
  split.
  - apply (proj1 (H 19008 3)). cbn. lia.
  - intros He. apply (proj1 (H 19001 3)) in He. cbn in He. lia.
Defined.

End PromiseReportsProofs.

(** ** Properties of the scores and of the collection queue *)

Module PriorityQueueProofs.

Import Scoring ScoringProofs PriorityQueue.

(** *** Rounding to two decimals *)

Lemma Qlt_bool_iff a b : Scoring.Qlt_bool a b = true <-> (a < b)%Q.
Proof.
  unfold Scoring.Qlt_bool. rewrite negb_true_iff. split.
  - intros H. apply Qnot_le_lt. intros Hle. apply Qle_bool_iff in Hle. congruence.
  - intros H. destruct (Qle_bool b a) eqn:E; [|reflexivity].
    apply Qle_bool_iff in E. exfalso. apply (Qlt_not_le _ _ H E).
Qed.

Lemma Qlt_bool_false_iff a b : Scoring.Qlt_bool a b = false <-> (b <= a)%Q.
Proof.
  unfold Scoring.Qlt_bool. rewrite negb_false_iff. apply Qle_bool_iff.
Qed.

Lemma hundredths_le a b : a <= b -> (inject_Z a / 100 <= inject_Z b / 100)%Q.
Proof.
  intros H. apply Qmult_le_compat_r; [now rewrite <- Zle_Qle|]. discriminate.
Qed.

(** The rounded value is a number of hundredths next to the value. *)
Lemma round2_cases x :
  exists m,
    round2 x = (inject_Z m / 100)%Q
    /\ Qfloor (x * 100) <= m <= Qfloor (x * 100) + 1
    /\ (m = Qfloor (x * 100) + 1 ->
        (0.5 <= x * 100 - inject_Z (Qfloor (x * 100)))%Q).
Proof.
  unfold round2. cbv zeta.
  set (n := Qfloor (x * 100)). set (frac := (x * 100 - inject_Z n)%Q).
  destruct (Scoring.Qlt_bool frac 0.5) eqn:E1.
  { exists n. split; [reflexivity|]. split; [lia|]. intros; lia. }
  apply Qlt_bool_false_iff in E1.
  destruct (Scoring.Qlt_bool 0.5 frac) eqn:E2.
  { exists (n + 1). split; [reflexivity|]. split; [lia|]. intros _. exact E1. }
  destruct (Z.even n).
  - exists n. split; [reflexivity|]. split; [lia|]. intros; lia.
  - exists (n + 1). split; [reflexivity|]. split; [lia|]. intros _. exact E1.
Qed.

Lemma round2_lower k x :
  (inject_Z k / 100 <= x)%Q -> (inject_Z k / 100 <= round2 x)%Q.
Proof.
  intros H. destruct (round2_cases x) as (m & -> & [Hm _] & _).
  apply hundredths_le. etransitivity; [|exact Hm].
  rewrite <- (Qfloor_Z k). apply Qfloor_resp_le.
  apply Qle_trans with (inject_Z k / 100 * 100)%Q.
  - apply Qle_lteq. right. field.
  - apply Qmult_le_compat_r; [exact H|discriminate].
Qed.

Lemma round2_upper k x :
  (x <= inject_Z k / 100)%Q -> (round2 x <= inject_Z k / 100)%Q.
Proof.
  intros H. destruct (round2_cases x) as (m & -> & [_ Hm] & Hup).
  apply hundredths_le.
  assert (H' : (x * 100 <= inject_Z k)%Q).
  { apply Qle_trans with (inject_Z k / 100 * 100)%Q.
    - apply Qmult_le_compat_r; [exact H|discriminate].
    - apply Qle_lteq. right. field. }
  assert (Hn : Qfloor (x * 100) <= k).
  { rewrite <- (Qfloor_Z k). now apply Qfloor_resp_le. }
  destruct (Z.eq_dec m (Qfloor (x * 100) + 1)) as [E|E]; [|lia].
  specialize (Hup E).
  destruct (Z.eq_dec (Qfloor (x * 100)) k) as [Ek|Ek]; [|lia].
  rewrite Ek in Hup. exfalso. lra.
Qed.

Lemma round2_range x : (0 <= x <= 100)%Q -> (0 <= round2 x <= 100)%Q.
Proof.
  intros [H0 H1]. split.
  - apply Qle_trans with (inject_Z 0 / 100)%Q; [discriminate|].
    apply round2_lower. apply Qle_trans with 0%Q; [discriminate|exact H0].
  - apply Qle_trans with (inject_Z 10000 / 100)%Q; [|discriminate].
    apply round2_upper. apply Qle_trans with 100%Q; [exact H1|discriminate].
Qed.


(** *** The ranges of the component scores *)

Lemma Qmin_100_range x : (0 <= x)%Q -> (0 <= Qmin 100 x <= 100)%Q.
Proof.
  intros H. destruct (Q.min_spec 100 x) as [[H1 E]|[H1 E]]; rewrite E; split;
    try assumption; discriminate.
Qed.

Lemma Qmax_0_range x : (x <= 100)%Q -> (0 <= Qmax 0 x <= 100)%Q.
Proof.
  intros H. destruct (Q.max_spec 0 x) as [[H1 E]|[H1 E]]; rewrite E; split;
    try assumption; try discriminate.
  now apply Qlt_le_weak.
Qed.

Lemma clamp_range x : (0 <= Qmax 0 (Qmin 100 x) <= 100)%Q.
Proof. apply Qmax_0_range. apply Q.le_min_l. Qed.

Lemma amount_score_range l : (0 <= _calculate_amount_score l <= 100)%Q.
Proof.
  unfold _calculate_amount_score. destruct l as [|i l]; [split; discriminate|].
  cbv zeta.
  repeat (match goal with |- context [Qle_bool ?a ?b] => destruct (Qle_bool a b) end);
    split; discriminate.
Qed.

Lemma days_score_upper i : (days_score i <= 100)%Q.
Proof. unfold days_score. apply Q.le_min_l. Qed.

Lemma days_score_lower i : 0 <= days_past_due i -> (0 <= days_score i)%Q.
Proof.
  intros H. unfold days_score. apply Q.min_glb; [discriminate|].
  apply Qmult_le_0_compat; [|discriminate].
  change 0%Q with (inject_Z 0). now rewrite <- Zle_Qle.
Qed.

Lemma aging_sums_upper l : forall acc,
  Forall (fun i => (0 <= outstanding_amount i)%Q) l ->
  (fst acc <= 100 * snd acc)%Q -> (0 <= snd acc)%Q ->
  (fst (aging_sums l acc) <= 100 * snd (aging_sums l acc))%Q
  /\ (0 <= snd (aging_sums l acc))%Q.
Proof.
  induction l as [|i l IH]; intros acc Hl Hacc Hw; [split; assumption|].
  inversion Hl as [|? ? Hi Hl']; subst. cbn [aging_sums fold_left].
  apply IH; [assumption| |]; cbn [fst snd].
  - pose proof (Qmult_le_compat_r _ _ _ (days_score_upper i) Hi). lra.
  - lra.
Qed.

Lemma aging_sums_lower l : forall acc,
  Forall (fun i => (0 <= outstanding_amount i)%Q /\ 0 <= days_past_due i) l ->
  (0 <= fst acc)%Q ->
  (0 <= fst (aging_sums l acc))%Q.
Proof.
  induction l as [|i l IH]; intros acc Hl Hacc; [assumption|].
  inversion Hl as [|? ? [Hi Hd] Hl']; subst. cbn [aging_sums fold_left].
  apply IH; [assumption|]. cbn [fst snd].
  pose proof (Qmult_le_0_compat _ _ (days_score_lower i Hd) Hi). lra.
Qed.

Lemma aging_score_sums l :
  _calculate_aging_score l
  = match l with
    | [] => 0%Q
    | _ => if Scoring.Qlt_bool 0 (snd (aging_sums l (0, 0)%Q))
           then (fst (aging_sums l (0, 0)%Q) / snd (aging_sums l (0, 0)%Q))%Q
           else 0%Q
    end.
Proof.
  unfold _calculate_aging_score, aging_sums. destruct l as [|i l]; [reflexivity|].
  now destruct (fold_left _ (i :: l) (0%Q, 0%Q)).
Qed.

Lemma aging_score_upper l :
  Forall (fun i => (0 <= outstanding_amount i)%Q) l ->
  (_calculate_aging_score l <= 100)%Q.
Proof.
  intros Hl. rewrite aging_score_sums. destruct l as [|i l]; [discriminate|].
  destruct (aging_sums_upper (i :: l) (0, 0)%Q Hl) as [Hu Hw];
    [cbn; lra|cbn; lra|].
  destruct (Scoring.Qlt_bool 0 _) eqn:E; [|discriminate].
  apply Qlt_bool_iff in E. apply Qle_shift_div_r; assumption.
Qed.

Lemma aging_score_lower l :
  Forall (fun i => (0 <= outstanding_amount i)%Q /\ 0 <= days_past_due i) l ->
  (0 <= _calculate_aging_score l)%Q.
Proof.
  intros Hl. rewrite aging_score_sums. destruct l as [|i l]; [discriminate|].
  pose proof (aging_sums_lower (i :: l) (0, 0)%Q Hl ltac:(cbn; lra)) as Hf.
  destruct (Scoring.Qlt_bool 0 _) eqn:E; [|discriminate].
  apply Qlt_bool_iff in E. apply Qle_shift_div_l; [assumption|]. now rewrite Qmult_0_l.
Qed.

Lemma history_score_range today d cid :
  (forall c, _get_customer_info d cid = Some c ->
             (0 <= payment_reliability_score c <= 100)%Q) ->
  (0 <= _calculate_payment_history_score today d cid <= 100)%Q.
Proof.
  intros Hrel. unfold _calculate_payment_history_score.
  unfold _get_customer_info in Hrel.
  destruct (find _ (customers d)) as [c|]; [|split; discriminate].
  specialize (Hrel c eq_refl). cbv zeta.
  set (terms := inject_Z (payment_terms_days c)).
  set (h0 := payment_reliability_score c) in *.
  match goal with |- context [if Qle_bool (avg_days_to_pay c) terms then ?a else ?b] =>
    set (h1 := if Qle_bool (avg_days_to_pay c) terms then a else b) end.
  assert (H1 : (0 <= h1 <= 100)%Q).
  { unfold h1. destruct (Qle_bool (avg_days_to_pay c) terms).
    - split; [|apply Q.le_min_l]. apply Q.min_glb; lra.
    - destruct (Qle_bool (avg_days_to_pay c) (terms + 10)) eqn:E.
      + apply Qmax_0_range. lra.
      + apply Qmax_0_range.
        assert (Hlate : (terms + 10 < avg_days_to_pay c)%Q).
        { apply Qnot_le_lt. intros Hle. apply Qle_bool_iff in Hle. congruence. }
        assert (Hm : (0 <= Qmin 50 ((avg_days_to_pay c - terms) * 2))%Q)
          by (apply Q.min_glb; lra).
        lra. }
  clearbody h1.
  destruct (0 <? _); [|exact H1].
  destruct (Scoring.Qlt_bool _ 0.5).
  - apply Qmax_0_range. lra.
  - destruct (Scoring.Qlt_bool 0.8 _); [|exact H1].
    split; [|apply Q.le_min_l]. apply Q.min_glb; lra.
Qed.

Lemma relationship_score_range today d cid c :
  (0 <= _calculate_relationship_score today d cid c <= 100)%Q.
Proof. unfold _calculate_relationship_score. cbv zeta. apply clamp_range. Qed.

Lemma effort_score_range today d cid :
  (0 <= _calculate_collection_effort_score today d cid <= 100)%Q.
Proof.
  unfold _calculate_collection_effort_score. cbv zeta.
  destruct (filter _ (collection_activities d)); [split; discriminate|].
  apply clamp_range.
Qed.

Lemma outstanding_invoices_In d cid i :
  In i (_get_outstanding_invoices d cid)
  <-> In i (invoices d) /\ is_outstanding cid i.
Proof.
  unfold _get_outstanding_invoices, is_outstanding.
  rewrite filter_In, andb_true_iff, Z.eqb_eq, Qlt_bool_iff. tauto.
Qed.

(** The score that is returned, in terms of the components. *)
Lemma scored_fields today d cid s :
  calculate_customer_priority_score today d cid = scored s ->
  exists c first rest,
    _get_customer_info d cid = Some c
    /\ _get_outstanding_invoices d cid = first :: rest
    /\ let comps := component_scores_of today d cid c (first :: rest) in
       let oldest := fold_left Z.max (map days_past_due rest) (days_past_due first) in
       s = mkScore (round2 (weighted_sum comps))
                   (_determine_risk_level (weighted_sum comps))
                   (sum_Q (map outstanding_amount (first :: rest)))
                   (Z.of_nat (List.length (first :: rest)))
                   oldest
                   (mkComponents (round2 (amount_score comps))
                                 (round2 (aging_score comps))
                                 (round2 (history_score comps))
                                 (round2 (relationship_score comps))
                                 (round2 (effort_score comps)))
                   (_determine_next_action (weighted_sum comps) oldest).
Proof.
  unfold calculate_customer_priority_score.
  destruct (_get_customer_info d cid) as [c|]; [|discriminate].
  destruct (_get_outstanding_invoices d cid) as [|first rest]; [discriminate|].
  intros H. inversion H; subst; clear H. exists c, first, rest. auto.
Qed.

(** X19.  The range of a returned score.  The amount, relationship and effort
    components always lie in [0, 100], and the aging component is at most
    100.  The aging component is not negative when none of the customer's
    outstanding invoices has a negative number of days past due, and the
    history component lies in [0, 100] when the customer's payment
    reliability score does; when both hold, the priority score lies in
    [0, 100]. *)
Theorem score_is_in_range_for_past_due_invoices
    (today : Z) (d : DB) (cid : Z) (s : Score) :
  calculate_customer_priority_score today d cid = scored s ->
  let cs := component_scores s in
  (0 <= amount_score cs <= 100)%Q
  /\ (aging_score cs <= 100)%Q
  /\ (0 <= relationship_score cs <= 100)%Q
  /\ (0 <= effort_score cs <= 100)%Q
  /\ ((forall i, In i (invoices d) -> is_outstanding cid i -> 0 <= days_past_due i) ->
      (0 <= aging_score cs)%Q)
  /\ ((forall c, _get_customer_info d cid = Some c ->
                 (0 <= payment_reliability_score c <= 100)%Q) ->
      (0 <= history_score cs <= 100)%Q)
  /\ ((forall i, In i (invoices d) -> is_outstanding cid i -> 0 <= days_past_due i) ->
      (forall c, _get_customer_info d cid = Some c ->
                 (0 <= payment_reliability_score c <= 100)%Q) ->
      (0 <= priority_score s <= 100)%Q).
Proof.
  intros E.
  destruct (scored_fields today d cid s E) as (c & first & rest & Hc & Hl & ->).
  cbv zeta. cbn [component_scores priority_score amount_score aging_score history_score
                 relationship_score effort_score component_scores_of].
  set (l := first :: rest) in *.
  assert (Hamounts : Forall (fun i => (0 <= outstanding_amount i)%Q) l).
  { apply Forall_forall. intros i Hi. rewrite <- Hl in Hi.
    apply outstanding_invoices_In in Hi as [_ [_ Hi]]. now apply Qlt_le_weak. }
  assert (Hdays : (forall i, In i (invoices d) -> is_outstanding cid i ->
                             0 <= days_past_due i) ->
                  (0 <= _calculate_aging_score l)%Q).
  { intros H. apply aging_score_lower. apply Forall_forall. intros i Hi.
    rewrite <- Hl in Hi. apply outstanding_invoices_In in Hi as [Hin Hout].
    split; [apply Qlt_le_weak, Hout|now apply H]. }
  pose proof (aging_score_upper l Hamounts) as Hup.
  split; [apply round2_range, amount_score_range|].
  split. { apply Qle_trans with (inject_Z 10000 / 100)%Q; [|discriminate].
           apply round2_upper. apply Qle_trans with 100%Q; [exact Hup|discriminate]. }
  split; [apply round2_range, relationship_score_range|].
  split; [apply round2_range, effort_score_range|].
  split. { intros H. apply Qle_trans with (inject_Z 0 / 100)%Q; [discriminate|].
           apply round2_lower. apply Qle_trans with 0%Q; [discriminate|now apply Hdays]. }
  split. { intros H. apply round2_range. now apply history_score_range. }
  intros H1 H2. apply round2_range. apply weighted_sum_range;
    cbn [amount_score aging_score history_score relationship_score effort_score].
  - apply amount_score_range.
  - split; [now apply Hdays|exact Hup].
  - now apply history_score_range.
  - apply relationship_score_range.
  - apply effort_score_range.
Qed.


(** *** Risk level and next action *)

Lemma Qle_bool_false_lt a b : Qle_bool a b = false -> (b < a)%Q.
Proof.
  intros H. apply Qnot_le_lt. intros Hle. apply Qle_bool_iff in Hle. congruence.
Qed.

(** X20.  The risk level is taken from the score before it is rounded, and
    agrees with the returned score up to the rounding: HIGH comes with a
    returned score of at least 75, MEDIUM with one between 50 and 75 (75
    included: a score just below 75 is returned as 75.0), LOW with one of at
    most 50; a returned score above 75 is always HIGH and one below 50 always
    LOW. *)
Theorem risk_level_agrees_with_returned_score
    (today : Z) (d : DB) (cid : Z) (s : Score) :
  calculate_customer_priority_score today d cid = scored s ->
  (risk_level s = HIGH -> (75 <= priority_score s)%Q)
  /\ (risk_level s = MEDIUM -> (50 <= priority_score s <= 75)%Q)
  /\ (risk_level s = LOW -> (priority_score s <= 50)%Q)
  /\ ((75 < priority_score s)%Q -> risk_level s = HIGH)
  /\ ((priority_score s < 50)%Q -> risk_level s = LOW).
Proof.
  intros E.
  destruct (scored_fields today d cid s E) as (c & first & rest & _ & _ & ->).
  cbv zeta. cbn [risk_level priority_score].
  set (x := weighted_sum _).
  assert (Hhi : (75 <= x)%Q -> (75 <= round2 x)%Q).
  { intros H. apply Qle_trans with (inject_Z 7500 / 100)%Q; [discriminate|].
    apply round2_lower. apply Qle_trans with 75%Q; [discriminate|exact H]. }
  assert (Hmid : (50 <= x)%Q -> (50 <= round2 x)%Q).
  { intros H. apply Qle_trans with (inject_Z 5000 / 100)%Q; [discriminate|].
    apply round2_lower. apply Qle_trans with 50%Q; [discriminate|exact H]. }
  assert (Hlt75 : (x < 75)%Q -> (round2 x <= 75)%Q).
  { intros H. apply Qle_trans with (inject_Z 7500 / 100)%Q; [|discriminate].
    apply round2_upper. apply Qle_trans with 75%Q; [now apply Qlt_le_weak|discriminate]. }
  assert (Hlt50 : (x < 50)%Q -> (round2 x <= 50)%Q).
  { intros H. apply Qle_trans with (inject_Z 5000 / 100)%Q; [|discriminate].
    apply round2_upper. apply Qle_trans with 50%Q; [now apply Qlt_le_weak|discriminate]. }
  unfold _determine_risk_level, high_risk_score, medium_risk_score.
  destruct (Qle_bool 75 x) eqn:E75.
  { apply Qle_bool_iff in E75. specialize (Hhi E75).
    repeat split; intros; try congruence; try assumption; exfalso; lra. }
  apply Qle_bool_false_lt in E75. specialize (Hlt75 E75).
  destruct (Qle_bool 50 x) eqn:E50.
  { apply Qle_bool_iff in E50. specialize (Hmid E50).
    repeat split; intros; try congruence; try assumption; exfalso; lra. }
  apply Qle_bool_false_lt in E50. specialize (Hlt50 E50).
  repeat split; intros; try congruence; try assumption; exfalso; lra.
Qed.

Lemma fold_max_ge l : forall a,
  a <= fold_left Z.max l a /\ Forall (fun x => x <= fold_left Z.max l a) l.
Proof.
  induction l as [|x l IH]; intros a; [split; [cbn; lia|constructor]|].
  cbn [fold_left]. destruct (IH (Z.max a x)) as [H1 H2].
  split; [lia|]. constructor; [cbn beta; lia|assumption].
Qed.

Lemma fold_max_In l : forall a,
  fold_left Z.max l a = a \/ In (fold_left Z.max l a) l.
Proof.
  induction l as [|x l IH]; intros a; [now left|].
  cbn [fold_left]. destruct (IH (Z.max a x)) as [H|H].
  - rewrite H. destruct (Z.max_spec a x) as [[_ ->]|[_ ->]]; [right; now left|now left].
  - right. now right.
Qed.

(** X21.  [oldest_invoice_days] is the greatest number of days past due among
    the customer's outstanding invoices, and it sets a floor for the next
    action whatever the score: above 120 days the next action is
    ESCALATE_TO_LEGAL, above 90 days that or MANAGER_INTERVENTION, above 60
    days one of these or IMMEDIATE_PHONE_CALL, above 30 days never
    STANDARD_FOLLOW_UP; STANDARD_FOLLOW_UP is only proposed when no
    outstanding invoice is more than 30 days past due and the returned score
    is at most 40. *)
Theorem oldest_invoice_sets_the_next_action
    (today : Z) (d : DB) (cid : Z) (s : Score) :
  calculate_customer_priority_score today d cid = scored s ->
  (forall i, In i (invoices d) -> is_outstanding cid i ->
             days_past_due i <= oldest_invoice_days s)
  /\ (exists i, In i (invoices d) /\ is_outstanding cid i
                /\ days_past_due i = oldest_invoice_days s)
  /\ (120 < oldest_invoice_days s -> next_action s = "ESCALATE_TO_LEGAL"%string)
  /\ (90 < oldest_invoice_days s ->
      next_action s = "ESCALATE_TO_LEGAL"%string
      \/ next_action s = "MANAGER_INTERVENTION"%string)
  /\ (60 < oldest_invoice_days s ->
      next_action s = "ESCALATE_TO_LEGAL"%string
      \/ next_action s = "MANAGER_INTERVENTION"%string
      \/ next_action s = "IMMEDIATE_PHONE_CALL"%string)
  /\ (30 < oldest_invoice_days s -> next_action s <> "STANDARD_FOLLOW_UP"%string)
  /\ (next_action s = "STANDARD_FOLLOW_UP"%string ->
      oldest_invoice_days s <= 30 /\ (priority_score s <= 40)%Q).
Proof.
  intros E.
  destruct (scored_fields today d cid s E) as (c & first & rest & _ & Hl & ->).
  cbv zeta. cbn [oldest_invoice_days next_action priority_score].
  set (x := weighted_sum _).
  set (oldest := fold_left Z.max (map days_past_due rest) (days_past_due first)).
  destruct (fold_max_ge (map days_past_due rest) (days_past_due first)) as [Hfirst Hrest].
  fold oldest in Hfirst, Hrest.
  split; [|split].
  - intros i Hi Ho.
    assert (Hin : In i (first :: rest))
      by (rewrite <- Hl; apply outstanding_invoices_In; auto).
    destruct Hin as [<-|Hin]; [assumption|].
    rewrite Forall_forall in Hrest. apply Hrest. now apply in_map.
  - destruct (fold_max_In (map days_past_due rest) (days_past_due first)) as [H|H];
      fold oldest in H.
    + exists first. rewrite <- and_assoc. split; [|now symmetry].
      apply outstanding_invoices_In. rewrite Hl. now left.
    + apply in_map_iff in H as (i & Hi & Hin). exists i.
      rewrite <- and_assoc. split; [|assumption].
      apply outstanding_invoices_In. rewrite Hl. now right.
  - unfold _determine_next_action.
    destruct (Z.ltb_spec 120 oldest) as [H120|H120];
      [rewrite orb_true_r; repeat split; intros; try lia; auto; discriminate|].
    destruct (Scoring.Qlt_bool 80 x) eqn:E80;
      [cbn [orb]; repeat split; intros; try lia; auto; discriminate|].
    cbn [orb].
    destruct (Z.ltb_spec 90 oldest) as [H90|H90];
      [rewrite orb_true_r; repeat split; intros; try lia; auto; discriminate|].
    destruct (Scoring.Qlt_bool 70 x) eqn:E70;
      [cbn [orb]; repeat split; intros; try lia; auto; discriminate|].
    cbn [orb].
    destruct (Z.ltb_spec 60 oldest) as [H60|H60];
      [rewrite orb_true_r; repeat split; intros; try lia; auto; discriminate|].
    destruct (Scoring.Qlt_bool 60 x) eqn:E60;
      [cbn [orb]; repeat split; intros; try lia; auto; discriminate|].
    cbn [orb].
    destruct (Z.ltb_spec 30 oldest) as [H30|H30];
      [rewrite orb_true_r; repeat split; intros; try lia; auto; discriminate|].
    destruct (Scoring.Qlt_bool 40 x) eqn:E40;
      [cbn [orb]; repeat split; intros; try lia; auto; discriminate|].
    cbn [orb]. repeat split; intros; try lia.
    apply Qlt_bool_false_iff in E40.
    apply Qle_trans with (inject_Z 4000 / 100)%Q; [|discriminate].
    apply round2_upper. apply Qle_trans with 40%Q; [exact E40|discriminate].
Qed.


(** *** The collection queue *)

Lemma distinct_In l x : In x (distinct l) <-> In x l.
Proof.
  induction l as [|a l IH]; [reflexivity|]. cbn [distinct In].
  rewrite filter_In, IH, negb_true_iff, Z.eqb_neq.
  destruct (Z.eq_dec a x); [tauto|]. intuition congruence.
Qed.

Lemma NoDup_filter_Z (f : Z -> bool) l : NoDup l -> NoDup (filter f l).
Proof.
  induction 1 as [|a l Hn Hnd IH]; cbn [filter]; [constructor|].
  destruct (f a); [|assumption]. constructor; [|assumption].
  intros H. apply filter_In in H as [H _]. contradiction.
Qed.

Lemma distinct_NoDup l : NoDup (distinct l).
Proof.
  induction l as [|a l IH]; cbn [distinct]; constructor.
  - intros H. apply filter_In in H as [_ H]. now rewrite Z.eqb_refl in H.
  - now apply NoDup_filter_Z.
Qed.

Lemma customers_with_balance_In d cid :
  In cid (customers_with_balance d)
  <-> exists i, In i (invoices d) /\ is_outstanding cid i.
Proof.
  unfold customers_with_balance, is_outstanding. rewrite distinct_In, in_map_iff.
  split.
  - intros (i & E & Hi). apply filter_In in Hi as [Hi Ho]. apply Qlt_bool_iff in Ho.
    exists i. auto.
  - intros (i & Hi & E & Ho). exists i. split; [assumption|].
    apply filter_In. split; [assumption|now apply Qlt_bool_iff].
Qed.

Lemma by_score_total a b :
  by_score_descending a b = false -> by_score_descending b a = true.
Proof.
  unfold by_score_descending. intros H. apply Qle_bool_false_lt in H.
  apply Qle_bool_iff. now apply Qlt_le_weak.
Qed.

Lemma by_score_trans a b c :
  by_score_descending a b = true -> by_score_descending b c = true ->
  by_score_descending a c = true.
Proof.
  unfold by_score_descending. rewrite !Qle_bool_iff. intros H1 H2.
  eapply Qle_trans; eassumption.
Qed.

(** The candidates of the queue: the customers with a balance whose score
    has no error and reaches the minimum, ranked. *)
Lemma ranked_candidates_In today min_score d cid r :
  In (cid, r)
     (sort_by by_score_descending
        (filter (fun e => negb (has_error (snd e))
                          && Qle_bool min_score (reported_score (snd e)))
           (map (fun cid => (cid, calculate_customer_priority_score today d cid))
                (customers_with_balance d))))
  <-> In cid (customers_with_balance d)
      /\ r = calculate_customer_priority_score today d cid
      /\ has_error r = false /\ (min_score <= reported_score r)%Q.
Proof.
  rewrite sort_by_In, filter_In, in_map_iff. cbn [snd].
  rewrite andb_true_iff, negb_true_iff, Qle_bool_iff. split.
  - intros [(x & E & Hx) [He Hm]]. inversion E; subst. auto.
  - intros (Hc & -> & He & Hm). split; [|auto]. exists cid. auto.
Qed.

Lemma ranked_candidates_NoDup today min_score d :
  NoDup (map fst
    (sort_by by_score_descending
       (filter (fun e => negb (has_error (snd e))
                         && Qle_bool min_score (reported_score (snd e)))
          (map (fun cid => (cid, calculate_customer_priority_score today d cid))
               (customers_with_balance d))))).
Proof.
  eapply Permutation_NoDup.
  - apply Permutation_map. apply sort_by_perm.
  - apply NoDup_map_filter. rewrite map_map. cbn [fst]. rewrite map_id.
    apply distinct_NoDup.
Qed.

Lemma NoDup_firstn {A} n (l : list A) : NoDup l -> NoDup (firstn n l).
Proof.
  intros H. rewrite <- (firstn_skipn n l) in H. now apply NoDup_app_remove_r in H.
Qed.

(** X22.  The collection queue for a limit that is not negative: it has at
    most [limit] entries, no customer twice, and is ordered by decreasing
    score.  Every entry is the score of a customer with an outstanding
    invoice, computed without error and at least [min_score].  A customer
    whose score qualifies is left out only when the queue is full, and then
    every entry of the queue has a score at least as high. *)
Theorem collection_queue_is_ranked (today limit : Z) (min_score : Q) (d : DB) :
  0 <= limit ->
  let queue := get_prioritized_collection_queue today limit min_score d in
  Z.of_nat (List.length queue) <= limit
  /\ NoDup (map fst queue)
  /\ StronglySorted
       (fun a b => (reported_score (snd b) <= reported_score (snd a))%Q) queue
  /\ (forall cid r, In (cid, r) queue ->
        exists s i,
          r = scored s
          /\ calculate_customer_priority_score today d cid = scored s
          /\ (min_score <= priority_score s)%Q
          /\ In i (invoices d) /\ is_outstanding cid i)
  /\ (forall cid s,
        calculate_customer_priority_score today d cid = scored s ->
        (min_score <= priority_score s)%Q ->
        ~ In cid (map fst queue) ->
        Z.of_nat (List.length queue) = limit
        /\ forall e, In e queue -> (priority_score s <= reported_score (snd e))%Q).
Proof.
  intros Hlimit. cbv zeta. unfold get_prioritized_collection_queue. cbv zeta.
  set (ranked := sort_by by_score_descending _).
  unfold slice_to. destruct (Z.leb_spec 0 limit) as [_|]; [|lia].
  assert (Hsorted : StronglySorted (fun a b => by_score_descending a b = true) ranked).
  { apply sort_by_sorted; [apply by_score_total|apply by_score_trans]. }
  split; [|split; [|split; [|split]]].
  - pose proof (firstn_le_length (Z.to_nat limit) ranked). lia.
  - rewrite <- firstn_map. apply NoDup_firstn. apply ranked_candidates_NoDup.
  - apply sorted_firstn.
    eapply sorted_weaken; [|exact Hsorted].
    intros a b H. now apply Qle_bool_iff.
  - intros cid r Hin.
    assert (Hin' : In (cid, r) ranked).
    { rewrite <- (firstn_skipn (Z.to_nat limit) ranked). apply in_or_app. now left. }
    apply ranked_candidates_In in Hin' as (Hc & Hr & He & Hm).
    apply customers_with_balance_In in Hc as (i & Hi & Ho).
    destruct r as [| |s]; [discriminate| |].
    + exfalso. symmetry in Hr. unfold calculate_customer_priority_score in Hr.
      destruct (_get_customer_info d cid); [|discriminate].
      destruct (_get_outstanding_invoices d cid) as [|x l] eqn:El; [|discriminate].
      assert (Hx : In i (_get_outstanding_invoices d cid))
        by (apply outstanding_invoices_In; auto).
      now rewrite El in Hx.
    + exists s, i. auto.
  - intros cid s Hs Hm Hout.
    assert (Hin : In (cid, scored s) ranked).
    { apply ranked_candidates_In. rewrite Hs. repeat split; try assumption.
      apply customers_with_balance_In.
      destruct (scored_fields today d cid s Hs) as (c & first & rest & _ & Hl & _).
      exists first. apply outstanding_invoices_In. rewrite Hl. now left. }
    rewrite <- (firstn_skipn (Z.to_nat limit) ranked) in Hin, Hsorted.
    apply in_app_or in Hin as [Hin|Hin].
    { exfalso. apply Hout. apply in_map_iff. exists (cid, scored s). auto. }
    split.
    + assert (Hlen : (Z.to_nat limit < List.length ranked)%nat).
      { destruct (Nat.lt_ge_cases (Z.to_nat limit) (List.length ranked)) as [H|H];
          [assumption|].
        rewrite skipn_all2 in Hin by assumption. contradiction. }
      rewrite length_firstn. lia.
    + intros e He.
      pose proof (sorted_app_le _ _ _ _ _ Hsorted He Hin) as Hle.
      unfold by_score_descending in Hle. apply Qle_bool_iff in Hle. exact Hle.
Qed.

Lemma score_is_in_range_witness :
  exists s,
    calculate_customer_priority_score 19000 ledger 7 = scored s
    /\ (0 <= priority_score s <= 100)%Q.
Proof.
  eexists. split; [vm_compute; reflexivity|].
  eapply (score_is_in_range_for_past_due_invoices 19000 ledger 7).
  - vm_compute. reflexivity.
  - intros i [<-|[<-|[<-|[]]]] [Hc _]; cbn in *; lia.
  - intros c Hc. vm_compute in Hc. inversion Hc; subst c. split; discriminate.
Defined.

Lemma risk_level_witness :
  exists s,
    calculate_customer_priority_score 19000 ledger 7 = scored s
    /\ risk_level s = MEDIUM /\ (50 <= priority_score s <= 75)%Q.
Proof.
  eexists. split; [vm_compute; reflexivity|]. split; [vm_compute; reflexivity|].
  eapply (risk_level_agrees_with_returned_score 19000 ledger 7).
  - vm_compute. reflexivity.
  - vm_compute. reflexivity.
Defined.

Lemma oldest_invoice_witness :
  exists s,
    calculate_customer_priority_score 19000 ledger 7 = scored s
    /\ next_action s = "ESCALATE_TO_LEGAL"%string.
Proof.
  eexists. split; [vm_compute; reflexivity|].
  eapply (oldest_invoice_sets_the_next_action 19000 ledger 7).
  - vm_compute. reflexivity.
  - vm_compute. reflexivity.
Defined.

Lemma collection_queue_witness :
  Z.of_nat (List.length (get_prioritized_collection_queue 19000 1 30%Q ledger)) <= 1
  /\ NoDup (map fst (get_prioritized_collection_queue 19000 1 30%Q ledger)).
Proof.
  destruct (collection_queue_is_ranked 19000 1 30%Q ledger) as (H1 & H2 & _).
  - lia.
  - split; assumption.
Defined.

End PriorityQueueProofs.
